(** * rhino-editor: the [TipTapEditorBase] host element

    A shallow embedding of [src/exports/elements/tip-tap-editor-base.ts]:
    the host's fields and light DOM as an explicit state, its methods as
    computations in a state-and-exception monad, the browser and the wrapped
    editor engine as an interface the host is parameterised by. *)

From Stdlib Require Import String Ascii List ZArith Lia Bool.
From stdpp Require Import base option list strings gmap pretty.

Set Warnings "-register-all".

(* ===================================================================== *)
(** * JavaScript strings

    A JavaScript string is modelled by the [string] of its UTF-8 bytes. *)
(* ===================================================================== *)

Module JSString.

Definition is_upper (c : ascii) : bool :=
  let n := nat_of_ascii c in (65 <=? n) && (n <=? 90).

Definition lower_char (c : ascii) : ascii :=
  if is_upper c then ascii_of_nat (nat_of_ascii c + 32) else c.

(** [String.prototype.toLowerCase].  Only A-Z are mapped: no character
    outside ASCII lowercases to one of the letters of "json", the only
    word the host compares a lowercased string with. *)
Fixpoint toLowerCase (s : string) : string :=
  match s with
  | EmptyString => EmptyString
  | String c t => String (lower_char c) (toLowerCase t)
  end.

Fixpoint startsWith (needle hay : string) : bool :=
  match needle, hay with
  | EmptyString, _ => true
  | String a n', String b h' => Ascii.eqb a b && startsWith n' h'
  | String _ _, EmptyString => false
  end.

(** [hay.includes(needle)] *)
Fixpoint includes (hay needle : string) : bool :=
  startsWith needle hay ||
  match hay with
  | EmptyString => false
  | String _ t => includes t needle
  end.

(** [needle] removed from the front of [hay], when it is there. *)
Fixpoint stripPrefix (needle hay : string) : option string :=
  match needle, hay with
  | EmptyString, _ => Some hay
  | String a n', String b h' =>
      if Ascii.eqb a b then stripPrefix n' h' else None
  | String _ _, EmptyString => None
  end.

Definition isEmpty (s : string) : bool :=
  match s with EmptyString => true | _ => false end.

Definition char (n : N) : ascii := ascii_of_N n.
Definition single (n : N) : string := String (char n) EmptyString.

(** The double quote, U+0022. *)
Definition dquote : string := single 34.

(** The separator the editor shows after an attachment's name:
    a space, U+00B7 MIDDLE DOT, a space. *)
Definition separatorGlyph : string :=
  String (char 32) (String (char 194) (String (char 183) (single 32))).

(** ASCII whitespace of the DOM standard: TAB, LF, FF, CR, SPACE. *)
Definition is_ascii_whitespace (c : ascii) : bool :=
  let n := N_of_ascii c in
  (n =? 9)%N || (n =? 10)%N || (n =? 12)%N || (n =? 13)%N || (n =? 32)%N.

(** Split on ASCII whitespace, dropping empty pieces. *)
Fixpoint splitWhitespaceAux (cur : string) (s : string) : list string :=
  match s with
  | EmptyString => if isEmpty cur then [] else [cur]
  | String c t =>
      if is_ascii_whitespace c
      then (if isEmpty cur then splitWhitespaceAux EmptyString t
            else cur :: splitWhitespaceAux EmptyString t)
      else splitWhitespaceAux (cur +:+ String c EmptyString) t
  end.

Definition splitWhitespace (s : string) : list string :=
  splitWhitespaceAux EmptyString s.

Fixpoint join (sep : string) (l : list string) : string :=
  match l with
  | [] => EmptyString
  | [x] => x
  | x :: t => x +:+ sep +:+ join sep t
  end.

Fixpoint concat (l : list string) : string :=
  match l with
  | [] => EmptyString
  | x :: t => x +:+ concat t
  end.

(** UTF-8 bytes of a code point (surrogates get the three-byte form). *)
Definition utf8 (cp : N) : string :=
  if (cp <? 128)%N then single cp
  else if (cp <? 2048)%N then
    String (char (192 + cp / 64)) (single (128 + cp mod 64))
  else if (cp <? 65536)%N then
    String (char (224 + cp / 4096))
      (String (char (128 + (cp / 64) mod 64)) (single (128 + cp mod 64)))
  else
    String (char (240 + cp / 262144))
      (String (char (128 + (cp / 4096) mod 64))
         (String (char (128 + (cp / 64) mod 64)) (single (128 + cp mod 64)))).

End JSString.

(* ===================================================================== *)
(** * JavaScript values and [JSON.parse] *)
(* ===================================================================== *)

Module JSON.
Import JSString.

(** A JSON number, kept exactly: [(-1)^negative * mantissa * 10^exponent]. *)
Record JSNumber := mkNumber {
  negative : bool;
  mantissa : N;
  exponent : Z
}.

Inductive JSValue :=
| JNull
| JBool (b : bool)
| JNumber (n : JSNumber)
| JString (s : string)
| JArray (items : list JSValue)
| JObject (props : list (string * JSValue)).

(** Outcome of a parsing step: a value and the unread input, a syntax
    error, or recursion budget used up. *)
Inductive Parsed (A : Type) :=
| OutOfFuel
| Malformed
| Read (a : A) (rest : string).
Arguments OutOfFuel {A}.
Arguments Malformed {A}.
Arguments Read {A} a rest.

Definition is_json_ws (c : ascii) : bool :=
  let n := N_of_ascii c in
  (n =? 32)%N || (n =? 9)%N || (n =? 10)%N || (n =? 13)%N.

Fixpoint skip_ws (s : string) : string :=
  match s with
  | String c t => if is_json_ws c then skip_ws t else s
  | EmptyString => s
  end.

Definition digit_of (c : ascii) : option N :=
  let n := N_of_ascii c in
  if (48 <=? n)%N && (n <=? 57)%N then Some (n - 48)%N else None.

Definition hex_of (c : ascii) : option N :=
  let n := N_of_ascii c in
  if (48 <=? n)%N && (n <=? 57)%N then Some (n - 48)%N
  else if (65 <=? n)%N && (n <=? 70)%N then Some (n - 55)%N
  else if (97 <=? n)%N && (n <=? 102)%N then Some (n - 87)%N
  else None.

(** Pieces of a string literal: a raw byte, or the code unit of an escape. *)
Inductive StrItem := Raw (c : ascii) | Esc (cu : N).

Definition is_high (cu : N) : bool := (55296 <=? cu)%N && (cu <=? 56319)%N.
Definition is_low (cu : N) : bool := (56320 <=? cu)%N && (cu <=? 57343)%N.

(** Escaped surrogate pairs are joined into one code point. *)
Fixpoint decode_items (l : list StrItem) : string :=
  match l with
  | [] => EmptyString
  | Raw c :: t => String c (decode_items t)
  | Esc hi :: t =>
      match t with
      | Esc lo :: t' =>
          if is_high hi && is_low lo
          then utf8 (65536 + (hi - 55296) * 1024 + (lo - 56320)) +:+ decode_items t'
          else utf8 hi +:+ decode_items t
      | _ => utf8 hi +:+ decode_items t
      end
  end.

Definition simple_escape (c : ascii) : option N :=
  let n := N_of_ascii c in
  if (n =? 34)%N then Some 34%N          (* quote *)
  else if (n =? 92)%N then Some 92%N     (* backslash *)
  else if (n =? 47)%N then Some 47%N     (* slash *)
  else if (n =? 98)%N then Some 8%N      (* b *)
  else if (n =? 102)%N then Some 12%N    (* f *)
  else if (n =? 110)%N then Some 10%N    (* n *)
  else if (n =? 114)%N then Some 13%N    (* r *)
  else if (n =? 116)%N then Some 9%N     (* t *)
  else None.

(** The characters of a string literal after its opening quote, up to and
    including the closing quote. *)
Fixpoint lex_string_items (s : string) : option (list StrItem * string) :=
  match s with
  | EmptyString => None
  | String c t =>
      let n := N_of_ascii c in
      if (n =? 34)%N then Some ([], t)
      else if (n <? 32)%N then None
      else if (n =? 92)%N then
        match t with
        | String e t1 =>
            if (N_of_ascii e =? 117)%N then
              match t1 with
              | String a (String b (String c' (String d t2))) =>
                  match hex_of a, hex_of b, hex_of c', hex_of d with
                  | Some x3, Some x2, Some x1, Some x0 =>
                      match lex_string_items t2 with
                      | Some (items, rest) =>
                          Some (Esc (x3 * 4096 + x2 * 256 + x1 * 16 + x0) :: items, rest)
                      | None => None
                      end
                  | _, _, _, _ => None
                  end
              | _ => None
              end
            else
              match simple_escape e with
              | Some cu =>
                  match lex_string_items t1 with
                  | Some (items, rest) => Some (Esc cu :: items, rest)
                  | None => None
                  end
              | None => None
              end
        | EmptyString => None
        end
      else
        match lex_string_items t with
        | Some (items, rest) => Some (Raw c :: items, rest)
        | None => None
        end
  end.

Definition lex_string (s : string) : option (string * string) :=
  match lex_string_items s with
  | Some (items, rest) => Some (decode_items items, rest)
  | None => None
  end.

(** A run of decimal digits: its value, how many there were, the rest. *)
Fixpoint lex_digits (acc : N) (count : nat) (s : string) : N * nat * string :=
  match s with
  | String c t =>
      match digit_of c with
      | Some d => lex_digits (acc * 10 + d) (S count) t
      | None => (acc, count, s)
      end
  | EmptyString => (acc, count, s)
  end.

Definition lex_int (s : string) : option (N * string) :=
  match s with
  | String c t =>
      match digit_of c with
      | Some 0%N => Some (0%N, t)
      | Some d => let '(v, _, rest) := lex_digits d 1 t in Some (v, rest)
      | None => None
      end
  | EmptyString => None
  end.

Definition lex_frac (int : N) (s : string) : option (N * Z * string) :=
  match s with
  | String c t =>
      if (N_of_ascii c =? 46)%N then
        let '(v, k, rest) := lex_digits int 0 t in
        match k with
        | O => None
        | _ => Some (v, (- Z.of_nat k)%Z, rest)
        end
      else Some (int, 0%Z, s)
  | EmptyString => Some (int, 0%Z, s)
  end.

Definition lex_exp (s : string) : option (Z * string) :=
  match s with
  | String c t =>
      if (N_of_ascii c =? 101)%N || (N_of_ascii c =? 69)%N then
        let '(neg, t') :=
          match t with
          | String sg t1 =>
              if (N_of_ascii sg =? 45)%N then (true, t1)
              else if (N_of_ascii sg =? 43)%N then (false, t1)
              else (false, t)
          | EmptyString => (false, t)
          end in
        let '(v, k, rest) := lex_digits 0 0 t' in
        match k with
        | O => None
        | _ => Some (if neg : bool then (- Z.of_N v)%Z else Z.of_N v, rest)
        end
      else Some (0%Z, s)
  | EmptyString => Some (0%Z, s)
  end.

Definition lex_number (s : string) : option (JSNumber * string) :=
  let '(neg, s1) :=
    match s with
    | String c t => if (N_of_ascii c =? 45)%N then (true, t) else (false, s)
    | EmptyString => (false, s)
    end in
  match lex_int s1 with
  | None => None
  | Some (i, s2) =>
      match lex_frac i s2 with
      | None => None
      | Some (m, e1, s3) =>
          match lex_exp s3 with
          | None => None
          | Some (e2, s4) => Some (mkNumber neg m (e1 + e2), s4)
          end
      end
  end.

Definition lift {A} (o : option (A * string)) : Parsed A :=
  match o with
  | Some (a, rest) => Read a rest
  | None => Malformed
  end.

Section Containers.
Variable value : string -> Parsed JSValue.

(** Elements of an array, the input standing at an element. *)
Fixpoint parse_elements (fuel : nat) (acc : list JSValue) (s : string)
  : Parsed (list JSValue) :=
  match fuel with
  | O => OutOfFuel
  | S fuel' =>
      match value s with
      | OutOfFuel => OutOfFuel
      | Malformed => Malformed
      | Read v rest =>
          match skip_ws rest with
          | String c t =>
              if (N_of_ascii c =? 44)%N then parse_elements fuel' (v :: acc) t
              else if (N_of_ascii c =? 93)%N then Read (rev (v :: acc)) t
              else Malformed
          | EmptyString => Malformed
          end
      end
  end.

(** Members of an object, the input standing before a member's name. *)
Fixpoint parse_members (fuel : nat) (acc : list (string * JSValue)) (s : string)
  : Parsed (list (string * JSValue)) :=
  match fuel with
  | O => OutOfFuel
  | S fuel' =>
      match skip_ws s with
      | String q t =>
          if (N_of_ascii q =? 34)%N then
            match lex_string t with
            | None => Malformed
            | Some (key, rest) =>
                match skip_ws rest with
                | String c t1 =>
                    if (N_of_ascii c =? 58)%N then
                      match value t1 with
                      | OutOfFuel => OutOfFuel
                      | Malformed => Malformed
                      | Read v rest1 =>
                          match skip_ws rest1 with
                          | String c' t2 =>
                              if (N_of_ascii c' =? 44)%N
                              then parse_members fuel' ((key, v) :: acc) t2
                              else if (N_of_ascii c' =? 125)%N
                              then Read (rev ((key, v) :: acc)) t2
                              else Malformed
                          | EmptyString => Malformed
                          end
                      end
                    else Malformed
                | EmptyString => Malformed
                end
            end
          else Malformed
      | EmptyString => Malformed
      end
  end.
End Containers.

(** One JSON value, leading whitespace skipped. *)
Fixpoint parse_value (fuel : nat) (s : string) : Parsed JSValue :=
  match fuel with
  | O => OutOfFuel
  | S fuel' =>
      match skip_ws s with
      | EmptyString => Malformed
      | String c t =>
          let n := N_of_ascii c in
          if (n =? 123)%N then                      (* { *)
            match skip_ws t with
            | String c1 t1 =>
                if (N_of_ascii c1 =? 125)%N then Read (JObject []) t1
                else match parse_members (parse_value fuel') fuel' [] t with
                     | Read ps rest => Read (JObject ps) rest
                     | OutOfFuel => OutOfFuel
                     | Malformed => Malformed
                     end
            | EmptyString => Malformed
            end
          else if (n =? 91)%N then                  (* [ *)
            match skip_ws t with
            | String c1 t1 =>
                if (N_of_ascii c1 =? 93)%N then Read (JArray []) t1
                else match parse_elements (parse_value fuel') fuel' [] t with
                     | Read vs rest => Read (JArray vs) rest
                     | OutOfFuel => OutOfFuel
                     | Malformed => Malformed
                     end
            | EmptyString => Malformed
            end
          else if (n =? 34)%N then                  (* string *)
            match lex_string t with
            | Some (str, rest) => Read (JString str) rest
            | None => Malformed
            end
          else if (n =? 116)%N then                 (* true *)
            lift (option_map (pair (JBool true)) (stripPrefix "rue" t))
          else if (n =? 102)%N then                 (* false *)
            lift (option_map (pair (JBool false)) (stripPrefix "alse" t))
          else if (n =? 110)%N then                 (* null *)
            lift (option_map (pair JNull) (stripPrefix "ull" t))
          else
            match lex_number (String c t) with
            | Some (num, rest) => Read (JNumber num) rest
            | None => Malformed
            end
      end
  end.

(** [JSON.parse(text)]: [None] is the [SyntaxError] it throws. *)
Definition parse (text : string) : option JSValue :=
  match parse_value (S (String.length text)) text with
  | Read v rest => if isEmpty (skip_ws rest) then Some v else None
  | _ => None
  end.

(** ** The operations the host applies to a parsed value *)

(** A number is falsy when it is zero as a double: a decimal of magnitude
    at most 2^-1075 rounds to zero. *)
Definition number_is_zero (n : JSNumber) : bool :=
  (mantissa n =? 0)%N ||
  ((exponent n <? 0)%Z &&
   (Z.of_N (mantissa n) * 2 ^ 1075 <=? 10 ^ (- exponent n))%Z).

Definition ToBoolean (v : JSValue) : bool :=
  match v with
  | JNull => false
  | JBool b => b
  | JNumber n => negb (number_is_zero n)
  | JString s => negb (isEmpty s)
  | JArray _ => true
  | JObject _ => true
  end.

(** The last member of that name wins, as [JSON.parse] overwrites. *)
Fixpoint lookup_last (key : string) (ps : list (string * JSValue)) : option JSValue :=
  match ps with
  | [] => None
  | (k, v) :: t =>
      match lookup_last key t with
      | Some v' => Some v'
      | None => if String.eqb k key then Some v else None
      end
  end.

(** [const { caption } = value]: [None] is the [TypeError] thrown when
    the value is [null]; [Some None] is [undefined]. *)
Definition getProperty (key : string) (v : JSValue) : option (option JSValue) :=
  match v with
  | JNull => None
  | JObject ps => Some (lookup_last key ps)
  | _ => Some None
  end.

Section Conversion.
(** [Number.prototype.toString], a matter of floating point, is left
    to the runtime. *)
Variable numberToString : JSNumber -> string.

(** The string a template literal interpolates for a value. *)
Fixpoint ToString (v : JSValue) : string :=
  match v with
  | JNull => "null"
  | JBool true => "true"
  | JBool false => "false"
  | JNumber n => numberToString n
  | JString s => s
  | JArray items =>
      join ","
        (map (fun x => match x with JNull => EmptyString | _ => ToString x end) items)
  | JObject _ => "[object Object]"
  end.
End Conversion.

End JSON.

(* ===================================================================== *)
(** * The document a [DOMParser] returns

    [normalizeDOM] works on a document of its own: a tree of nodes that the
    method reads with selectors and changes in place.  A node is known by
    its path from the root element; the three changes the method makes
    (a class added, HTML or text inserted before the end of an element)
    leave the path of every existing node as it is, so a static [NodeList]
    is a list of paths. *)
(* ===================================================================== *)

Module DOM.
Import JSString.

Inductive Node :=
| Text (data : string)
| Comment (data : string)
| Element (tag : string) (attrs : list (string * string)) (children : list Node).

Record Document := mkDocument {
  quirksMode : bool;          (* no doctype: selectors compare classes caselessly *)
  documentElement : Node
}.

Definition Path := list nat.

Definition isElement (n : Node) : bool :=
  match n with Element _ _ _ => true | _ => false end.

Definition isTag (name : string) (n : Node) : bool :=
  match n with Element t _ _ => String.eqb t name | _ => false end.

Definition childNodes (n : Node) : list Node :=
  match n with Element _ _ ks => ks | _ => [] end.

Fixpoint getAttribute (name : string) (attrs : list (string * string)) : option string :=
  match attrs with
  | [] => None
  | (k, v) :: t => if String.eqb k name then Some v else getAttribute name t
  end.

Fixpoint setAttribute (name value : string) (attrs : list (string * string))
  : list (string * string) :=
  match attrs with
  | [] => [(name, value)]
  | (k, v) :: t =>
      if String.eqb k name then (k, value) :: t
      else (k, v) :: setAttribute name value t
  end.

Definition attributesOf (n : Node) : list (string * string) :=
  match n with Element _ a _ => a | _ => [] end.

(** [node.textContent] of an element: the text of its descendants. *)
Fixpoint textContent (n : Node) : string :=
  match n with
  | Text d => d
  | Comment _ => EmptyString
  | Element _ _ ks => concat (map textContent ks)
  end.

(** ** Token lists *)

Fixpoint dedup (seen : list string) (l : list string) : list string :=
  match l with
  | [] => []
  | x :: t =>
      if existsb (String.eqb x) seen then dedup seen t
      else x :: dedup (x :: seen) t
  end.

(** The ordered set of tokens of a [class] attribute. *)
Definition classTokens (attrs : list (string * string)) : list string :=
  match getAttribute "class" attrs with
  | Some v => dedup [] (splitWhitespace v)
  | None => []
  end.

(** [el.classList.add(token)] on the attributes: the token joins the set
    when it is not in it, and the attribute is written back from the set. *)
Definition addClassToken (token : string) (attrs : list (string * string))
  : list (string * string) :=
  let tokens := classTokens attrs in
  let tokens' :=
    if existsb (String.eqb token) tokens then tokens else tokens ++ [token] in
  setAttribute "class" (join " " tokens') attrs.

Definition classListAdd (token : string) (n : Node) : Node :=
  match n with
  | Element t a ks => Element t (addClassToken token a) ks
  | _ => n
  end.

Definition hasClassToken (quirks : bool) (name : string)
    (attrs : list (string * string)) : bool :=
  existsb (fun tok =>
             if quirks then String.eqb (toLowerCase tok) (toLowerCase name)
             else String.eqb tok name)
          (classTokens attrs).

(** A class selector against an element. *)
Definition hasClass (quirks : bool) (name : string) (n : Node) : bool :=
  match n with
  | Element _ a _ => hasClassToken quirks name a
  | _ => false
  end.

(** ** Paths *)

Fixpoint nodeAt (p : Path) (n : Node) : option Node :=
  match p with
  | [] => Some n
  | i :: p' =>
      match childNodes n !! i with
      | Some k => nodeAt p' k
      | None => None
      end
  end.

Fixpoint updateAt (p : Path) (f : Node -> Node) (n : Node) : Node :=
  match p with
  | [] => f n
  | i :: p' =>
      match n with
      | Element t a ks => Element t a (alter (updateAt p' f) i ks)
      | _ => n
      end
  end.

(** [el.insertAdjacentText("beforeend", data)] and the tree side of
    [el.insertAdjacentHTML("beforeend", html)]. *)
Definition appendNodes (extra : list Node) (n : Node) : Node :=
  match n with
  | Element t a ks => Element t a (ks ++ extra)
  | _ => n
  end.

(** ** Selectors

    A selector sees an element with its ancestors (nearest first) and the
    siblings before it. *)
Definition Selector := list Node -> list Node -> Node -> bool.

(** [querySelectorAll] below a node, the node included: the paths of the
    matching elements in tree order.  [here] is the node's own path. *)
Fixpoint querySelectorAllFrom (sel : Selector) (ancestors before : list Node)
    (here : Path) (n : Node) : list Path :=
  (if isElement n && sel ancestors before n then [here] else []) ++
  match n with
  | Element _ _ ks =>
      (fix siblings (seen : list Node) (i : nat) (l : list Node) : list Path :=
         match l with
         | [] => []
         | k :: l' =>
             querySelectorAllFrom sel (n :: ancestors) seen (here ++ [i]) k
             ++ siblings (seen ++ [k]) (S i) l'
         end) [] 0 ks
  | _ => []
  end.

(** The walk of [querySelectorAllFrom] over the children [l] of an element
    of path [here], from the child of index [i] on. *)
Fixpoint querySiblings (sel : Selector) (ancestors : list Node) (here : Path)
    (seen : list Node) (i : nat) (l : list Node) : list Path :=
  match l with
  | [] => []
  | k :: l' =>
      querySelectorAllFrom sel ancestors seen (here ++ [i]) k
      ++ querySiblings sel ancestors here (seen ++ [k]) (S i) l'
  end.

(** [doc.querySelectorAll(selector)] *)
Definition querySelectorAll (sel : Selector) (root : Node) : list Path :=
  querySelectorAllFrom sel [] [] [] root.

(** [doc.querySelector(selector)] *)
Definition querySelector (sel : Selector) (root : Node) : option Path :=
  head (querySelectorAll sel root).

(** [el.querySelector(selector)] on an element: its descendants only. *)
Definition querySelectorWithin (sel : Selector) (el : Node) : option Path :=
  head (querySelectorAll
          (fun anc before n =>
             match anc with
             | [] => false
             | _ => sel anc before n
             end) el).

(** ** How the document changes *)

(** A change made by the method to one element: its tag stays, its
    children stay and may get more after them, its attributes other than
    class stay. *)
Definition Grows (f : Node -> Node) : Prop :=
  forall n,
    match n with
    | Element t a ks =>
        exists a' extra,
          f n = Element t a' (ks ++ extra) /\
          forall name, name <> "class" -> getAttribute name a' = getAttribute name a
    | _ => f n = n
    end.

(** How a node can differ from what it was. *)
Definition grew (n n' : Node) : Prop :=
  match n, n' with
  | Text a, Text b => a = b
  | Comment a, Comment b => a = b
  | Element t a ks, Element t' a' ks' =>
      t = t' /\ length ks <= length ks' /\
      forall name, name <> "class" -> getAttribute name a' = getAttribute name a
  | _, _ => False
  end.

(** Every node of [d] is in [d'], at the same path, grown at most. *)
Definition extends (d d' : Node) : Prop :=
  forall p n, nodeAt p d = Some n -> exists n', nodeAt p d' = Some n' /\ grew n n'.

End DOM.

(* ===================================================================== *)
(** * The browser and the JavaScript runtime around the host *)
(* ===================================================================== *)

(** What the host takes from its platform and does not define itself. *)
Class Browser := {
  (** [new DOMParser().parseFromString(html, "text/html")] *)
  parseFromString : string -> DOM.Document;
  (** the nodes [context.insertAdjacentHTML] parses out of a piece of HTML *)
  parseFragment : DOM.Node -> string -> list DOM.Node;
  (** [element.innerHTML], read *)
  innerHTML : DOM.Node -> string;
  (** [Number.prototype.toString] *)
  numberToString : JSON.JSNumber -> string;
  (** [JSON.stringify] *)
  stringify : JSON.JSValue -> string
}.

(** The exceptions the host can let through. *)
Inductive Exception :=
| SyntaxError      (* JSON.parse on text that is not JSON *)
| TypeError.       (* destructuring null *)

Inductive Result (A : Type) :=
| Ok (a : A)
| Throw (e : Exception).
Arguments Ok {A} a.
Arguments Throw {A} e.

Definition rbind {A B} (r : Result A) (k : A -> Result B) : Result B :=
  match r with
  | Ok a => k a
  | Throw e => Throw e
  end.

(** [forEach] with a callback that may throw: the first exception ends it. *)
Fixpoint foldResult {A S} (step : S -> A -> Result S) (l : list A) (s : S) : Result S :=
  match l with
  | [] => Ok s
  | x :: t => rbind (step s x) (foldResult step t)
  end.

(* ===================================================================== *)
(** * [normalizeDOM] (lines 430-472) *)
(* ===================================================================== *)

Module Normalize.
Import JSString DOM.

(** ** The selectors of the method *)

(** [figure[data-trix-attachment]] *)
Definition attachmentFigure : Selector := fun _ _ n =>
  isTag "figure" n &&
  match getAttribute "data-trix-attachment" (attributesOf n) with
  | Some _ => true
  | None => false
  end.

(** [figcaption] *)
Definition figcaptionElement : Selector := fun _ _ n => isTag "figcaption" n.

(** [div > figure:first-child] *)
Definition galleryFigure : Selector := fun ancestors before n =>
  isTag "figure" n &&
  match ancestors with
  | parent :: _ => isTag "div" parent
  | [] => false
  end &&
  forallb (fun s => negb (isElement s)) before.

(** [figure .attachment__name] *)
Definition attachmentName (quirks : bool) : Selector := fun ancestors _ n =>
  hasClass quirks "attachment__name" n && existsb (isTag "figure") ancestors.

(** [body] *)
Definition bodyElement : Selector := fun _ _ n => isTag "body" n.

(** [figure.querySelector("figcaption") == null] *)
Definition lacksFigcaption (root : Node) (p : Path) : bool :=
  match nodeAt p root with
  | Some figure =>
      match querySelectorWithin figcaptionElement figure with
      | None => true
      | Some _ => false
      end
  | None => false
  end.

(** [filtersWithoutChildren], lines 437-440 *)
Definition filtersWithoutChildren (root : Node) : list Path :=
  List.filter (lacksFigcaption root) (querySelectorAll attachmentFigure root).

(** ** Lines 442-444: the gallery class *)

(** [el.parentElement]: the root element has none. *)
Definition parentElement (p : Path) : option Path :=
  match p with
  | [] => None
  | _ => Some (removelast p)
  end.

Definition galleryStep (root : Node) (p : Path) : Node :=
  match parentElement p with
  | Some q => updateAt q (classListAdd "attachment-gallery") root
  | None => root
  end.

Definition galleryPass (root : Node) : Node :=
  fold_left galleryStep (querySelectorAll galleryFigure root) root.

(** ** Lines 446-459: the captions *)

(** The HTML of line 455. *)
Definition captionHTML (caption : string) : string :=
  "<figcaption class=" +:+ dquote +:+ "attachment__caption" +:+ dquote +:+ ">"
  +:+ caption +:+ "</figcaption>".

(** The payload of the node at a path. *)
Definition payloadAt (p : Path) (root : Node) : option string :=
  match nodeAt p root with
  | Some n => getAttribute "data-trix-attributes" (attributesOf n)
  | None => None
  end.

(** The caption element line 455 asks for. *)
Definition captionElement (text : string) : Node :=
  Element "figcaption" [("class", "attachment__caption")] [Text text].

(** An element that has its first [n0] children and, after them, only
    nodes that are not elements. *)
Definition keptChildren (n0 : nat) (m : Node) : Prop :=
  exists t a ks extra,
    m = Element t a (ks ++ extra) /\ length ks = n0 /\
    Forall (fun n => isElement n = false) extra.

(** The figure at [p] has got no element after its first [n0] children. *)
Definition nothingAdded (p : Path) (n0 : nat) (root : Node) : Prop :=
  exists m, nodeAt p root = Some m /\ keptChildren n0 m.

Section WithBrowser.
Context `{B : Browser}.

(** What a payload asks for: the text of a caption to insert, nothing, or
    the exception its reading throws (lines 447-452). *)
Definition captionOf (payload : option string) : Result (option string) :=
  match payload with
  | None => Ok None
  | Some attrs =>
      if isEmpty attrs then Ok None
      else
        match JSON.parse attrs with
        | None => Throw SyntaxError
        | Some value =>
            match JSON.getProperty "caption" value with
            | None => Throw TypeError
            | Some None => Ok None
            | Some (Some caption) =>
                if JSON.ToBoolean caption
                then Ok (Some (JSON.ToString numberToString caption))
                else Ok None
            end
        end
  end.

Definition payloadAccepted (payload : option string) : bool :=
  match captionOf payload with
  | Ok _ => true
  | Throw _ => false
  end.

Definition insertAdjacentHTML_beforeend (html : string) (n : Node) : Node :=
  appendNodes (parseFragment n html) n.

(** The callback of line 446 on the figure at [p]. *)
Definition captionStep (root : Node) (p : Path) : Result Node :=
  match nodeAt p root with
  | None => Ok root
  | Some figure =>
      match getAttribute "data-trix-attributes" (attributesOf figure) with
      | None => Ok root                                  (* !attrs: null *)
      | Some attrs =>
          if isEmpty attrs then Ok root                  (* !attrs: empty *)
          else
            match JSON.parse attrs with
            | None => Throw SyntaxError
            | Some value =>
                match JSON.getProperty "caption" value with
                | None => Throw TypeError
                | Some None => Ok root
                | Some (Some caption) =>
                    if JSON.ToBoolean caption then
                      Ok (updateAt p
                            (insertAdjacentHTML_beforeend
                               (captionHTML (JSON.ToString numberToString caption)))
                            root)
                    else Ok root
                end
            end
      end
  end.

Definition captionPass (filters : list Path) (root : Node) : Result Node :=
  foldResult captionStep filters root.

(** ** Lines 461-465: the attachment names *)

Definition nameStep (root : Node) (p : Path) : Node :=
  match nodeAt p root with
  | None => root
  | Some el =>
      (* if (el.textContent?.includes(glyph) === false) return; *)
      if negb (includes (textContent el) separatorGlyph) then root
      else updateAt p (appendNodes [Text separatorGlyph]) root
  end.

Definition namePass (quirks : bool) (root : Node) : Node :=
  fold_left nameStep (querySelectorAll (attachmentName quirks) root) root.

(** ** The method on the parsed document: lines 437-465 *)
Definition normalizeDocument (doc : Document) : Result Node :=
  let root := documentElement doc in
  let filters := filtersWithoutChildren root in
  let root1 := galleryPass root in
  rbind (captionPass filters root1) (fun root2 =>
  Ok (namePass (quirksMode doc) root2)).

(** Lines 467-471: what is written back, if anything. *)
Definition bodyHTML (root : Node) : option string :=
  match querySelector bodyElement root with
  | Some p => option_map innerHTML (nodeAt p root)
  | None => None
  end.

(** [normalizeDOM] on the value of the input it is given: the value it
    leaves in the input ([None]: no body, nothing written), or the
    exception it throws. *)
Definition normalizeValue (parser : string -> Document) (value : string)
  : Result (option string) :=
  rbind (normalizeDocument (parser value)) (fun root => Ok (bodyHTML root)).

End WithBrowser.

End Normalize.

(* ===================================================================== *)
(** * The host element [TipTapEditorBase] *)
(* ===================================================================== *)

Module Host.
Import JSString.

(** ** Data *)

Record File := mkFile {
  fileName : string;
  fileType : string;
  fileSize : N
}.

(** Modelled from the spec: [AttachmentManager] (attachment-manager.ts is
    not in the sources): a value object wrapping a file reference and a
    generated object URL, bound to the view of the editor it was made
    for. *)
Record AttachmentManager := mkAttachment {
  src : string;
  file : File;
  view : nat
}.

Definition StarterKitOptions := list (string * JSON.JSValue).

Inductive Extension :=
| StarterKit_configure (options : StarterKitOptions)
| RhinoStarterKit_configure (options : StarterKitOptions)
| Custom (name : string).

Inductive Content :=
| HTMLContent (html : string)
| JSONContent (doc : JSON.JSValue).

Record EditorOptions := mkOptions {
  o_injectCSS : bool;
  o_extensions : list Extension;
  o_autofocus : bool;
  o_element : nat;            (* the node the editor is installed onto *)
  o_content : Content;
  o_editable : bool
}.

(** The notifications the host dispatches on itself. *)
Inductive Notification :=
| FileAcceptEvent (f : File)
| AddAttachmentEvent (attachment : AttachmentManager).

(** What the host does to the world outside its fields, in order. *)
Inductive Effect :=
| Dispatched (n : Notification) (defaultPrevented : bool)
| SetAttachment (editorId : nat) (attachments : list AttachmentManager)
| InsertContent (editorId : nat) (items : list string)
| RequestedUpdate.

(** The wrapped editor engine and the listeners of the page. *)
Class Engine := {
  EngineState : Type;
  (** the document an editor starts with *)
  createState : EditorOptions -> EngineState;
  (** [editor.getHTML()] *)
  getHTML : EngineState -> string;
  (** [editor.getJSON()] *)
  getJSON : EngineState -> JSON.JSValue;
  (** [editor.chain().focus().setAttachment(attachments).run()] *)
  runSetAttachment : list AttachmentManager -> EngineState -> EngineState;
  (** [editor.commands.insertContent(items)] *)
  runInsertContent : list string -> EngineState -> EngineState;
  (** whether some listener of the page cancels a file-accept
      notification, given all that happened before it *)
  cancelsFileAccept : list Effect -> File -> bool
}.

(** An element of the light DOM of the host, known by its identity. *)
Inductive LiveNode :=
| LiveElement (id : nat) (tag : string) (attrs : list (string * string))
              (children : list LiveNode).

Definition liveId (n : LiveNode) : nat :=
  match n with LiveElement i _ _ _ => i end.
Definition liveAttrs (n : LiveNode) : list (string * string) :=
  match n with LiveElement _ _ a _ => a end.
Definition liveChildren (n : LiveNode) : list LiveNode :=
  match n with LiveElement _ _ _ ks => ks end.

(** The identities in a tree, in tree order. *)
Fixpoint idsOf (n : LiveNode) : list nat :=
  match n with
  | LiveElement i _ _ ks => i :: flat_map idsOf ks
  end.

Definition idsOfForest (l : list LiveNode) : list nat := flat_map idsOf l.

(** The first element in tree order that satisfies [pred]. *)
Fixpoint findFirst (pred : LiveNode -> bool) (n : LiveNode) : option LiveNode :=
  if pred n then Some n
  else
    match n with
    | LiveElement _ _ _ ks =>
        (fix among (l : list LiveNode) : option LiveNode :=
           match l with
           | [] => None
           | k :: l' =>
               match findFirst pred k with
               | Some r => Some r
               | None => among l'
               end
           end) ks
    end.

Fixpoint findFirstAmong (pred : LiveNode -> bool) (l : list LiveNode)
  : option LiveNode :=
  match l with
  | [] => None
  | k :: l' =>
      match findFirst pred k with
      | Some r => Some r
      | None => findFirstAmong pred l'
      end
  end.

(** [found.replaceWith(new)] for the first element that satisfies [pred];
    [None] when there is none. *)
Fixpoint replaceFirst (pred : LiveNode -> bool) (new : LiveNode) (n : LiveNode)
  : option LiveNode :=
  if pred n then Some new
  else
    match n with
    | LiveElement i t a ks =>
        option_map (LiveElement i t a)
          ((fix among (l : list LiveNode) : option (list LiveNode) :=
              match l with
              | [] => None
              | k :: l' =>
                  match replaceFirst pred new k with
                  | Some k' => Some (k' :: l')
                  | None => option_map (cons k) (among l')
                  end
              end) ks)
    end.

Fixpoint replaceFirstAmong (pred : LiveNode -> bool) (new : LiveNode)
    (l : list LiveNode) : option (list LiveNode) :=
  match l with
  | [] => None
  | k :: l' =>
      match replaceFirst pred new k with
      | Some k' => Some (k' :: l')
      | None => option_map (cons k) (replaceFirstAmong pred new l')
      end
  end.

(** A change made to the element of a given identity. *)
Fixpoint updateById (target : nat) (f : LiveNode -> LiveNode) (n : LiveNode)
  : LiveNode :=
  if Nat.eqb (liveId n) target then f n
  else
    match n with
    | LiveElement i t a ks => LiveElement i t a (map (updateById target f) ks)
    end.

Definition appendLiveChild (k : LiveNode) (n : LiveNode) : LiveNode :=
  match n with LiveElement i t a ks => LiveElement i t a (ks ++ [k]) end.

Definition mapLiveAttrs (g : list (string * string) -> list (string * string))
    (n : LiveNode) : LiveNode :=
  match n with LiveElement i t a ks => LiveElement i t (g a) ks end.

(** [[slot='editor']] *)
Definition isEditorSlot (n : LiveNode) : bool :=
  match DOM.getAttribute "slot" (liveAttrs n) with
  | Some v => String.eqb v "editor"
  | None => false
  end.

(** [.ProseMirror] *)
Definition isProseMirror (n : LiveNode) : bool :=
  DOM.hasClassToken false "ProseMirror" (liveAttrs n).

(** The identities [after] are those of [before] with the ones of [new]
    in place of the ones of [r]. *)
Definition spliced (before after : list nat) (r new : LiveNode) : Prop :=
  exists pre post,
    before = pre ++ idsOf r ++ post /\ after = pre ++ idsOf new ++ post.

Section WithEngine.
Context `{B : Browser} `{E : Engine}.

Record Editor := mkEditor {
  editorId : nat;
  options : EditorOptions;
  state : EngineState;
  listeners : list string      (* the events bound with [editor.on] *)
}.

(** The host: its fields, then the page it lives in. *)
Record Host := mkHost {
  readonly : bool;
  input : option string;
  editor : option Editor;
  editorElement : option nat;
  serializer : string;
  accept : string;
  starterKitOptions__ : StarterKitOptions;
  extensions__ : list Extension;
  (** the children of the host element *)
  lightDOM : list LiveNode;
  (** the value of the element of each id of the page *)
  page : gmap string string;
  (** the editors the host held before the one it holds *)
  retired : list Editor;
  (** the next fresh identities: nodes, editors, object URLs *)
  nextNode : nat;
  nextEditor : nat;
  nextURL : N;
  (** what the host has done so far, oldest first *)
  effects : list Effect
}.

(** ** Computations: state, and exceptions that keep the state *)

Inductive Outcome (A : Type) :=
| Returned (a : A) (h : Host)
| Thrown (e : Exception) (h : Host).
Arguments Returned {A} a h.
Arguments Thrown {A} e h.

Definition M (A : Type) := Host -> Outcome A.

Definition ret {A} (a : A) : M A := fun h => Returned a h.

Definition bind {A C} (c : M A) (k : A -> M C) : M C := fun h =>
  match c h with
  | Returned a h' => k a h'
  | Thrown e h' => Thrown e h'
  end.

Definition throw {A} (e : Exception) : M A := fun h => Thrown e h.
Definition get : M Host := fun h => Returned h h.
Definition modify (f : Host -> Host) : M unit := fun h => Returned tt (f h).

Definition ofResult {A} (r : Result A) : M A :=
  match r with
  | Ok a => ret a
  | Throw e => throw e
  end.

Definition finalState {A} (o : Outcome A) : Host :=
  match o with
  | Returned _ h => h
  | Thrown _ h => h
  end.

Local Notation "'let*' x := c 'in' k" := (bind c (fun x => k))
  (at level 10, x name, c at level 100, k at level 200).
Local Notation "c ;;; k" := (bind c (fun _ => k))
  (at level 100, k at level 200, right associativity).

Fixpoint forEach {A} (f : A -> M unit) (l : list A) : M unit :=
  match l with
  | [] => ret tt
  | x :: t => f x ;;; forEach f t
  end.

Fixpoint mapM {A C} (f : A -> M C) (l : list A) : M (list C) :=
  match l with
  | [] => ret []
  | x :: t => let* y := f x in let* ys := mapM f t in ret (y :: ys)
  end.

(** ** Field updates *)

Definition set_editor (e : option Editor) (h : Host) : Host :=
  mkHost (readonly h) (input h) e (editorElement h) (serializer h) (accept h)
    (starterKitOptions__ h) (extensions__ h) (lightDOM h) (page h)
    (match editor h with Some old => old :: retired h | None => retired h end)
    (nextNode h) (nextEditor h) (nextURL h) (effects h).

Definition update_editor (f : Editor -> Editor) (h : Host) : Host :=
  mkHost (readonly h) (input h) (option_map f (editor h)) (editorElement h)
    (serializer h) (accept h) (starterKitOptions__ h) (extensions__ h)
    (lightDOM h) (page h) (retired h) (nextNode h) (nextEditor h) (nextURL h)
    (effects h).

Definition set_editorElement (el : option nat) (h : Host) : Host :=
  mkHost (readonly h) (input h) (editor h) el (serializer h) (accept h)
    (starterKitOptions__ h) (extensions__ h) (lightDOM h) (page h) (retired h)
    (nextNode h) (nextEditor h) (nextURL h) (effects h).

Definition set_starterKitOptions__ (o : StarterKitOptions) (h : Host) : Host :=
  mkHost (readonly h) (input h) (editor h) (editorElement h) (serializer h)
    (accept h) o (extensions__ h) (lightDOM h) (page h) (retired h)
    (nextNode h) (nextEditor h) (nextURL h) (effects h).

Definition set_extensions__ (x : list Extension) (h : Host) : Host :=
  mkHost (readonly h) (input h) (editor h) (editorElement h) (serializer h)
    (accept h) (starterKitOptions__ h) x (lightDOM h) (page h) (retired h)
    (nextNode h) (nextEditor h) (nextURL h) (effects h).

Definition set_lightDOM (l : list LiveNode) (h : Host) : Host :=
  mkHost (readonly h) (input h) (editor h) (editorElement h) (serializer h)
    (accept h) (starterKitOptions__ h) (extensions__ h) l (page h) (retired h)
    (nextNode h) (nextEditor h) (nextURL h) (effects h).

Definition set_page (m : gmap string string) (h : Host) : Host :=
  mkHost (readonly h) (input h) (editor h) (editorElement h) (serializer h)
    (accept h) (starterKitOptions__ h) (extensions__ h) (lightDOM h) m
    (retired h) (nextNode h) (nextEditor h) (nextURL h) (effects h).

Definition set_nextNode (n : nat) (h : Host) : Host :=
  mkHost (readonly h) (input h) (editor h) (editorElement h) (serializer h)
    (accept h) (starterKitOptions__ h) (extensions__ h) (lightDOM h) (page h)
    (retired h) n (nextEditor h) (nextURL h) (effects h).

Definition set_nextEditor (n : nat) (h : Host) : Host :=
  mkHost (readonly h) (input h) (editor h) (editorElement h) (serializer h)
    (accept h) (starterKitOptions__ h) (extensions__ h) (lightDOM h) (page h)
    (retired h) (nextNode h) n (nextURL h) (effects h).

Definition set_nextURL (n : N) (h : Host) : Host :=
  mkHost (readonly h) (input h) (editor h) (editorElement h) (serializer h)
    (accept h) (starterKitOptions__ h) (extensions__ h) (lightDOM h) (page h)
    (retired h) (nextNode h) (nextEditor h) n (effects h).

Definition log (e : Effect) (h : Host) : Host :=
  mkHost (readonly h) (input h) (editor h) (editorElement h) (serializer h)
    (accept h) (starterKitOptions__ h) (extensions__ h) (lightDOM h) (page h)
    (retired h) (nextNode h) (nextEditor h) (nextURL h) (effects h ++ [e]).

(** ** Getters *)

(** [get slottedEditor], line 176 *)
Definition slottedEditor (h : Host) : option LiveNode :=
  findFirstAmong isEditorSlot (lightDOM h).

(** [get inputElement], lines 296-300: the element of the page whose id
    is [input], given by that id. *)
Definition inputElement (h : Host) : option string :=
  match input h with
  | None => None
  | Some id =>
      match page h !! id with
      | Some _ => Some id
      | None => None
      end
  end.

Definition setValue (id value : string) : M unit :=
  modify (fun h => set_page (<[id := value]> (page h)) h).

Definition requestUpdate : M unit := modify (log RequestedUpdate).

(** ** [serialize], lines 284-291 *)
Definition serialize : M string :=
  let* h := get in
  match editor h with
  | None => ret EmptyString
  | Some e =>
      if String.eqb (toLowerCase (serializer h)) "json"
      then ret (stringify (getJSON (state e)))
      else ret (getHTML (state e))
  end.

(** ** [updateInputElementValue], lines 275-279 *)
Definition updateInputElementValue : M unit :=
  let* h := get in
  match inputElement h, editor h, readonly h with
  | Some id, Some _, false =>
      let* value := serialize in
      setValue id value
  | _, _, _ => ret tt
  end.

(** ** [normalizeDOM], lines 430-472, on the host's page *)
Definition normalizeDOM (inputElement : option string)
    (parser : string -> DOM.Document) : M unit :=
  match inputElement with
  | None => ret tt
  | Some id =>
      let* h := get in
      match page h !! id with
      | None => ret tt
      | Some value =>
          let* written := ofResult (Normalize.normalizeValue parser value) in
          match written with
          | Some html => setValue id html
          | None => ret tt
          end
      end
  end.

(** ** Editor options, lines 268-270, 418-423, 479-504 *)

Definition __starterKitExtensions__ (h : Host) : list Extension :=
  [ StarterKit_configure (starterKitOptions__ h);
    RhinoStarterKit_configure (starterKitOptions__ h) ].

Definition __defaultOptions (element : nat) : M EditorOptions :=
  let* h := get in
  let stored :=
    match inputElement h with
    | Some id => default EmptyString (page h !! id)
    | None => EmptyString
    end in
  let* content :=
    if negb (isEmpty stored) && String.eqb (toLowerCase (serializer h)) "json"
    then match JSON.parse stored with
         | Some doc => ret (JSONContent doc)
         | None => throw SyntaxError
         end
    else ret (HTMLContent stored) in
  ret (mkOptions false (__starterKitExtensions__ h ++ extensions__ h) false
         element content (negb (readonly h))).

(** The base class overrides nothing. *)
Definition editorOptions (_element : nat) : EditorOptions -> EditorOptions :=
  fun defaults => defaults.

Definition allOptions (element : nat) : M EditorOptions :=
  let* defaults := __defaultOptions element in
  ret (editorOptions element defaults).

(** [new Editor(options)]: the engine mounts its view, an element of
    class ProseMirror, into [options.element]. *)
Definition newEditor (o : EditorOptions) : M Editor :=
  let* h := get in
  let viewNode := LiveElement (nextNode h) "div" [("class", "ProseMirror")] [] in
  modify (set_nextNode (S (nextNode h))) ;;;
  modify (set_nextEditor (S (nextEditor h))) ;;;
  modify (set_lightDOM
            (map (updateById (o_element o) (appendLiveChild viewNode)) (lightDOM h))) ;;;
  ret (mkEditor (nextEditor h) o (createState o) []).

(** ** [__setupEditor], lines 560-569 *)
Definition __setupEditor (element : nat) : M Editor :=
  let* h := get in
  (if isEmpty (serializer h) || String.eqb (serializer h) "html"
   then normalizeDOM (inputElement h) parseFromString
   else ret tt) ;;;
  let* o := allOptions element in
  newEditor o.

(** ** [__bindEditorListeners], lines 538-547 *)
Definition boundEvents : list string :=
  ["focus"; "create"; "update"; "selectionUpdate"; "transaction"; "blur"].

Definition __bindEditorListeners : M unit :=
  modify (update_editor (fun e =>
    mkEditor (editorId e) (options e) (state e) (listeners e ++ boundEvents))).

(** ** [rebuildEditor], lines 128-153 *)

Definition decorateView (attrs : list (string * string)) : list (string * string) :=
  DOM.setAttribute "role" "textbox"
    (DOM.setAttribute "tabindex" "0" (DOM.addClassToken "trix-content" attrs)).

Definition rebuildEditor : M unit :=
  let* h := get in
  let cachedEditor := slottedEditor h in
  let div := LiveElement (nextNode h) "div" [("slot", "editor")] [] in
  modify (set_nextNode (S (nextNode h))) ;;;
  modify (set_lightDOM
            (match cachedEditor with
             | Some _ =>
                 default (lightDOM h) (replaceFirstAmong isEditorSlot div (lightDOM h))
             | None => lightDOM h ++ [div]
             end)) ;;;
  let* e := __setupEditor (liveId div) in
  modify (set_editor (Some e)) ;;;
  __bindEditorListeners ;;;
  let* h' := get in
  let found :=
    match findFirstAmong (fun n => Nat.eqb (liveId n) (liveId div)) (lightDOM h') with
    | Some d => findFirstAmong isProseMirror (liveChildren d)
    | None => None
    end in
  modify (set_editorElement (option_map liveId found)) ;;;
  match found with
  | Some el =>
      modify (set_lightDOM
                (map (updateById (liveId el) (mapLiveAttrs decorateView)) (lightDOM h')))
  | None => ret tt
  end ;;;
  requestUpdate.

(** ** The setters, lines 118-122 and 244-248 *)

Definition set_starterKitOptions (o : StarterKitOptions) : M unit :=
  modify (set_starterKitOptions__ o) ;;; rebuildEditor.

Definition set_extensions (x : list Extension) : M unit :=
  modify (set_extensions__ x) ;;; rebuildEditor.

(** ** Attachment intake *)

Definition dispatchFileAccept (f : File) : M (File * bool) :=
  let* h := get in
  let prevented := cancelsFileAccept (effects h) f in
  modify (log (Dispatched (FileAcceptEvent f) prevented)) ;;;
  ret (f, prevented).

Definition dispatchAddAttachment (a : AttachmentManager) : M unit :=
  modify (log (Dispatched (AddAttachmentEvent a) false)).

(** [URL.createObjectURL(file)] *)
Definition createObjectURL (f : File) : M string :=
  let* h := get in
  let url := "blob:" +:+ pretty (nextURL h) in
  modify (set_nextURL (N.succ (nextURL h))) ;;;
  ret url.

(** The body of the loop of lines 378-393, for the editor of view
    [view]. *)
Definition toAttachment (view : nat) (f : File) : M AttachmentManager :=
  let* url := createObjectURL f in
  ret (mkAttachment url f view).

(** [transformFilesToAttachments], lines 373-396 *)
Definition transformFilesToAttachments (files : option (list File))
  : M (option (list AttachmentManager)) :=
  let* h := get in
  match editor h with
  | None => ret None
  | Some e =>
      match files with
      | None => ret None
      | Some [] => ret None
      | Some fs =>
          let* attachments := mapM (toAttachment (editorId e)) fs in
          ret (Some attachments)
      end
  end.

(** [this.editor?.chain().focus().setAttachment(attachments).run()] *)
Definition insertAttachments (attachments : list AttachmentManager) : M unit :=
  let* h := get in
  match editor h with
  | None => ret tt
  | Some e =>
      modify (update_editor (fun e =>
        mkEditor (editorId e) (options e)
          (runSetAttachment attachments (state e)) (listeners e))) ;;;
      modify (log (SetAttachment (editorId e) attachments))
  end.

(** The promise an async method hands back, once its synchronous work
    is done. *)
Inductive Promise :=
| Fulfilled
| Pending.        (* never settled: [resolve] was not called *)

(** [handleFiles], lines 302-338 *)
Definition handleFiles (files : option (list File)) : M Promise :=
  let* h := get in
  match editor h with
  | None => ret Fulfilled
  | Some _ =>
      (* the executor of [new Promise] *)
      match files with
      | None => ret Pending
      | Some fs =>
          let* fileAcceptEvents := mapM dispatchFileAccept fs in
          let allowedFiles :=
            map fst (List.filter (fun ev => negb (snd ev)) fileAcceptEvents) in
          let* attachments := transformFilesToAttachments (Some allowedFiles) in
          match attachments with
          | None => ret Pending
          | Some atts =>
              if Nat.leb (length atts) 0 then ret Pending
              else
                insertAttachments atts ;;;
                forEach dispatchAddAttachment atts ;;;
                ret Fulfilled
          end
      end
  end.

(** The events the intake listeners are called with. *)
Inductive DOMEvent :=
| DragEvent (dataTransfer : option (list File))
| ClipboardEvent (clipboardData : option (list string * list File))
| OtherEvent.

(** What a listener leaves behind: whether it called [preventDefault],
    and the promise it returns. *)
Record Handled := mkHandled {
  defaultPrevented : bool;
  promise : Promise
}.

(** [handleDropFile], lines 340-354 *)
Definition handleDropFile (event : option DOMEvent) : M Handled :=
  let* h := get in
  match editor h with
  | None => ret (mkHandled false Fulfilled)
  | Some _ =>
      match event with
      | Some (DragEvent dataTransfer) =>
          match dataTransfer with
          | None => ret (mkHandled false Fulfilled)
          | Some files =>
              if negb (Nat.ltb 0 (length files))
              then ret (mkHandled false Fulfilled)
              else
                let* p := handleFiles (Some files) in
                ret (mkHandled true p)
          end
      | _ => ret (mkHandled false Fulfilled)
      end
  end.

(** [handlePaste], lines 356-371 *)
Definition handlePaste (event : option DOMEvent) : M Handled :=
  let* h := get in
  match editor h with
  | None => ret (mkHandled false Fulfilled)
  | Some e =>
      match event with
      | Some (ClipboardEvent clipboardData) =>
          match clipboardData with
          | None => ret (mkHandled false Fulfilled)
          | Some (items, files) =>
              if negb (Nat.ltb 0 (length files))
              then ret (mkHandled false Fulfilled)
              else
                modify (update_editor (fun e =>
                  mkEditor (editorId e) (options e)
                    (runInsertContent items (state e)) (listeners e))) ;;;
                modify (log (InsertContent (editorId e) items)) ;;;
                let* p := handleFiles (Some files) in
                ret (mkHandled true p)
          end
      | _ => ret (mkHandled false Fulfilled)
      end
  end.

(** ** The intake, said as a trace

    What a run of [handleFiles] is expected to leave in [effects]. *)

Definition logAll (l : list Effect) (h : Host) : Host :=
  mkHost (readonly h) (input h) (editor h) (editorElement h) (serializer h)
    (accept h) (starterKitOptions__ h) (extensions__ h) (lightDOM h) (page h)
    (retired h) (nextNode h) (nextEditor h) (nextURL h) (effects h ++ l).

(** Each file with the decision of the listeners on its notification,
    the notifications dispatched one after the other. *)
Fixpoint fileAcceptOutcomes (before : list Effect) (files : list File)
  : list (File * bool) :=
  match files with
  | [] => []
  | f :: t =>
      let prevented := cancelsFileAccept before f in
      (f, prevented)
        :: fileAcceptOutcomes (before ++ [Dispatched (FileAcceptEvent f) prevented]) t
  end.

Definition acceptTrace (events : list (File * bool)) : list Effect :=
  map (fun ev => Dispatched (FileAcceptEvent (fst ev)) (snd ev)) events.

Definition allowedFiles (events : list (File * bool)) : list File :=
  map fst (List.filter (fun ev => negb (snd ev)) events).

(** One attachment per file, each with an object URL of its own. *)
Fixpoint attachmentsFor (view : nat) (url : N) (files : list File)
  : list AttachmentManager :=
  match files with
  | [] => []
  | f :: t => mkAttachment ("blob:" +:+ pretty url) f view
                :: attachmentsFor view (N.succ url) t
  end.

Definition addAttachmentTrace (atts : list AttachmentManager) : list Effect :=
  map (fun a => Dispatched (AddAttachmentEvent a) false) atts.

(** The insertion and the notifications after it: nothing for no
    attachment, else one command and one notification each. *)
Definition insertionTrace (view : nat) (atts : list AttachmentManager)
  : list Effect :=
  match atts with
  | [] => []
  | _ => SetAttachment view atts :: addAttachmentTrace atts
  end.

(** The host after the insertion of lines 328-332. *)
Definition afterInsertion (e : Editor) (atts : list AttachmentManager) (h : Host)
  : Host :=
  logAll (addAttachmentTrace atts)
    (log (SetAttachment (editorId e) atts)
       (update_editor
          (fun e => mkEditor (editorId e) (options e)
                      (runSetAttachment atts (state e)) (listeners e)) h)).

(** ** Editor setup, in parts *)

(** The stored value [__defaultOptions] starts from, line 490. *)
Definition storedValue (h : Host) : string :=
  match inputElement h with
  | Some id => default EmptyString (page h !! id)
  | None => EmptyString
  end.

(** The options of lines 496-503 around a content. *)
Definition defaultsWith (h : Host) (element : nat) (content : Content)
  : EditorOptions :=
  mkOptions false (__starterKitExtensions__ h ++ extensions__ h) false
    element content (negb (readonly h)).

(** Line 566 alone: the options, then the editor. *)
Definition construct (element : nat) : M Editor :=
  let* o := allOptions element in
  newEditor o.

Definition set_serializer (s : string) (h : Host) : Host :=
  mkHost (readonly h) (input h) (editor h) (editorElement h) s (accept h)
    (starterKitOptions__ h) (extensions__ h) (lightDOM h) (page h) (retired h)
    (nextNode h) (nextEditor h) (nextURL h) (effects h).

(** The slot [rebuildEditor] creates, and the view the engine mounts
    into it. *)
Definition slotDiv (id : nat) (children : list LiveNode) : LiveNode :=
  LiveElement id "div" [("slot", "editor")] children.

Definition viewNode (id : nat) : LiveNode :=
  LiveElement id "div" [("class", "ProseMirror")] [].

(** Lines 136-140: the new slot takes the place of the first one, or
    goes last. *)
Definition withSlot (new : LiveNode) (l : list LiveNode) : list LiveNode :=
  match findFirstAmong isEditorSlot l with
  | Some _ => default l (replaceFirstAmong isEditorSlot new l)
  | None => l ++ [new]
  end.

(** The host after lines 128-140 of [rebuildEditor]. *)
Definition afterSlot (h : Host) : Host :=
  set_lightDOM (withSlot (slotDiv (nextNode h) []) (lightDOM h))
    (set_nextNode (S (nextNode h)) h).

Definition bindListeners (e : Editor) : Editor :=
  mkEditor (editorId e) (options e) (state e) (listeners e ++ boundEvents).

(** The view [div.querySelector(".ProseMirror")] finds, line 145. *)
Definition mountedView (div : nat) (l : list LiveNode) : option LiveNode :=
  match findFirstAmong (fun n => Nat.eqb (liveId n) div) l with
  | Some d => findFirstAmong isProseMirror (liveChildren d)
  | None => None
  end.

(** Lines 147-149 on the light DOM. *)
Definition decorated (found : option LiveNode) (l : list LiveNode) : list LiveNode :=
  match found with
  | Some el => map (updateById (liveId el) (mapLiveAttrs decorateView)) l
  | None => l
  end.

(** Lines 142-152 once [__setupEditor] has returned [e]. *)
Definition finishRebuild (div : nat) (e : Editor) (h : Host) : Host :=
  let h1 := update_editor bindListeners (set_editor (Some e) h) in
  let found := mountedView div (lightDOM h1) in
  log RequestedUpdate
    (set_lightDOM (decorated found (lightDOM h1))
       (set_editorElement (option_map liveId found) h1)).

(** The host once an editor is constructed on [element]. *)
Definition afterConstruct (element : nat) (h : Host) : Host :=
  set_lightDOM
    (map (updateById element (appendLiveChild (viewNode (nextNode h)))) (lightDOM h))
    (set_nextEditor (S (nextEditor h)) (set_nextNode (S (nextNode h)) h)).

(** The slot as [rebuildEditor] leaves it: the view mounted in it. *)
Definition finalSlot (d : nat) : LiveNode := slotDiv d [viewNode (S d)].

(** ** Assignments to the two setters, one after the other *)

Inductive Assignment :=
| AssignExtensions (x : list Extension)
| AssignStarterKitOptions (o : StarterKitOptions).

Definition assign (a : Assignment) : M unit :=
  match a with
  | AssignExtensions x => set_extensions x
  | AssignStarterKitOptions o => set_starterKitOptions o
  end.

(** The host after a sequence of assignments; one that throws leaves
    the host as the exception found it, and the next one goes on. *)
Definition assignAll (l : list Assignment) (h : Host) : Host :=
  fold_left (fun h a => finalState (assign a h)) l h.

(** The node an editor is installed onto. *)
Definition container (e : Editor) : nat := o_element (options e).

(** Every editor the host holds or has held. *)
Definition instances (h : Host) : list Editor :=
  match editor h with
  | Some e => e :: retired h
  | None => retired h
  end.

(** An instance is alive on the host when its container is in the
    light DOM of the host. *)
Definition alive (h : Host) (e : Editor) : Prop :=
  In e (instances h) /\ In (container e) (idsOfForest (lightDOM h)).

(** What the page guarantees of a host: nodes have identities of their
    own, all of them allocated; an editor the host let go is mounted
    nowhere in it; the editor it holds, if mounted, is in the slot that
    [slottedEditor] finds. *)
Record WellFormed (h : Host) : Prop := {
  wf_nodup : NoDup (idsOfForest (lightDOM h));
  wf_bound : forall i, In i (idsOfForest (lightDOM h)) -> i < nextNode h;
  wf_instances : forall e, In e (instances h) -> container e < nextNode h;
  wf_retired : forall e, In e (retired h) ->
                 ~ In (container e) (idsOfForest (lightDOM h));
  wf_current : forall e, editor h = Some e ->
                 In (container e) (idsOfForest (lightDOM h)) ->
                 option_map liveId (slottedEditor h) = Some (container e)
}.

End WithEngine.

Arguments Returned {E A} a h.
Arguments Thrown {E A} e h.
End Host.

(* ===================================================================== *)
(** * A small platform to run the host on

    A browser that parses only what these examples need, an editor engine
    whose document is the HTML it was given, and a few hosts. *)
(* ===================================================================== *)

Module Demo.
Import JSString DOM Host.

(** ** HTML out of a tree, as [innerHTML] writes it *)

Fixpoint escapeText (s : string) : string :=
  match s with
  | EmptyString => EmptyString
  | String c t =>
      let n := N_of_ascii c in
      (if (n =? 38)%N then "&amp;"
       else if (n =? 60)%N then "&lt;"
       else if (n =? 62)%N then "&gt;"
       else String c EmptyString) +:+ escapeText t
  end.

Fixpoint escapeAttribute (s : string) : string :=
  match s with
  | EmptyString => EmptyString
  | String c t =>
      let n := N_of_ascii c in
      (if (n =? 38)%N then "&amp;"
       else if (n =? 34)%N then "&quot;"
       else String c EmptyString) +:+ escapeAttribute t
  end.

Definition attributesHTML (attrs : list (string * string)) : string :=
  concat (map (fun kv => " " +:+ fst kv +:+ "=" +:+ dquote +:+ escapeAttribute (snd kv) +:+ dquote)
              attrs).

Fixpoint outerHTML (n : Node) : string :=
  match n with
  | Text d => escapeText d
  | Comment d => "<!--" +:+ d +:+ "-->"
  | Element t a ks =>
      "<" +:+ t +:+ attributesHTML a +:+ ">"
      +:+ concat (map outerHTML ks) +:+ "</" +:+ t +:+ ">"
  end.

Definition serializeChildren (n : Node) : string :=
  concat (map outerHTML (childNodes n)).

(** ** A fragment parser for captions of plain text *)

Fixpoint isPlainText (s : string) : bool :=
  match s with
  | EmptyString => true
  | String c t =>
      let n := N_of_ascii c in
      negb ((n =? 38)%N || (n =? 60)%N || (n =? 0)%N || (n =? 13)%N) && isPlainText t
  end.

(** [s] without [suffix] at its end. *)
Fixpoint stripSuffix (suffix s : string) : option string :=
  if String.eqb s suffix then Some EmptyString
  else
    match s with
    | EmptyString => None
    | String c t => option_map (String c) (stripSuffix suffix t)
    end.

Definition captionOpen : string :=
  "<figcaption class=" +:+ dquote +:+ "attachment__caption" +:+ dquote +:+ ">".

Definition parseCaptionFragment (_context : Node) (html : string) : list Node :=
  match stripPrefix captionOpen html with
  | Some rest =>
      match stripSuffix "</figcaption>" rest with
      | Some inner =>
          if isPlainText inner
          then [Element "figcaption" [("class", "attachment__caption")]
                  (if isEmpty inner then [] else [Text inner])]
          else [Text html]
      | None => [Text html]
      end
  | None => [Text html]
  end.

(** A browser whose [DOMParser] is the given function. *)
Definition browserWith (parser : string -> Document) : Browser := {|
  parseFromString := parser;
  parseFragment := parseCaptionFragment;
  innerHTML := serializeChildren;
  numberToString := fun n => pretty (JSON.mantissa n);
  stringify := fun _ => "{}"
|}.

Definition htmlDocument (body : list Node) : Document :=
  mkDocument true (Element "html" [] [Element "head" [] []; Element "body" [] body]).

(** ** An engine whose document is its initial content *)

Definition contentHTML (c : Content) : string :=
  match c with
  | HTMLContent html => html
  | JSONContent _ => EmptyString
  end.

Definition contentJSON (c : Content) : JSON.JSValue :=
  match c with
  | HTMLContent _ => JSON.JObject []
  | JSONContent doc => doc
  end.

(** Listeners of the page refuse executables and accept the rest. *)
Definition refusesExecutables (_ : list Effect) (f : File) : bool :=
  String.eqb (fileType f) "application/x-msdownload".

Definition engine : Engine := {|
  EngineState := string * JSON.JSValue;
  createState := fun o => (contentHTML (o_content o), contentJSON (o_content o));
  getHTML := fst;
  getJSON := snd;
  runSetAttachment := fun atts st =>
    (fst st +:+ concat (map (fun a => "<figure data-src=" +:+ src a +:+ "></figure>") atts),
     snd st);
  runInsertContent := fun items st => (fst st +:+ concat items, snd st);
  cancelsFileAccept := refusesExecutables
|}.

(** ** Hosts *)

Definition greeting : Document := htmlDocument [Element "p" [] [Text "Hi"]].

Definition browser : Browser := browserWith (fun _ => greeting).

Definition strikeOff : StarterKitOptions := [("strike", JSON.JBool false)].

(** A host as its constructor leaves it, bound to the input [note]. *)
Definition freshHost : @Host engine :=
  mkHost false (Some "note") None None "html" "*" strikeOff [] []
    {[ "note" := "<p>Hi</p>" ]} [] 0 0 0%N [].

(** The same host once its editor is built. *)
Definition liveHost : @Host engine :=
  finalState (@rebuildEditor browser engine freshHost).

Definition picture : File := mkFile "cat.png" "image/png" 2048.
Definition installer : File := mkFile "setup.exe" "application/x-msdownload" 4096.

(** The same host with its serializer set to json, the bound input still
    holding HTML. *)
Definition switchedHost : @Host engine := set_serializer "json" liveHost.

(** ** Stored values *)

(** An attachment figure without a caption, with the given payload. *)
Definition captionless (payload : string) : Node :=
  Element "figure"
    [("data-trix-attachment", "{}"); ("data-trix-attributes", payload)]
    [Element "img" [("src", "cat.png")] []].

(** The payload with the caption x. *)
Definition captionPayload : string :=
  "{" +:+ dquote +:+ "caption" +:+ dquote +:+ ":" +:+ dquote +:+ "x" +:+ dquote +:+ "}".

Definition captionedValue : Document := htmlDocument [captionless captionPayload].




(** A figure with a caption, the name of the attachment in it. *)
Definition namedValue (name : string) (after : list Node) : Document :=
  htmlDocument
    [Element "figure" [("data-trix-attachment", "{}")]
       [Element "figcaption" [("class", "attachment__caption")]
          [Element "span" [("class", "attachment__name")] (Text name :: after)]]].

(** A host whose bound input holds a stored value with a payload cut short. *)
Definition truncatedHost : @Host engine :=
  mkHost false (Some "note") None None "html" "*" strikeOff [] []
    {[ "note" := "<figure>" ]} [] 0 0 0%N [].

(** Three assignments on the fresh host. *)
Definition twoAssignments : list Assignment :=
  [AssignExtensions [Custom "mention"]; AssignStarterKitOptions []].

Definition afterTwo : @Host engine := @assignAll browser engine twoAssignments freshHost.

Definition afterThree : @Host engine :=
  finalState (@assign browser engine (AssignExtensions []) afterTwo).

End Demo.

(* ===================================================================== *)
(** * Editor setup and intake: what the statements speak of *)
(* ===================================================================== *)

Module SetupDefs.
Import JSString Host.
Section WithEngine.
Context `{B : Browser} `{E : Engine}.

(** The test of line 561: the serializer for which setup normalizes. *)
Definition htmlMode (h : Host) : bool :=
  isEmpty (serializer h) || String.eqb (serializer h) "html".

(** The test of lines 287 and 492. *)
Definition jsonMode (h : Host) : bool :=
  String.eqb (toLowerCase (serializer h)) "json".

(** The slot as a rebuild leaves it in the light DOM: the view of the
    editor in it, with the class and attributes of lines 147-149. *)
Definition decoratedSlot (d : nat) : LiveNode :=
  slotDiv d
    [LiveElement (S d) "div"
       [("class", "ProseMirror trix-content"); ("tabindex", "0"); ("role", "textbox")]
       []].
(** What [serialize] returns. *)
Definition serialized (h : Host) : string :=
  match editor h with
  | None => EmptyString
  | Some e =>
      if String.eqb (toLowerCase (serializer h)) "json"
      then stringify (getJSON (state e))
      else getHTML (state e)
  end.

(** The host after [updateInputElementValue]. *)
Definition synced (h : Host) : Host :=
  match inputElement h, editor h, readonly h with
  | Some id, Some _, false => set_page (<[id := serialized h]> (page h)) h
  | _, _, _ => h
  end.

(** The host once [editor.commands.insertContent(items)] has run, line 369. *)
Definition afterInsertContent (e : Editor) (items : list string) (h : Host) : Host :=
  log (InsertContent (editorId e) items)
    (update_editor
       (fun e => mkEditor (editorId e) (options e)
                   (runInsertContent items (state e)) (listeners e)) h).

(** The slot an assignment leaves in the light DOM: the decorated slot
    when it returns, the empty one when it throws. *)
Definition slotLeft (a : Assignment) (h : Host) : LiveNode :=
  match assign a h with
  | Returned _ _ => decoratedSlot (nextNode h)
  | Thrown _ _ => slotDiv (nextNode h) []
  end.

End WithEngine.
End SetupDefs.

(* ===================================================================== *)
(** * Selectors in context, class tokens, gallery parents *)
(* ===================================================================== *)

Module DOMContext.
Import JSString DOM.

(** What a selector is given at the node of path [p] below [n]: the
    ancestors of that node, nearest first, its siblings before it, and the
    node itself. [anc] and [before] are those of [n]. *)
Fixpoint contextFrom (anc before : list Node) (p : Path) (n : Node)
  : option (list Node * list Node * Node) :=
  match p with
  | [] => Some (anc, before, n)
  | i :: p' =>
      match childNodes n !! i with
      | Some k => contextFrom (n :: anc) (take i (childNodes n)) p' k
      | None => None
      end
  end.

Definition contextAt (p : Path) (root : Node) : option (list Node * list Node * Node) :=
  contextFrom [] [] p root.

(** The element has a [figcaption] below it. *)
Definition hasFigcaptionBelow (n : Node) : Prop :=
  exists r m, r <> [] /\ nodeAt r n = Some m /\ isTag "figcaption" m = true.

(** There is an element of that tag in the tree. *)
Fixpoint hasTag (name : string) (n : Node) : bool :=
  match n with
  | Element t _ ks => String.eqb t name || existsb (hasTag name) ks
  | _ => false
  end.

End DOMContext.

Module TokenDefs.
Import JSString DOM.

(** A string without ASCII whitespace. *)
Fixpoint wsfree (s : string) : bool :=
  match s with
  | EmptyString => true
  | String c t => negb (is_ascii_whitespace c) && wsfree t
  end.

(** A class token: not empty, no whitespace. *)
Definition isToken (s : string) : Prop := s <> EmptyString /\ wsfree s = true.

(** The tokens after [classList.add(token)]. *)
Definition withToken (token : string) (tokens : list string) : list string :=
  if existsb (String.eqb token) tokens then tokens else tokens ++ [token].

End TokenDefs.

Module GalleryDefs.
Import JSString DOM.

(** [el.firstElementChild] *)
Definition firstElementChild (n : Node) : option Node :=
  List.find isElement (childNodes n).

(** A div whose first element child is a figure: the parent of a match
    of [div > figure:first-child]. *)
Definition isGalleryParent (n : Node) : bool :=
  isTag "div" n &&
  match firstElementChild n with
  | Some c => isTag "figure" c
  | None => false
  end.

(** A change that only appends children. *)
Definition Appends (f : Node -> Node) : Prop :=
  forall n, exists extra, f n = appendNodes extra n.
End GalleryDefs.

(* ===================================================================== *)
(** * The life cycle of the host: attaching, timers, editor callbacks

    The host in its page: the tasks it has queued with [setTimeout], the
    notifications of its life cycle, each with the host as its listeners
    find it, the event objects of the add-attachment notifications (a
    listener may cancel one after the host's own listener has run), and
    what the host asked of its collaborators. *)
(* ===================================================================== *)

Module Lifecycle.
Import JSString Host.

(** The notifications of lines 198, 205, 513, 517, 524 and 531. *)
Inductive LifecycleEvent :=
| BeforeInitializeEvent
| InitializeEvent
| RhinoChangeEvent
| RhinoFocusEvent
| RhinoBlurEvent
| SelectionChangeEvent (transaction : nat).

(** The events of the editor that the host binds, with what the editor
    hands to the listener. *)
Inductive EditorEvent :=
| OnFocus
| OnCreate
| OnUpdate
| OnSelectionUpdate (transaction : nat)
| OnTransaction
| OnBlur.

Definition eventName (ev : EditorEvent) : string :=
  match ev with
  | OnFocus => "focus"
  | OnCreate => "create"
  | OnUpdate => "update"
  | OnSelectionUpdate _ => "selectionUpdate"
  | OnTransaction => "transaction"
  | OnBlur => "blur"
  end.

(** The attachment of an add-attachment notification: with its file, as
    [transformFilesToAttachments] makes them, or without one. *)
Inductive EventAttachment :=
| WithFile (attachment : AttachmentManager)
| WithoutFile (src : string).

(** The event object of an add-attachment notification, as line 223 to
    229 read it. *)
Record AttachmentEvent := mkAttachmentEvent {
  ev_attachment : EventAttachment;
  ev_targetIsHTMLElement : bool;
  ev_defaultPrevented : bool
}.

(** The callbacks given to [setTimeout]: the one of line 202 and the one
    of line 222 for the event object of that index. *)
Inductive Task :=
| RebuildTask
| UploadTask (event : nat).

Section WithEngine.
Context `{B : Browser} `{E : Engine}.

Record Component := mkComponent {
  host : Host;
  (** the attributes of the host element itself *)
  hostAttrs : list (string * string);
  (** the tasks queued with [setTimeout], first in first out *)
  timers : list Task;
  (** the life-cycle notifications dispatched so far, oldest first, each
      with the host as it was when its listeners ran *)
  dispatched : list (LifecycleEvent * Host);
  (** the editors [destroy()] was called on *)
  destroyed : list nat;
  (** the event objects of the add-attachment notifications *)
  attachmentEvents : list AttachmentEvent;
  (** the attachments an [AttachmentUpload] was started for *)
  uploads : list AttachmentManager;
  (** exceptions that left a task uncaught *)
  uncaught : list Exception
}.

Definition set_host (h : Host) (s : Component) : Component :=
  mkComponent h (hostAttrs s) (timers s) (dispatched s) (destroyed s)
    (attachmentEvents s) (uploads s) (uncaught s).

Definition set_hostAttrs (a : list (string * string)) (s : Component) : Component :=
  mkComponent (host s) a (timers s) (dispatched s) (destroyed s)
    (attachmentEvents s) (uploads s) (uncaught s).

Definition set_timers (t : list Task) (s : Component) : Component :=
  mkComponent (host s) (hostAttrs s) t (dispatched s) (destroyed s)
    (attachmentEvents s) (uploads s) (uncaught s).

Definition set_dispatched (d : list (LifecycleEvent * Host)) (s : Component) : Component :=
  mkComponent (host s) (hostAttrs s) (timers s) d (destroyed s)
    (attachmentEvents s) (uploads s) (uncaught s).

Definition set_destroyed (d : list nat) (s : Component) : Component :=
  mkComponent (host s) (hostAttrs s) (timers s) (dispatched s) d
    (attachmentEvents s) (uploads s) (uncaught s).

Definition set_attachmentEvents (l : list AttachmentEvent) (s : Component) : Component :=
  mkComponent (host s) (hostAttrs s) (timers s) (dispatched s) (destroyed s)
    l (uploads s) (uncaught s).

Definition set_uploads (u : list AttachmentManager) (s : Component) : Component :=
  mkComponent (host s) (hostAttrs s) (timers s) (dispatched s) (destroyed s)
    (attachmentEvents s) u (uncaught s).

Definition set_uncaught (x : list Exception) (s : Component) : Component :=
  mkComponent (host s) (hostAttrs s) (timers s) (dispatched s) (destroyed s)
    (attachmentEvents s) (uploads s) x.

(** [this.dispatchEvent(new ...Event())] for a life-cycle notification:
    its listeners run now, on the host as it is. *)
Definition dispatchEvent (ev : LifecycleEvent) (s : Component) : Component :=
  set_dispatched (dispatched s ++ [(ev, host s)]) s.

(** [setTimeout(callback)] *)
Definition setTimeout (t : Task) (s : Component) : Component :=
  set_timers (timers s ++ [t]) s.

(** A method of the host run on the host. When the method throws, the
    exception goes to its caller and the host stays as the method left
    it. *)
Definition onHost (c : M unit) (s : Component) : Component :=
  set_host (finalState (c (host s))) s.

(** ** [__unBindEditorListeners], lines 549-558

    [editor.off(event, listener)] takes the listener off the event: every
    registration of it, when it was bound more than once. The host binds
    one listener to each event, so the registrations are kept by the name
    of the event. *)
Definition off (event : string) (l : list string) : list string :=
  List.filter (fun name => negb (String.eqb name event)) l.

Definition __unBindEditorListeners : M unit :=
  modify (update_editor (fun e =>
    mkEditor (editorId e) (options e) (state e)
      (fold_left (fun l event => off event l) boundEvents (listeners e)))).

(** ** [connectedCallback], lines 191-207 *)
Definition connectedCallback (s : Component) : Component :=
  let s1 :=
    match editor (host s) with
    | Some _ => onHost __unBindEditorListeners s
    | None => s
    end in
  let s2 := dispatchEvent BeforeInitializeEvent s1 in
  let s3 := set_hostAttrs (DOM.addClassToken "rhino-editor" (hostAttrs s2)) s2 in
  setTimeout RebuildTask s3.

(** ** [disconnectedCallback], lines 209-213 *)
Definition disconnectedCallback (s : Component) : Component :=
  match editor (host s) with
  | Some e => set_destroyed (destroyed s ++ [editorId e]) s
  | None => s
  end.

(** ** [handleAttachment], lines 220-234: the listener, and the callback
    it defers *)
Definition handleAttachment (event : nat) (s : Component) : Component :=
  setTimeout (UploadTask event) s.

Definition startUpload (ev : AttachmentEvent) (s : Component) : Component :=
  if ev_defaultPrevented ev then s
  else
    match ev_attachment ev with
    | WithFile a =>
        if ev_targetIsHTMLElement ev then set_uploads (uploads s ++ [a]) s else s
    | WithoutFile _ => s
    end.

(** [event.preventDefault()] by a listener that holds the event object. *)
Definition preventDefault (event : nat) (s : Component) : Component :=
  set_attachmentEvents
    (alter (fun ev => mkAttachmentEvent (ev_attachment ev)
                        (ev_targetIsHTMLElement ev) true)
           event (attachmentEvents s)) s.

(** ** The tasks *)
Definition runTask (t : Task) (s : Component) : Component :=
  match t with
  | RebuildTask =>
      (* lines 203-205 *)
      match rebuildEditor (host s) with
      | Returned _ h' => dispatchEvent InitializeEvent (set_host h' s)
      | Thrown x h' => set_uncaught (uncaught s ++ [x]) (set_host h' s)
      end
  | UploadTask event =>
      (* lines 223-232 *)
      match attachmentEvents s !! event with
      | Some ev => startUpload ev s
      | None => s
      end
  end.

(** One turn of the event loop: the oldest task runs. *)
Definition tick (s : Component) : Component :=
  match timers s with
  | [] => s
  | t :: rest => runTask t (set_timers rest s)
  end.

Fixpoint ticks (n : nat) (s : Component) : Component :=
  match n with
  | O => s
  | S n' => ticks n' (tick s)
  end.

(** ** The editor callbacks, lines 506-536 *)
Definition __handleCreate (s : Component) : Component := onHost requestUpdate s.

Definition __handleUpdate (s : Component) : Component :=
  dispatchEvent RhinoChangeEvent
    (onHost requestUpdate (onHost updateInputElementValue s)).

Definition __handleFocus (s : Component) : Component :=
  onHost requestUpdate (dispatchEvent RhinoFocusEvent s).

Definition __handleBlur (s : Component) : Component :=
  dispatchEvent RhinoBlurEvent
    (onHost requestUpdate (onHost updateInputElementValue s)).

Definition __handleSelectionUpdate (transaction : nat) (s : Component) : Component :=
  dispatchEvent (SelectionChangeEvent transaction) (onHost requestUpdate s).

Definition __handleTransaction (s : Component) : Component := onHost requestUpdate s.

(** The host's listener for an event of the editor. *)
Definition handler (ev : EditorEvent) : Component -> Component :=
  match ev with
  | OnFocus => __handleFocus
  | OnCreate => __handleCreate
  | OnUpdate => __handleUpdate
  | OnSelectionUpdate transaction => __handleSelectionUpdate transaction
  | OnTransaction => __handleTransaction
  | OnBlur => __handleBlur
  end.

Fixpoint times {A} (n : nat) (f : A -> A) (a : A) : A :=
  match n with
  | O => a
  | S n' => times n' f (f a)
  end.

(** How often the host's listener is bound to an event of an editor. *)
Definition bound (ev : EditorEvent) (e : Editor) : nat :=
  length (List.filter (String.eqb (eventName ev)) (listeners e)).

(** The editor the host holds emits an event: the host's listener runs
    once for each time it is bound. *)
Definition emit (ev : EditorEvent) (s : Component) : Component :=
  match editor (host s) with
  | Some e => times (bound ev e) (handler ev) s
  | None => s
  end.

(** ** The host's own listener for add-attachment, line 184

    A method of the host runs; for each add-attachment notification it
    dispatched, [handleAttachment] has been called with the event object,
    whose target is the host. *)
Definition attachmentsNotified (l : list Effect) : list AttachmentManager :=
  omap (fun e => match e with
                 | Dispatched (AddAttachmentEvent a) _ => Some a
                 | _ => None
                 end) l.

Definition listenAddAttachment (a : AttachmentManager) (s : Component) : Component :=
  handleAttachment (length (attachmentEvents s))
    (set_attachmentEvents
       (attachmentEvents s ++ [mkAttachmentEvent (WithFile a) true false]) s).

Definition withListeners {A} (c : M A) (s : Component) : Component :=
  let h' := finalState (c (host s)) in
  fold_left (fun s a => listenAddAttachment a s)
    (attachmentsNotified (drop (length (effects (host s))) (effects h')))
    (set_host h' s).

(** ** What can happen to the host, in any order *)
Inductive Op :=
| Connect
| Disconnect
| Tick
| Assign (a : Assignment)
| Emit (ev : EditorEvent)
| Files (files : option (list File))
| Drop (event : option DOMEvent)
| Paste (event : option DOMEvent)
| Cancel (event : nat).

Definition step (s : Component) (op : Op) : Component :=
  match op with
  | Connect => connectedCallback s
  | Disconnect => disconnectedCallback s
  | Tick => tick s
  | Assign a => onHost (assign a) s
  | Emit ev => emit ev s
  | Files files => withListeners (handleFiles files) s
  | Drop event => withListeners (handleDropFile event) s
  | Paste event => withListeners (handlePaste event) s
  | Cancel event => preventDefault event s
  end.

Definition run (ops : list Op) (s : Component) : Component := fold_left step ops s.

(** The host element as its constructor leaves it. *)
Definition created (h : Host) : Component := mkComponent h [] [] [] [] [] [] [].

(** ** What the statements about the life cycle speak of *)

(** The host once its listeners are unbound. *)
Definition unbound (h : Host) : Host :=
  finalState (__unBindEditorListeners h).

(** The attachment an upload is started for, if any, lines 223-232. *)
Definition uploadFor (ev : AttachmentEvent) : option AttachmentManager :=
  if ev_defaultPrevented ev then None
  else match ev_attachment ev with
       | WithFile a => if ev_targetIsHTMLElement ev then Some a else None
       | WithoutFile _ => None
       end.

(** The event object the host's listener gets for an attachment. *)
Definition eventFor (a : AttachmentManager) : AttachmentEvent :=
  mkAttachmentEvent (WithFile a) true false.

(** Two hosts with the same light DOM, the same retired editors, and
    editors, if any, on the same container with the same listeners. *)
Definition sameMount (h h' : Host) : Prop :=
  lightDOM h' = lightDOM h /\ nextNode h' = nextNode h /\ retired h' = retired h /\
  option_map container (editor h') = option_map container (editor h) /\
  option_map listeners (editor h') = option_map listeners (editor h).

(** The listeners of the editor the host holds are all bound once, or
    none is bound. *)
Definition boundOnce (h : Host) : Prop :=
  forall e, editor h = Some e -> listeners e = [] \/ listeners e = boundEvents.

End WithEngine.
End Lifecycle.

(* ===================================================================== *)
(** * More values to run the host on *)
(* ===================================================================== *)

Module Fixtures.
Import JSString DOM Host Lifecycle Demo.



(** Two figures in a div, after a text. *)
Definition galleryValue : Document :=
  htmlDocument
    [Element "div" [("class", "attachments")]
       [Text " "; Element "figure" [] []; Element "figure" [] []]].

(** What [normalizeDOM] makes of a document, the document itself when it
    throws. *)
Definition normalized (doc : Document) : Node :=
  match @Normalize.normalizeDocument (browserWith (fun _ => doc)) doc with
  | Ok root => root
  | Throw _ => documentElement doc
  end.

(** The live host in its page, nothing queued. *)
Definition liveElement : @Component engine := created liveHost.

(** The live host with the event of an add-attachment notification for a
    picture, not canceled. *)
Definition notifiedElement : @Component engine :=
  set_attachmentEvents
    [mkAttachmentEvent (WithFile (mkAttachment "blob:0" picture 0)) true false]
    liveElement.

(** A life of the host: attached, built, reconfigured, some files dropped,
    detached and attached again. *)
Definition life : list Op :=
  [Connect; Tick; Emit OnUpdate; Assign (AssignExtensions [Custom "mention"]);
   Files (Some [picture; installer]); Tick; Disconnect; Connect; Emit OnBlur; Tick].

End Fixtures.

(* ===================================================================== *)
(** * Facts about [JSON.parse]: its recursion budget is enough *)
(* ===================================================================== *)

Module JSONFacts.
Import JSString JSON.

(** Take apart every match and test of a hypothesis. *)
Ltac case_matches :=
  repeat match goal with
         | H : context [match ?x with _ => _ end] |- _ => destruct x eqn:?; try discriminate
         | H : context [if ?x then _ else _] |- _ => destruct x eqn:?; try discriminate
         end.

Lemma skip_ws_length (s : string) : String.length (skip_ws s) <= String.length s.
Proof. induction s as [|c t IH]; simpl; [lia|]. destruct (is_json_ws c); simpl; lia. Qed.

Lemma skip_ws_cons (s : string) (c : ascii) (t : string) :
  skip_ws s = String c t -> String.length t < String.length s.
Proof. intros H. pose proof (skip_ws_length s) as Hl. rewrite H in Hl. simpl in Hl. lia. Qed.

Lemma lex_string_items_length (n : nat) :
  forall s items rest,
    String.length s <= n ->
    lex_string_items s = Some (items, rest) ->
    String.length rest < String.length s.
Proof.
  induction n as [|n IH]; intros s items rest Hn Hlex.
  - destruct s; [discriminate|simpl in Hn; lia].
  - destruct s as [|c t]; [discriminate|]. simpl in Hn. cbn [lex_string_items] in Hlex.
    cbv zeta in Hlex.
    case_matches; simplify_eq; simpl in *;
      try match goal with
          | H : lex_string_items ?u = Some (_, ?r) |- _ =>
              apply IH in H; [simpl in *; lia | simpl in *; lia]
          end; try lia.
Qed.

Lemma lex_string_length (s str rest : string) :
  lex_string s = Some (str, rest) -> String.length rest < String.length s.
Proof.
  unfold lex_string. intros H. case_matches. simplify_eq.
  by eapply lex_string_items_length.
Qed.

Lemma lex_digits_length (s : string) :
  forall acc count v k rest,
    lex_digits acc count s = (v, k, rest) -> String.length rest <= String.length s.
Proof.
  induction s as [|c t IH]; intros acc count v k rest H; simpl in H.
  - simplify_eq. lia.
  - destruct (digit_of c); [apply IH in H; simpl; lia|]. simplify_eq. lia.
Qed.

Lemma lex_int_length (s : string) (v : N) (rest : string) :
  lex_int s = Some (v, rest) -> String.length rest < String.length s.
Proof.
  unfold lex_int. intros H. destruct s as [|c t]; [discriminate|].
  destruct (digit_of c) as [d|]; [|discriminate].
  destruct d.
  - simplify_eq. simpl. lia.
  - destruct (lex_digits _ 1 t) as [[v' k] r] eqn:Hd. simplify_eq.
    apply lex_digits_length in Hd. simpl. lia.
Qed.

Lemma lex_frac_length (i : N) (s : string) (m : N) (e : Z) (rest : string) :
  lex_frac i s = Some (m, e, rest) -> String.length rest <= String.length s.
Proof.
  unfold lex_frac. intros H. destruct s as [|c t]; [simplify_eq; lia|].
  destruct (N_of_ascii c =? 46)%N; [|simplify_eq; lia].
  destruct (lex_digits i 0 t) as [[v k] r] eqn:Hd.
  apply lex_digits_length in Hd. destruct k; simplify_eq. simpl. lia.
Qed.

Lemma lex_exp_length (s : string) (e : Z) (rest : string) :
  lex_exp s = Some (e, rest) -> String.length rest <= String.length s.
Proof.
  unfold lex_exp. intros H. destruct s as [|c t]; [simplify_eq; lia|].
  destruct (_ || _); [|simplify_eq; lia].
  destruct (match t with String sg t1 => _ | EmptyString => _ end) as [neg t'] eqn:Hs.
  assert (String.length t' <= String.length t).
  { destruct t as [|sg t1]; [simplify_eq; lia|]. case_matches; simplify_eq; simpl; lia. }
  destruct (lex_digits 0 0 t') as [[v k] r] eqn:Hd.
  apply lex_digits_length in Hd. destruct k; simplify_eq. simpl. lia.
Qed.

Lemma lex_number_length (s : string) (n : JSNumber) (rest : string) :
  lex_number s = Some (n, rest) -> String.length rest < String.length s.
Proof.
  unfold lex_number. intros H.
  destruct (match s with String c t => _ | EmptyString => _ end) as [neg s1] eqn:Hs.
  assert (String.length s1 <= String.length s).
  { destruct s as [|c t]; [simplify_eq; lia|]. case_matches; simplify_eq; simpl; lia. }
  destruct (lex_int s1) as [[i s2]|] eqn:Hi; [|discriminate].
  destruct (lex_frac i s2) as [[[m e1] s3]|] eqn:Hf; [|discriminate].
  destruct (lex_exp s3) as [[e2 s4]|] eqn:He; [|discriminate].
  simplify_eq. apply lex_int_length in Hi. apply lex_frac_length in Hf.
  apply lex_exp_length in He. lia.
Qed.

Lemma stripPrefix_length (needle hay rest : string) :
  stripPrefix needle hay = Some rest -> String.length rest <= String.length hay.
Proof.
  revert hay. induction needle as [|a n IH]; intros hay H; simpl in H.
  - simplify_eq. lia.
  - destruct hay as [|b h]; [discriminate|].
    destruct (Ascii.eqb a b); [|discriminate]. apply IH in H. simpl. lia.
Qed.

Lemma lift_word_length (v : JSValue) (word t : string) (v' : JSValue) (rest : string) :
  lift (option_map (pair v) (stripPrefix word t)) = Read v' rest ->
  String.length rest <= String.length t.
Proof.
  destruct (stripPrefix word t) as [r|] eqn:Hs; simpl; [|discriminate].
  intros [= <- <-]. by eapply stripPrefix_length.
Qed.

Lemma lift_not_OutOfFuel {A} (o : option (A * string)) : lift o <> OutOfFuel.
Proof. by destruct o as [[a r]|]. Qed.

Section Loops.
Variable value : string -> Parsed JSValue.
Hypothesis value_length :
  forall s v rest, value s = Read v rest -> String.length rest <= String.length s.

Lemma parse_elements_length (fuel : nat) :
  forall acc s vs rest,
    parse_elements value fuel acc s = Read vs rest ->
    String.length rest <= String.length s.
Proof.
  induction fuel as [|fuel IH]; intros acc s vs rest H; [discriminate|].
  cbn [parse_elements] in H.
  destruct (value s) as [| |v r] eqn:Hv; try discriminate.
  apply value_length in Hv.
  destruct (skip_ws r) as [|c t] eqn:Hr; [discriminate|].
  apply skip_ws_cons in Hr.
  case_matches.
  - apply IH in H. lia.
  - simplify_eq. lia.
Qed.

Lemma parse_members_length (fuel : nat) :
  forall acc s ps rest,
    parse_members value fuel acc s = Read ps rest ->
    String.length rest <= String.length s.
Proof.
  induction fuel as [|fuel IH]; intros acc s ps rest H; [discriminate|].
  cbn [parse_members] in H.
  destruct (skip_ws s) as [|q t] eqn:Hs; [discriminate|].
  apply skip_ws_cons in Hs.
  destruct (N_of_ascii q =? 34)%N; [|discriminate].
  destruct (lex_string t) as [[key r]|] eqn:Hk; [|discriminate].
  apply lex_string_length in Hk.
  destruct (skip_ws r) as [|c t1] eqn:Hr; [discriminate|].
  apply skip_ws_cons in Hr.
  destruct (N_of_ascii c =? 58)%N; [|discriminate].
  destruct (value t1) as [| |v r1] eqn:Hv; try discriminate.
  apply value_length in Hv.
  destruct (skip_ws r1) as [|c' t2] eqn:Hr1; [discriminate|].
  apply skip_ws_cons in Hr1.
  case_matches.
  - apply IH in H. lia.
  - simplify_eq. lia.
Qed.

Variable bound : nat.
Hypothesis value_fuel : forall s, String.length s < bound -> value s <> OutOfFuel.

Lemma parse_elements_fuel (fuel : nat) :
  forall acc s,
    String.length s < fuel -> String.length s < bound ->
    parse_elements value fuel acc s <> OutOfFuel.
Proof.
  induction fuel as [|fuel IH]; intros acc s Hf Hb; [lia|].
  cbn [parse_elements].
  destruct (value s) as [| |v r] eqn:Hv; try discriminate.
  { by apply value_fuel in Hv. }
  apply value_length in Hv.
  destruct (skip_ws r) as [|c t] eqn:Hr; [discriminate|].
  apply skip_ws_cons in Hr.
  destruct (N_of_ascii c =? 44)%N; [apply IH; lia|].
  by destruct (N_of_ascii c =? 93)%N.
Qed.

Lemma parse_members_fuel (fuel : nat) :
  forall acc s,
    String.length s < fuel -> String.length s <= bound ->
    parse_members value fuel acc s <> OutOfFuel.
Proof.
  induction fuel as [|fuel IH]; intros acc s Hf Hb; [lia|].
  cbn [parse_members].
  destruct (skip_ws s) as [|q t] eqn:Hs; [discriminate|].
  apply skip_ws_cons in Hs.
  destruct (N_of_ascii q =? 34)%N; [|discriminate].
  destruct (lex_string t) as [[key r]|] eqn:Hk; [|discriminate].
  apply lex_string_length in Hk.
  destruct (skip_ws r) as [|c t1] eqn:Hr; [discriminate|].
  apply skip_ws_cons in Hr.
  destruct (N_of_ascii c =? 58)%N; [|discriminate].
  destruct (value t1) as [| |v r1] eqn:Hv; try discriminate.
  { apply value_fuel in Hv; [done|lia]. }
  apply value_length in Hv.
  destruct (skip_ws r1) as [|c' t2] eqn:Hr1; [discriminate|].
  apply skip_ws_cons in Hr1.
  destruct (N_of_ascii c' =? 44)%N; [apply IH; lia|].
  by destruct (N_of_ascii c' =? 125)%N.
Qed.
End Loops.

Lemma parse_value_length (fuel : nat) :
  forall s v rest,
    parse_value fuel s = Read v rest -> String.length rest <= String.length s.
Proof.
  induction fuel as [|fuel IH]; intros s v rest H; [discriminate|].
  cbn [parse_value] in H.
  destruct (skip_ws s) as [|c t] eqn:Hs; [discriminate|].
  apply skip_ws_cons in Hs. cbv zeta in H.
  destruct (N_of_ascii c =? 123)%N.
  { destruct (skip_ws t) as [|c1 t1] eqn:Ht; [discriminate|].
    apply skip_ws_cons in Ht.
    destruct (N_of_ascii c1 =? 125)%N; [simplify_eq; lia|].
    destruct (parse_members _ fuel [] t) as [| |ps r] eqn:Hm; try discriminate.
    simplify_eq. apply (parse_members_length _ IH) in Hm. lia. }
  destruct (N_of_ascii c =? 91)%N.
  { destruct (skip_ws t) as [|c1 t1] eqn:Ht; [discriminate|].
    apply skip_ws_cons in Ht.
    destruct (N_of_ascii c1 =? 93)%N; [simplify_eq; lia|].
    destruct (parse_elements _ fuel [] t) as [| |ps r] eqn:Hm; try discriminate.
    simplify_eq. apply (parse_elements_length _ IH) in Hm. lia. }
  destruct (N_of_ascii c =? 34)%N.
  { destruct (lex_string t) as [[str r]|] eqn:Hl; [|discriminate].
    simplify_eq. apply lex_string_length in Hl. lia. }
  destruct (N_of_ascii c =? 116)%N; [apply lift_word_length in H; lia|].
  destruct (N_of_ascii c =? 102)%N; [apply lift_word_length in H; lia|].
  destruct (N_of_ascii c =? 110)%N; [apply lift_word_length in H; lia|].
  destruct (lex_number (String c t)) as [[num r]|] eqn:Hl; [|discriminate].
  simplify_eq. apply lex_number_length in Hl. simpl in Hl. lia.
Qed.

Lemma parse_value_fuel (fuel : nat) :
  forall s, String.length s < fuel -> parse_value fuel s <> OutOfFuel.
Proof.
  induction fuel as [|fuel IH]; intros s Hf; [lia|].
  cbn [parse_value].
  destruct (skip_ws s) as [|c t] eqn:Hs; [discriminate|].
  apply skip_ws_cons in Hs. cbv zeta.
  destruct (N_of_ascii c =? 123)%N.
  { destruct (skip_ws t) as [|c1 t1] eqn:Ht; [discriminate|].
    destruct (N_of_ascii c1 =? 125)%N; [discriminate|].
    pose proof (parse_members_fuel _ (parse_value_length fuel) fuel IH fuel [] t) as Hm.
    destruct (parse_members _ fuel [] t); try discriminate. exfalso. by apply Hm; [lia|lia|]. }
  destruct (N_of_ascii c =? 91)%N.
  { destruct (skip_ws t) as [|c1 t1] eqn:Ht; [discriminate|].
    destruct (N_of_ascii c1 =? 93)%N; [discriminate|].
    pose proof (parse_elements_fuel _ (parse_value_length fuel) fuel IH fuel [] t) as Hm.
    destruct (parse_elements _ fuel [] t); try discriminate. exfalso. by apply Hm; [lia|lia|]. }
  destruct (N_of_ascii c =? 34)%N; [by destruct (lex_string t) as [[? ?]|]|].
  destruct (N_of_ascii c =? 116)%N; [apply lift_not_OutOfFuel|].
  destruct (N_of_ascii c =? 102)%N; [apply lift_not_OutOfFuel|].
  destruct (N_of_ascii c =? 110)%N; [apply lift_not_OutOfFuel|].
  by destruct (lex_number (String c t)) as [[? ?]|].
Qed.

(** [JSON.parse] never runs out of budget: on every text it gives a value or a
    syntax error of the text itself. *)
Lemma parse_decides (text : string) :
  parse_value (S (String.length text)) text <> OutOfFuel.
Proof. apply parse_value_fuel. lia. Qed.


Section MoreFuel.
Variables f g : string -> Parsed JSValue.
Hypothesis f_g : forall s, f s <> OutOfFuel -> g s = f s.

Lemma parse_elements_more_fuel (n : nat) :
  forall m acc s,
    n <= m -> parse_elements f n acc s <> OutOfFuel ->
    parse_elements g m acc s = parse_elements f n acc s.
Proof.
  induction n as [|n IH]; intros m acc s Hm H; [done|].
  destruct m as [|m]; [lia|]. cbn [parse_elements] in *.
  destruct (f s) as [| |v r] eqn:Hv; [done| |]; rewrite f_g, Hv by (by rewrite Hv); [done|].
  destruct (skip_ws r) as [|c t]; [done|].
  destruct (N_of_ascii c =? 44)%N; [apply IH; [lia|done]|done].
Qed.

Lemma parse_members_more_fuel (n : nat) :
  forall m acc s,
    n <= m -> parse_members f n acc s <> OutOfFuel ->
    parse_members g m acc s = parse_members f n acc s.
Proof.
  induction n as [|n IH]; intros m acc s Hm H; [done|].
  destruct m as [|m]; [lia|]. cbn [parse_members] in *.
  destruct (skip_ws s) as [|q t]; [done|].
  destruct (N_of_ascii q =? 34)%N; [|done].
  destruct (lex_string t) as [[key r]|]; [|done].
  destruct (skip_ws r) as [|c t1]; [done|].
  destruct (N_of_ascii c =? 58)%N; [|done].
  destruct (f t1) as [| |v r1] eqn:Hv; [done| |]; rewrite f_g, Hv by (by rewrite Hv); [done|].
  destruct (skip_ws r1) as [|c' t2]; [done|].
  destruct (N_of_ascii c' =? 44)%N; [apply IH; [lia|done]|done].
Qed.
End MoreFuel.

Lemma parse_value_more_fuel (n : nat) :
  forall m s, n <= m -> parse_value n s <> OutOfFuel -> parse_value m s = parse_value n s.
Proof.
  induction n as [|n IH]; intros m s Hm H; [done|].
  destruct m as [|m]; [lia|]. cbn [parse_value] in *.
  destruct (skip_ws s) as [|c t]; [done|]. cbv zeta in *.
  assert (Hfg : forall s, parse_value n s <> OutOfFuel -> parse_value m s = parse_value n s)
    by (intros s'; apply IH; lia).
  destruct (N_of_ascii c =? 123)%N.
  { destruct (skip_ws t) as [|c1 t1]; [done|].
    destruct (N_of_ascii c1 =? 125)%N; [done|].
    rewrite (parse_members_more_fuel (parse_value n) (parse_value m) Hfg n m [] t);
      [done|lia|]. by destruct (parse_members _ n [] t). }
  destruct (N_of_ascii c =? 91)%N; [|done].
  destruct (skip_ws t) as [|c1 t1]; [done|].
  destruct (N_of_ascii c1 =? 93)%N; [done|].
  rewrite (parse_elements_more_fuel (parse_value n) (parse_value m) Hfg n m [] t);
    [done|lia|]. by destruct (parse_elements _ n [] t).
Qed.

(** The budget [parse] gives itself is enough, and a larger one changes
    nothing. *)
Lemma parse_any_budget (text : string) (fuel : nat) :
  String.length text < fuel ->
  parse_value fuel text = parse_value (S (String.length text)) text.
Proof.
  intros Hf. apply parse_value_more_fuel; [lia|]. apply parse_value_fuel. lia.
Qed.

End JSONFacts.

(* ===================================================================== *)
(** * Facts about the light DOM of the host *)
(* ===================================================================== *)

Module LightDOMFacts.
Import JSString Host.

Lemma LiveNode_ind' (P : LiveNode -> Prop) :
  (forall i t a ks, Forall P ks -> P (LiveElement i t a ks)) ->
  forall n, P n.
Proof.
  intros Hstep. fix IH 1. intros [i t a ks]. apply Hstep.
  induction ks as [|k ks IHks]; constructor; [apply IH | exact IHks].
Qed.

Lemma findFirst_unfold (pred : LiveNode -> bool) (n : LiveNode) :
  findFirst pred n =
  if pred n then Some n else findFirstAmong pred (liveChildren n).
Proof.
  destruct n as [i t a ks]. simpl. destruct (pred _); [reflexivity|].
  induction ks as [|k ks IH]; simpl; [reflexivity|].
  by destruct (findFirst pred k).
Qed.

Lemma replaceFirst_unfold (pred : LiveNode -> bool) (new n : LiveNode) :
  replaceFirst pred new n =
  if pred n then Some new
  else match n with
       | LiveElement i t a ks =>
           option_map (LiveElement i t a) (replaceFirstAmong pred new ks)
       end.
Proof.
  destruct n as [i t a ks]. simpl. destruct (pred _); [reflexivity|].
  f_equal. induction ks as [|k ks IH]; simpl; [reflexivity|].
  destruct (replaceFirst pred new k); [reflexivity|]. by rewrite IH.
Qed.

Lemma updateById_unfold (target : nat) (f : LiveNode -> LiveNode) (n : LiveNode) :
  updateById target f n =
  if Nat.eqb (liveId n) target then f n
  else match n with
       | LiveElement i t a ks => LiveElement i t a (map (updateById target f) ks)
       end.
Proof. by destruct n. Qed.

Lemma idsOf_node i t a ks :
  idsOf (LiveElement i t a ks) = i :: idsOfForest ks.
Proof. reflexivity. Qed.

Lemma idsOfForest_cons (k : LiveNode) (l : list LiveNode) :
  idsOfForest (k :: l) = idsOf k ++ idsOfForest l.
Proof. reflexivity. Qed.

Lemma idsOfForest_app (l1 l2 : list LiveNode) :
  idsOfForest (l1 ++ l2) = idsOfForest l1 ++ idsOfForest l2.
Proof. unfold idsOfForest. apply flat_map_app. Qed.

(** Induction on a tree and on a forest at once. *)
Lemma LiveNode_forest_ind (P : LiveNode -> Prop) (Q : list LiveNode -> Prop) :
  (forall i t a ks, Q ks -> P (LiveElement i t a ks)) ->
  Q [] ->
  (forall k l, P k -> Q l -> Q (k :: l)) ->
  (forall n, P n) /\ (forall l, Q l).
Proof.
  intros Hnode Hnil Hcons.
  assert (HP : forall n, P n).
  { induction n as [i t a ks IH] using LiveNode_ind'. apply Hnode.
    induction IH; auto. }
  split; [exact HP|]. induction l; auto.
Qed.

(** A change aimed at an identity the tree does not have changes nothing. *)
Lemma updateById_absent_both (target : nat) (f : LiveNode -> LiveNode) :
  (forall n, ~ In target (idsOf n) -> updateById target f n = n) /\
  (forall l, ~ In target (idsOfForest l) -> map (updateById target f) l = l).
Proof.
  apply LiveNode_forest_ind.
  - intros i t a ks IH Hnot. rewrite updateById_unfold. simpl in *.
    destruct (Nat.eqb_spec i target) as [->|Hne]; [tauto|].
    f_equal. apply IH. tauto.
  - reflexivity.
  - intros k l Hk Hl. rewrite idsOfForest_cons, in_app_iff. intros Hnot.
    simpl. f_equal; [apply Hk | apply Hl]; tauto.
Qed.

Lemma replaceFirst_none_both (pred : LiveNode -> bool) (new : LiveNode) :
  (forall n, replaceFirst pred new n = None -> findFirst pred n = None) /\
  (forall l, replaceFirstAmong pred new l = None -> findFirstAmong pred l = None).
Proof.
  apply LiveNode_forest_ind.
  - intros i t a ks IH. rewrite replaceFirst_unfold, findFirst_unfold.
    destruct (pred _); [discriminate|]. cbn [liveChildren].
    destruct (replaceFirstAmong pred new ks); [discriminate|]. auto.
  - reflexivity.
  - intros k l Hk Hl. simpl.
    destruct (replaceFirst pred new k); [discriminate|].
    rewrite (Hk eq_refl).
    destruct (replaceFirstAmong pred new l); [discriminate|]. auto.
Qed.

(** Replacing the first match splices the identities of the new node in
    place of those of the node found. *)
Lemma replaceFirst_splice_both (pred : LiveNode -> bool) (new : LiveNode) :
  (forall n n', replaceFirst pred new n = Some n' ->
     exists r, findFirst pred n = Some r /\ spliced (idsOf n) (idsOf n') r new) /\
  (forall l l', replaceFirstAmong pred new l = Some l' ->
     exists r, findFirstAmong pred l = Some r /\
               spliced (idsOfForest l) (idsOfForest l') r new).
Proof.
  apply LiveNode_forest_ind.
  - intros i t a ks IH n'. rewrite replaceFirst_unfold, findFirst_unfold.
    destruct (pred (LiveElement i t a ks)) eqn:Hp.
    + intros [= <-]. exists (LiveElement i t a ks). split; [reflexivity|].
      exists [], []. simpl. rewrite !app_nil_r. by split.
    + cbn [liveChildren].
      destruct (replaceFirstAmong pred new ks) as [ks'|] eqn:Hks; [|discriminate].
      intros [= <-]. destruct (IH ks' eq_refl) as (r & Hf & pre & post & Hi & Hi').
      exists r. split; [exact Hf|]. exists (i :: pre), post.
      rewrite !idsOf_node, Hi, Hi'.
      split; reflexivity.
  - discriminate.
  - intros k l Hk Hl l'. cbn [replaceFirstAmong findFirstAmong].
    destruct (replaceFirst pred new k) as [k'|] eqn:Hk'.
    + intros [= <-]. destruct (Hk k' eq_refl) as (r & Hf & pre & post & Hi & Hi').
      exists r. rewrite Hf. split; [reflexivity|].
      exists pre, (post ++ idsOfForest l).
      rewrite !idsOfForest_cons, Hi, Hi'. rewrite <- !app_assoc. split; reflexivity.
    + destruct (replaceFirstAmong pred new l) as [l''|] eqn:Hl''; [|discriminate].
      intros [= <-]. destruct (Hl l'' eq_refl) as (r & Hf & pre & post & Hi & Hi').
      exists r. rewrite (proj1 (replaceFirst_none_both pred new) k Hk'), Hf.
      split; [reflexivity|]. exists (idsOf k ++ pre), post.
      rewrite !idsOfForest_cons, Hi, Hi'. rewrite <- !app_assoc. split; reflexivity.
Qed.

Lemma updateById_here (f : LiveNode -> LiveNode) (n : LiveNode) :
  updateById (liveId n) f n = f n.
Proof. rewrite updateById_unfold. by rewrite Nat.eqb_refl. Qed.

(** Changing the node just put in is putting in the changed node. *)
Lemma updateById_replaceFirst_both (pred : LiveNode -> bool)
    (f : LiveNode -> LiveNode) (new : LiveNode) :
  (forall n, ~ In (liveId new) (idsOf n) ->
     replaceFirst pred (f new) n
     = option_map (updateById (liveId new) f) (replaceFirst pred new n)) /\
  (forall l, ~ In (liveId new) (idsOfForest l) ->
     replaceFirstAmong pred (f new) l
     = option_map (map (updateById (liveId new) f)) (replaceFirstAmong pred new l)).
Proof.
  apply LiveNode_forest_ind.
  - intros i t a ks IH Hnot. rewrite !replaceFirst_unfold.
    destruct (pred _).
    + simpl. by rewrite updateById_here.
    + rewrite idsOf_node in Hnot. simpl in Hnot.
      rewrite IH by tauto.
      destruct (replaceFirstAmong pred new ks) as [ks'|]; [|reflexivity].
      simpl. destruct (Nat.eqb_spec i (liveId new)); [tauto|reflexivity].
  - reflexivity.
  - intros k l Hk Hl. rewrite idsOfForest_cons, in_app_iff. intros Hnot.
    cbn [replaceFirstAmong]. rewrite Hk, Hl by tauto.
    destruct (replaceFirst pred new k) as [k'|]; simpl.
    + by rewrite (proj2 (updateById_absent_both _ f) l) by tauto.
    + destruct (replaceFirstAmong pred new l) as [l'|]; [|reflexivity].
      simpl. by rewrite (proj1 (updateById_absent_both _ f) k) by tauto.
Qed.

Lemma replaceFirstAmong_found (pred : LiveNode -> bool) (new r : LiveNode)
    (l : list LiveNode) :
  findFirstAmong pred l = Some r ->
  exists l', replaceFirstAmong pred new l = Some l'.
Proof.
  intros Hf. destruct (replaceFirstAmong pred new l) as [l'|] eqn:Hr; [eauto|].
  apply (proj2 (replaceFirst_none_both pred new)) in Hr. congruence.
Qed.

Lemma updateById_withSlot (f : LiveNode -> LiveNode) (new : LiveNode)
    (l : list LiveNode) :
  ~ In (liveId new) (idsOfForest l) ->
  map (updateById (liveId new) f) (withSlot new l) = withSlot (f new) l.
Proof.
  intros Hnot. unfold withSlot.
  destruct (findFirstAmong isEditorSlot l) as [r|] eqn:Hf.
  - rewrite (proj2 (updateById_replaceFirst_both isEditorSlot f new) l Hnot).
    destruct (replaceFirstAmong_found isEditorSlot new r l Hf) as [l' ->]. reflexivity.
  - rewrite map_app. simpl. rewrite updateById_here.
    by rewrite (proj2 (updateById_absent_both _ f) l Hnot).
Qed.

(** The identities after the slot is put in. *)
Lemma idsOf_withSlot (new : LiveNode) (l : list LiveNode) :
  (exists r, findFirstAmong isEditorSlot l = Some r /\
             spliced (idsOfForest l) (idsOfForest (withSlot new l)) r new) \/
  (findFirstAmong isEditorSlot l = None /\
   idsOfForest (withSlot new l) = idsOfForest l ++ idsOf new).
Proof.
  unfold withSlot. destruct (findFirstAmong isEditorSlot l) as [r|] eqn:Hf.
  - left. destruct (replaceFirstAmong_found isEditorSlot new r l Hf) as [l' Hl'].
    rewrite Hl'. simpl.
    destruct (proj2 (replaceFirst_splice_both isEditorSlot new) l l' Hl')
      as (r' & Hf' & Hs).
    exists r'. split; [congruence | exact Hs].
  - right. split; [reflexivity|]. rewrite idsOfForest_app. simpl.
    by rewrite app_nil_r.
Qed.

(** After the slot is put in it is the first slot. *)
Lemma findFirst_replaceFirst_both (new : LiveNode) :
  isEditorSlot new = true ->
  (forall n n', replaceFirst isEditorSlot new n = Some n' ->
                findFirst isEditorSlot n' = Some new) /\
  (forall l l', replaceFirstAmong isEditorSlot new l = Some l' ->
                findFirstAmong isEditorSlot l' = Some new).
Proof.
  intros Hnew. apply LiveNode_forest_ind.
  - intros i t a ks IH n'. rewrite replaceFirst_unfold.
    destruct (isEditorSlot (LiveElement i t a ks)) eqn:Hp.
    + intros [= <-]. rewrite findFirst_unfold. by rewrite Hnew.
    + destruct (replaceFirstAmong isEditorSlot new ks) as [ks'|] eqn:Hks; [|discriminate].
      intros [= <-]. rewrite findFirst_unfold.
      change (isEditorSlot (LiveElement i t a ks')) with (isEditorSlot (LiveElement i t a ks)).
      rewrite Hp. apply IH. reflexivity.
  - discriminate.
  - intros k l Hk Hl l'. cbn [replaceFirstAmong].
    destruct (replaceFirst isEditorSlot new k) as [k'|] eqn:Hk'.
    + intros [= <-]. simpl. by rewrite (Hk k' eq_refl).
    + destruct (replaceFirstAmong isEditorSlot new l) as [l''|] eqn:Hl''; [|discriminate].
      intros [= <-]. simpl.
      rewrite (proj1 (replaceFirst_none_both isEditorSlot new) k Hk').
      by apply Hl.
Qed.

Lemma findFirstAmong_app_none (pred : LiveNode -> bool) (l1 l2 : list LiveNode) :
  findFirstAmong pred l1 = None ->
  findFirstAmong pred (l1 ++ l2) = findFirstAmong pred l2.
Proof.
  induction l1 as [|k l1 IH]; [reflexivity|]. simpl.
  destruct (findFirst pred k); [discriminate|]. exact IH.
Qed.

Lemma findFirst_withSlot (new : LiveNode) (l : list LiveNode) :
  isEditorSlot new = true ->
  findFirstAmong isEditorSlot (withSlot new l) = Some new.
Proof.
  intros Hnew. unfold withSlot.
  destruct (findFirstAmong isEditorSlot l) as [r|] eqn:Hf.
  - destruct (replaceFirstAmong_found isEditorSlot new r l Hf) as [l' Hl'].
    rewrite Hl'. simpl. by apply (proj2 (findFirst_replaceFirst_both new Hnew) l).
  - rewrite findFirstAmong_app_none by exact Hf. simpl.
    rewrite findFirst_unfold. by rewrite Hnew.
Qed.

(** A change of attributes that keeps the slot keeps identities and
    the first slot. *)
Lemma getAttribute_setAttribute_ne (name other value : string)
    (attrs : list (string * string)) :
  name <> other ->
  DOM.getAttribute name (DOM.setAttribute other value attrs)
  = DOM.getAttribute name attrs.
Proof.
  intros Hne. induction attrs as [|[k v] attrs IH]; simpl.
  - destruct (String.eqb_spec other name); congruence.
  - destruct (String.eqb_spec k other) as [->|Hko]; simpl.
    + destruct (String.eqb_spec other name); congruence.
    + destruct (String.eqb_spec k name); [reflexivity | exact IH].
Qed.

Lemma slot_decorateView (attrs : list (string * string)) :
  DOM.getAttribute "slot" (decorateView attrs) = DOM.getAttribute "slot" attrs.
Proof.
  unfold decorateView, DOM.addClassToken.
  by rewrite !getAttribute_setAttribute_ne by discriminate.
Qed.

Section KeepsSlot.
Variable g : list (string * string) -> list (string * string).
Hypothesis g_slot : forall a, DOM.getAttribute "slot" (g a) = DOM.getAttribute "slot" a.
Variable target : nat.

Lemma isEditorSlot_mapLiveAttrs (n : LiveNode) :
  isEditorSlot (mapLiveAttrs g n) = isEditorSlot n.
Proof. destruct n. unfold isEditorSlot. simpl. by rewrite g_slot. Qed.

Lemma mapLiveAttrs_both :
  (forall n,
      idsOf (updateById target (mapLiveAttrs g) n) = idsOf n /\
      option_map liveId (findFirst isEditorSlot (updateById target (mapLiveAttrs g) n))
      = option_map liveId (findFirst isEditorSlot n)) /\
  (forall l,
      idsOfForest (map (updateById target (mapLiveAttrs g)) l) = idsOfForest l /\
      option_map liveId
        (findFirstAmong isEditorSlot (map (updateById target (mapLiveAttrs g)) l))
      = option_map liveId (findFirstAmong isEditorSlot l)).
Proof using g_slot.
  apply LiveNode_forest_ind.
  - intros i t a ks [IHids IHfirst]. rewrite updateById_unfold. cbn [liveId].
    destruct (Nat.eqb i target).
    + split; [reflexivity|]. rewrite !findFirst_unfold.
      rewrite isEditorSlot_mapLiveAttrs.
      destruct (isEditorSlot (LiveElement i t a ks)); reflexivity.
    + split; [by rewrite !idsOf_node, IHids|]. rewrite !findFirst_unfold.
      change (isEditorSlot (LiveElement i t a (map _ ks)))
        with (isEditorSlot (LiveElement i t a ks)).
      destruct (isEditorSlot (LiveElement i t a ks)); [reflexivity|exact IHfirst].
  - split; reflexivity.
  - intros k l [Hkids Hkfirst] [Hlids Hlfirst]. split.
    + cbn [map]. rewrite !idsOfForest_cons. by rewrite Hkids, Hlids.
    + simpl.
      destruct (findFirst isEditorSlot (updateById target (mapLiveAttrs g) k)) eqn:H1;
        destruct (findFirst isEditorSlot k) eqn:H2; simpl in *;
        try discriminate; [exact Hkfirst | exact Hlfirst].
Qed.
End KeepsSlot.

(** What putting the slot in does to the identities of a well-kept
    forest, the identities of the new node being fresh. *)
Lemma withSlot_identities (bound : nat) (new : LiveNode) (l : list LiveNode) :
  NoDup (idsOfForest l) ->
  (forall i, In i (idsOfForest l) -> i < bound) ->
  NoDup (idsOf new) ->
  (forall i, In i (idsOf new) -> bound <= i) ->
  NoDup (idsOfForest (withSlot new l)) /\
  (forall i, In i (idsOfForest (withSlot new l)) ->
             In i (idsOfForest l) \/ In i (idsOf new)) /\
  (forall i, In i (idsOf new) -> In i (idsOfForest (withSlot new l))) /\
  (forall i, In i (idsOfForest (withSlot new l)) -> i < bound ->
             option_map liveId (findFirstAmong isEditorSlot l) <> Some i).
Proof.
  intros Hnd Hlt Hnew Hge.
  destruct (idsOf_withSlot new l) as [(r & Hf & pre & post & Hi & Hi')|[Hf Hi']];
    rewrite Hi'.
  - rewrite Hi in Hnd, Hlt.
    apply NoDup_app in Hnd as (Hpre & Hdisj & Hrest).
    apply NoDup_app in Hrest as (Hr & Hdisj' & Hpost).
    assert (Hfresh : forall i, In i (idsOf new) -> ~ In i (pre ++ idsOf r ++ post)).
    { intros i Hin Hold. apply Hlt in Hold. apply Hge in Hin. lia. }
    repeat split.
    + apply NoDup_app. split; [exact Hpre|]. split.
      * intros i Hi1 Hi2. apply list_elem_of_In in Hi1, Hi2.
        apply in_app_iff in Hi2 as [Hi2|Hi2].
        -- apply (Hfresh i Hi2). apply in_app_iff. tauto.
        -- apply (Hdisj i); [by apply list_elem_of_In|].
           apply list_elem_of_In, in_app_iff. tauto.
      * apply NoDup_app. split; [exact Hnew|]. split; [|exact Hpost].
        intros i Hi1 Hi2. apply list_elem_of_In in Hi1, Hi2.
        apply (Hfresh i Hi1). rewrite !in_app_iff. tauto.
    + intros i. rewrite Hi, !in_app_iff. tauto.
    + intros i. rewrite !in_app_iff. tauto.
    + intros i Hin Hbound. rewrite Hf. simpl. intros [= <-].
      assert (Hhead : In (liveId r) (idsOf r)) by (destruct r; simpl; tauto).
      rewrite !in_app_iff in Hin. destruct Hin as [Hin|[Hin|Hin]].
      * apply (Hdisj (liveId r)); [by apply list_elem_of_In|].
        apply list_elem_of_In, in_app_iff. tauto.
      * apply Hge in Hin. lia.
      * apply (Hdisj' (liveId r)); by apply list_elem_of_In.
  - repeat split.
    + apply NoDup_app. split; [exact Hnd|]. split; [|exact Hnew].
      intros i Hi1 Hi2. apply list_elem_of_In in Hi1, Hi2.
      apply Hlt in Hi1. apply Hge in Hi2. lia.
    + intros i. rewrite in_app_iff. tauto.
    + intros i. rewrite in_app_iff. tauto.
    + intros i _ _. by rewrite Hf.
Qed.

End LightDOMFacts.

(* ===================================================================== *)
(** * Facts about documents: paths, changes, selectors *)
(* ===================================================================== *)

Module DOMFacts.
Import JSString DOM.

Lemma grew_refl n : grew n n.
Proof. destruct n; simpl; auto. Qed.

Lemma grew_trans n1 n2 n3 : grew n1 n2 -> grew n2 n3 -> grew n1 n3.
Proof.
  destruct n1, n2, n3; simpl; try tauto; try congruence.
  intros (-> & Hl & Ha) (-> & Hl' & Ha'). repeat split; [lia|].
  intros name Hn. by rewrite Ha', Ha.
Qed.

Lemma extends_refl d : extends d d.
Proof. intros p n Hn. exists n. split; [exact Hn | apply grew_refl]. Qed.

Lemma extends_trans d1 d2 d3 : extends d1 d2 -> extends d2 d3 -> extends d1 d3.
Proof.
  intros H12 H23 p n Hn. destruct (H12 p n Hn) as (n2 & Hn2 & Hg).
  destruct (H23 p n2 Hn2) as (n3 & Hn3 & Hg'). exists n3.
  split; [exact Hn3 | by apply (grew_trans n n2)].
Qed.

Lemma Grows_grew f n : Grows f -> grew n (f n).
Proof.
  intros Hf. specialize (Hf n). destruct n as [d|d|t a ks].
  - by rewrite Hf.
  - by rewrite Hf.
  - destruct Hf as (a' & extra & -> & Ha). simpl. repeat split; [|exact Ha].
    rewrite length_app. lia.
Qed.


(** The node at [p] after a change at or below [p]. *)
Lemma nodeAt_updateAt_below (p r : Path) (f : Node -> Node) (d : Node) :
  nodeAt p (updateAt (p ++ r) f d) = option_map (updateAt r f) (nodeAt p d).
Proof.
  revert d. induction p as [|i p IH]; intros d; [reflexivity|].
  destruct d as [x|x|t a ks]; simpl; [reflexivity | reflexivity |].
  destruct (decide (i < length ks)) as [Hlt|Hge].
  - destruct (lookup_lt_is_Some_2 ks i Hlt) as [k Hk].
    rewrite list_lookup_alter_eq, Hk. simpl. apply IH.
  - rewrite list_lookup_alter_eq.
    rewrite (lookup_ge_None_2 ks i) by lia. reflexivity.
Qed.

Lemma nodeAt_updateAt_here (p : Path) (f : Node -> Node) (d : Node) :
  nodeAt p (updateAt p f d) = option_map f (nodeAt p d).
Proof. by rewrite <- (app_nil_r p) at 2; rewrite nodeAt_updateAt_below. Qed.

(** A node that is there stays what it is when the change is made
    elsewhere: above it, or beside it. *)
Lemma nodeAt_updateAt_apart (c q : Path) (f : Node -> Node) (d n : Node) :
  Grows f ->
  ~ c `prefix_of` q ->
  nodeAt c d = Some n ->
  nodeAt c (updateAt q f d) = Some n.
Proof.
  intros Hf. revert q d. induction c as [|i c IH]; intros q d Hpre Hn.
  - destruct Hpre. apply prefix_nil.
  - destruct q as [|j q].
    + simpl. pose proof (Hf d) as Hd. destruct d as [x|x|t a ks]; try by rewrite Hd.
      destruct Hd as (a' & extra & -> & _). simpl in *.
      destruct (ks !! i) as [k|] eqn:Hk; [|discriminate].
      by rewrite (lookup_app_l_Some _ _ _ _ Hk).
    + destruct d as [x|x|t a ks]; [exact Hn | exact Hn |]. simpl in *.
      destruct (decide (i = j)) as [->|Hne].
      * rewrite list_lookup_alter_eq.
        destruct (ks !! j) as [k|]; [|discriminate]. simpl.
        apply IH; [|exact Hn]. intros Hp. apply Hpre. by apply prefix_cons.
      * by rewrite list_lookup_alter_ne.
Qed.

(** A change that grows an element keeps every node of the document. *)
Lemma extends_updateAt (q : Path) (f : Node -> Node) (d : Node) :
  Grows f -> extends d (updateAt q f d).
Proof.
  intros Hf. revert d. induction q as [|j q IH]; intros d p n Hn.
  - simpl. destruct p as [|i p].
    + injection Hn as <-. eexists. split; [reflexivity | by apply Grows_grew].
    + pose proof (Hf d) as Hd. destruct d as [x|x|t a ks];
        [rewrite Hd | rewrite Hd |]; try (exists n; split; [exact Hn | apply grew_refl]).
      destruct Hd as (a' & extra & -> & _). simpl in *.
      destruct (ks !! i) as [k|] eqn:Hk; [|discriminate].
      rewrite (lookup_app_l_Some _ _ _ _ Hk). exists n. split; [exact Hn | apply grew_refl].
  - destruct d as [x|x|t a ks]; try (exists n; split; [exact Hn | apply grew_refl]).
    destruct p as [|i p].
    + injection Hn as <-. eexists. split; [reflexivity|]. simpl.
      repeat split. by rewrite length_alter.
    + simpl in *. destruct (decide (i = j)) as [->|Hne].
      * rewrite list_lookup_alter_eq. destruct (ks !! j) as [k|]; [|discriminate].
        simpl. by apply IH.
      * rewrite list_lookup_alter_ne by done. exists n. split; [exact Hn | apply grew_refl].
Qed.

Lemma Node_ind' (P : Node -> Prop) :
  (forall d, P (Text d)) ->
  (forall d, P (Comment d)) ->
  (forall t a ks, Forall P ks -> P (Element t a ks)) ->
  forall n, P n.
Proof.
  intros Htext Hcomment Hel. fix IH 1.
  intros [d|d|t a ks]; [apply Htext | apply Hcomment |].
  apply Hel. induction ks as [|k ks IHks]; constructor; [apply IH | exact IHks].
Qed.

Lemma querySiblings_fix (sel : Selector) (parents : list Node) (here : Path) :
  forall l seen i,
    (fix siblings (seen : list Node) (i : nat) (l : list Node) : list Path :=
       match l with
       | [] => []
       | k :: l' =>
           querySelectorAllFrom sel parents seen (here ++ [i]) k
           ++ siblings (seen ++ [k]) (S i) l'
       end) seen i l
    = querySiblings sel parents here seen i l.
Proof.
  induction l as [|k l IH]; intros seen i; [reflexivity|].
  cbn [querySiblings]. f_equal. apply IH.
Qed.

Lemma querySelectorAllFrom_unfold (sel : Selector) (anc before : list Node)
    (here : Path) (n : Node) :
  querySelectorAllFrom sel anc before here n =
  (if isElement n && sel anc before n then [here] else []) ++
  match n with
  | Element _ _ ks => querySiblings sel (n :: anc) here [] 0 ks
  | _ => []
  end.
Proof.
  destruct n as [d|d|t a ks]; [reflexivity | reflexivity |].
  cbn [querySelectorAllFrom]. f_equal. apply querySiblings_fix.
Qed.

(** Every path [querySelectorAll] gives leads to an element the selector
    accepted. *)
Lemma querySelectorAllFrom_sound (sel : Selector) (n : Node) :
  forall anc before here q,
    In q (querySelectorAllFrom sel anc before here n) ->
    exists r m anc' before',
      q = here ++ r /\ nodeAt r n = Some m /\
      isElement m = true /\ sel anc' before' m = true.
Proof.
  induction n as [d|d|t a ks IH] using Node_ind'; intros anc before here q;
    rewrite querySelectorAllFrom_unfold; simpl; try tauto.
  rewrite in_app_iff. intros [Hhere|Hsib].
  - destruct (sel anc before (Element t a ks)) eqn:Hsel; [|destruct Hhere].
    destruct Hhere as [<-|[]]. exists [], (Element t a ks), anc, before.
    by rewrite app_nil_r.
  - assert (Hgen : forall parents seen i,
               In q (querySiblings sel parents here seen i ks) ->
               exists j k r m anc' before',
                 ks !! j = Some k /\ q = (here ++ [i + j]) ++ r /\
                 nodeAt r k = Some m /\ isElement m = true /\ sel anc' before' m = true).
    { clear Hsib. induction IH as [|k ks Hk _ IHks]; intros parents seen i; [intros []|].
      cbn [querySiblings]. rewrite in_app_iff. intros [Hin|Hin].
      - destruct (Hk _ _ _ _ Hin) as (r & m & anc' & before' & -> & Hm & He & Hs).
        exists 0, k, r, m, anc', before'. rewrite Nat.add_0_r. by repeat split.
      - destruct (IHks _ _ _ Hin) as (j & k' & r & m & anc' & before' & Hj & -> & Hm & He & Hs).
        exists (S j), k', r, m, anc', before'.
        replace (i + S j) with (S i + j) by lia. by repeat split. }
    destruct (Hgen _ _ _ Hsib) as (j & k & r & m & anc' & before' & Hj & -> & Hm & He & Hs).
    exists (j :: r), m, anc', before'. simpl. rewrite Hj.
    repeat split; auto. by rewrite <- app_assoc.
Qed.

Lemma querySelectorAll_sound (sel : Selector) (root : Node) (q : Path) :
  In q (querySelectorAll sel root) ->
  exists m anc before,
    nodeAt q root = Some m /\ isElement m = true /\ sel anc before m = true.
Proof.
  intros Hin. apply querySelectorAllFrom_sound in Hin
    as (r & m & anc & before & -> & Hm & He & Hs).
  by exists m, anc, before.
Qed.



End DOMFacts.

(* ===================================================================== *)
(** * Facts about [normalizeDOM] *)
(* ===================================================================== *)

Module NormalizeFacts.
Import JSString DOM Normalize LightDOMFacts DOMFacts.

Lemma Grows_classListAdd (token : string) : Grows (classListAdd token).
Proof.
  intros [d|d|t a ks]; [reflexivity | reflexivity |].
  exists (addClassToken token a), []. split; [by rewrite app_nil_r|].
  intros name Hname. unfold addClassToken. by apply getAttribute_setAttribute_ne.
Qed.

Lemma Grows_appendNodes (extra : list Node) : Grows (appendNodes extra).
Proof.
  intros [d|d|t a ks]; [reflexivity | reflexivity |]. by exists a, extra.
Qed.

Lemma extends_galleryStep (root : Node) (p : Path) : extends root (galleryStep root p).
Proof.
  unfold galleryStep. destruct (parentElement p); [|apply extends_refl].
  apply extends_updateAt, Grows_classListAdd.
Qed.

Lemma extends_fold_left (step : Node -> Path -> Node) (l : list Path) (root : Node) :
  (forall d p, extends d (step d p)) -> extends root (fold_left step l root).
Proof.
  intros Hstep. revert root. induction l as [|p l IH]; intros root; [apply extends_refl|].
  simpl. eapply extends_trans; [apply Hstep | apply IH].
Qed.

Lemma extends_galleryPass (root : Node) : extends root (galleryPass root).
Proof. apply extends_fold_left, extends_galleryStep. Qed.

Lemma extends_nameStep (root : Node) (p : Path) : extends root (nameStep root p).
Proof.
  unfold nameStep. destruct (nodeAt p root); [|apply extends_refl].
  destruct (negb _); [apply extends_refl|].
  apply extends_updateAt, Grows_appendNodes.
Qed.

Lemma attributesOf_grew (n n' : Node) (name : string) :
  grew n n' -> name <> "class" ->
  getAttribute name (attributesOf n') = getAttribute name (attributesOf n).
Proof.
  destruct n, n'; simpl; try tauto. intros (_ & _ & Ha) Hname. by apply Ha.
Qed.

Lemma payloadAt_extends (root cur : Node) (p : Path) :
  extends root cur -> is_Some (nodeAt p root) ->
  payloadAt p cur = payloadAt p root.
Proof.
  intros Hext [n Hn]. destruct (Hext p n Hn) as (n' & Hn' & Hg).
  unfold payloadAt. rewrite Hn, Hn'. by apply attributesOf_grew.
Qed.

Section WithBrowser.
Context `{B : Browser}.

Lemma Grows_insertAdjacentHTML (html : string) :
  Grows (insertAdjacentHTML_beforeend html).
Proof.
  intros [d|d|t a ks]; [reflexivity | reflexivity |].
  by exists a, (parseFragment (Element t a ks) html).
Qed.

Lemma captionStep_captionOf (root : Node) (p : Path) :
  captionStep root p =
  match captionOf (payloadAt p root) with
  | Ok (Some text) =>
      Ok (updateAt p (insertAdjacentHTML_beforeend (captionHTML text)) root)
  | Ok None => Ok root
  | Throw x => Throw x
  end.
Proof.
  unfold captionStep, payloadAt, captionOf.
  destruct (nodeAt p root) as [figure|]; [|reflexivity].
  destruct (getAttribute _ _) as [attrs|]; [|reflexivity].
  destruct (isEmpty attrs); [reflexivity|].
  destruct (JSON.parse attrs) as [value|]; [|reflexivity].
  destruct (JSON.getProperty "caption" value) as [[caption|]|]; try reflexivity.
  by destruct (JSON.ToBoolean caption).
Qed.

Lemma extends_captionStep (root root' : Node) (p : Path) :
  captionStep root p = Ok root' -> extends root root'.
Proof.
  rewrite captionStep_captionOf. destruct (captionOf _) as [[text|]|x]; [| |discriminate].
  - intros [= <-]. apply extends_updateAt, Grows_insertAdjacentHTML.
  - intros [= <-]. apply extends_refl.
Qed.

Lemma captionPass_cons (q : Path) (l : list Path) (cur : Node) :
  captionPass (q :: l) cur = rbind (captionStep cur q) (captionPass l).
Proof. reflexivity. Qed.

(** The caption pass goes through exactly when every payload it meets is
    accepted; the payloads are those of the document as it was parsed. *)
Lemma captionPass_outcome (root : Node) (filters : list Path) (cur : Node) :
  extends root cur ->
  Forall (fun q => is_Some (nodeAt q root)) filters ->
  match captionPass filters cur with
  | Ok cur' =>
      extends root cur' /\
      Forall (fun q => payloadAccepted (payloadAt q root) = true) filters
  | Throw x =>
      Exists (fun q => captionOf (payloadAt q root) = Throw x) filters
  end.
Proof.
  intros Hext Hvalid. revert cur Hext.
  induction Hvalid as [|q filters Hq _ IH]; intros cur Hext; [by split|].
  rewrite captionPass_cons, captionStep_captionOf, (payloadAt_extends root cur q Hext Hq).
  destruct (captionOf (payloadAt q root)) as [c|x] eqn:Hc.
  - assert (Hacc : payloadAccepted (payloadAt q root) = true)
      by (unfold payloadAccepted; by rewrite Hc).
    assert (Hnext : forall cur', extends cur cur' ->
              match captionPass filters cur' with
              | Ok cur'' =>
                  extends root cur'' /\
                  Forall (fun q => payloadAccepted (payloadAt q root) = true) (q :: filters)
              | Throw x =>
                  Exists (fun q => captionOf (payloadAt q root) = Throw x) (q :: filters)
              end).
    { intros cur' Hext'. specialize (IH cur' (extends_trans _ _ _ Hext Hext')).
      destruct (captionPass filters cur'); [|by apply Exists_cons_tl].
      destruct IH. split; [done|]. by constructor. }
    destruct c as [text|]; simpl.
    + apply Hnext, extends_updateAt, Grows_insertAdjacentHTML.
    + apply Hnext, extends_refl.
  - simpl. by apply Exists_cons_hd.
Qed.

Lemma filters_valid (root : Node) :
  Forall (fun q => is_Some (nodeAt q root)) (filtersWithoutChildren root).
Proof.
  apply Forall_forall. intros q Hq. apply list_elem_of_In in Hq.
  unfold filtersWithoutChildren in Hq. apply filter_In in Hq as [Hq _].
  apply querySelectorAll_sound in Hq as (m & _ & _ & Hm & _). by exists m.
Qed.


End WithBrowser.




Section WithBrowser.
Context `{B : Browser}.



End WithBrowser.

Lemma updateAt_not_element (r : Path) (f : Node -> Node) (n : Node) :
  Grows f -> isElement n = false -> updateAt r f n = n.
Proof.
  intros Hf Hn. specialize (Hf n).
  destruct n as [d|d|t a ks]; [| |discriminate]; by destruct r.
Qed.

Lemma keptChildren_below (n0 i : nat) (r : Path) (f : Node -> Node) (m : Node) :
  Grows f -> keptChildren n0 m -> keptChildren n0 (updateAt (i :: r) f m).
Proof.
  intros Hf (t & a & ks & extra & -> & Hlen & Hextra). simpl.
  rewrite alter_app. destruct (decide (i < length ks)).
  - exists t, a, (alter (updateAt r f) i ks), extra. by rewrite length_alter.
  - exists t, a, ks, (alter (updateAt r f) (i - length ks) extra).
    repeat split; [exact Hlen|]. apply Forall_alter; [exact Hextra|].
    intros x _ Hx. by rewrite updateAt_not_element.
Qed.

Lemma nothingAdded_updateAt (p q : Path) (n0 : nat) (f : Node -> Node) (root : Node) :
  Grows f ->
  (q = p -> forall m, keptChildren n0 m -> keptChildren n0 (f m)) ->
  nothingAdded p n0 root -> nothingAdded p n0 (updateAt q f root).
Proof.
  intros Hf Hhere (m & Hm & Hkept).
  destruct (decide (p `prefix_of` q)) as [[r ->]|Hapart].
  - unfold nothingAdded. rewrite nodeAt_updateAt_below, Hm. simpl.
    eexists. split; [reflexivity|]. destruct r as [|i r].
    + apply Hhere; [by rewrite app_nil_r | exact Hkept].
    + by apply keptChildren_below.
  - exists m. split; [|exact Hkept]. by apply nodeAt_updateAt_apart.
Qed.

Lemma keptChildren_classListAdd (n0 : nat) (token : string) (m : Node) :
  keptChildren n0 m -> keptChildren n0 (classListAdd token m).
Proof.
  intros (t & a & ks & extra & -> & Hlen & Hextra). simpl.
  by exists t, (addClassToken token a), ks, extra.
Qed.

Lemma keptChildren_appendText (n0 : nat) (data : string) (m : Node) :
  keptChildren n0 m -> keptChildren n0 (appendNodes [Text data] m).
Proof.
  intros (t & a & ks & extra & -> & Hlen & Hextra). simpl.
  exists t, a, ks, (extra ++ [Text data]). rewrite app_assoc.
  repeat split; [exact Hlen|]. apply Forall_app. split; [exact Hextra|].
  by repeat constructor.
Qed.

Lemma nothingAdded_galleryPass (p : Path) (n0 : nat) (root : Node) :
  nothingAdded p n0 root -> nothingAdded p n0 (galleryPass root).
Proof.
  unfold galleryPass. generalize (querySelectorAll galleryFigure root) as l.
  intros l. revert root. induction l as [|q l IH]; intros root Hroot; [exact Hroot|].
  simpl. apply IH. unfold galleryStep. destruct (parentElement q); [|exact Hroot].
  apply nothingAdded_updateAt; [apply Grows_classListAdd| |exact Hroot].
  intros _ m. apply keptChildren_classListAdd.
Qed.

Lemma nothingAdded_fold_nameStep (p : Path) (n0 : nat) (l : list Path) (root : Node) :
  nothingAdded p n0 root -> nothingAdded p n0 (fold_left nameStep l root).
Proof.
  revert root. induction l as [|q l IH]; intros root Hroot; [exact Hroot|].
  simpl. apply IH. unfold nameStep. destruct (nodeAt q root); [|exact Hroot].
  destruct (negb _); [exact Hroot|].
  apply nothingAdded_updateAt; [apply Grows_appendNodes| |exact Hroot].
  intros _ m. apply keptChildren_appendText.
Qed.

Section WithBrowser.
Context `{B : Browser}.

End WithBrowser.

Section WithBrowser.
Context `{B : Browser}.








End WithBrowser.

End NormalizeFacts.

(* ===================================================================== *)
(** * Facts about the host: serialization, the bound input, the intake *)
(* ===================================================================== *)

Module HostFacts.
Import JSString Host LightDOMFacts.

Section Facts.
Context `{B : Browser} `{E : Engine}.

Lemma logAll_nil (h : Host) : logAll [] h = h.
Proof. destruct h; unfold logAll; simpl. by rewrite app_nil_r. Qed.

Lemma logAll_logAll (l1 l2 : list Effect) (h : Host) :
  logAll l2 (logAll l1 h) = logAll (l1 ++ l2) h.
Proof. unfold logAll; simpl. by rewrite app_assoc. Qed.

Lemma log_logAll (e : Effect) (h : Host) : log e h = logAll [e] h.
Proof. reflexivity. Qed.

(** *** [serialize] *)

Lemma serialize_returns (h : Host) :
  serialize h =
  Returned
    (match editor h with
     | None => EmptyString
     | Some e =>
         if String.eqb (toLowerCase (serializer h)) "json"
         then stringify (getJSON (state e))
         else getHTML (state e)
     end) h.
Proof.
  unfold serialize, bind, get, ret.
  destruct (editor h) as [e|]; [|reflexivity].
  by destruct (String.eqb _ _).
Qed.


(** *** [updateInputElementValue] *)

(** C6. [updateInputElementValue()] writes [serialize()] into the value
    of the bound input when an editor is held, the host is not
    readonly and the input resolves; when the host is readonly, or
    holds no editor, or the input does not resolve, nothing at all
    changes. *)
Theorem updateInputElementValue_spec (h : Host) :
  (forall id e,
      inputElement h = Some id -> editor h = Some e -> readonly h = false ->
      exists value,
        serialize h = Returned value h /\
        updateInputElementValue h
        = Returned tt (set_page (<[id := value]> (page h)) h)) /\
  (readonly h = true \/ editor h = None \/ inputElement h = None ->
   updateInputElementValue h = Returned tt h).
Proof.
  split.
  - intros id e Hin Hed Hro. rewrite serialize_returns, Hed.
    eexists. split; [reflexivity|].
    unfold updateInputElementValue, bind, get.
    rewrite Hin, Hed, Hro, serialize_returns, Hed. reflexivity.
  - intros Hcase. unfold updateInputElementValue, bind, get, ret.
    destruct (inputElement h), (editor h), (readonly h); try reflexivity.
    destruct Hcase as [?|[?|?]]; discriminate.
Qed.

(** *** The intake *)

Lemma mapM_dispatchFileAccept (files : list File) (h : Host) :
  mapM dispatchFileAccept files h =
  Returned (fileAcceptOutcomes (effects h) files)
           (logAll (acceptTrace (fileAcceptOutcomes (effects h) files)) h).
Proof.
  revert h. induction files as [|f files IH]; intros h; simpl.
  - unfold ret. by rewrite logAll_nil.
  - unfold bind at 1. unfold dispatchFileAccept at 1.
    unfold bind, get, modify, ret. rewrite IH. simpl.
    rewrite log_logAll, logAll_logAll. reflexivity.
Qed.

Lemma mapM_attachments (view : nat) (files : list File) (h : Host) :
  mapM (toAttachment view) files h =
  Returned (attachmentsFor view (nextURL h) files)
           (match files with
            | [] => h
            | _ => set_nextURL (nextURL h + N.of_nat (length files))%N h
            end).
Proof.
  revert h. induction files as [|f files IH]; intros h; [reflexivity|].
  cbn [mapM]. unfold bind at 1. unfold toAttachment at 1, createObjectURL.
  unfold bind, get, modify, ret. rewrite IH. simpl.
  f_equal. destruct files as [|g files]; simpl.
  - f_equal. lia.
  - unfold set_nextURL; simpl. f_equal. lia.
Qed.

Lemma attachmentsFor_files (view : nat) (url : N) (files : list File) :
  map file (attachmentsFor view url files) = files.
Proof. revert url. induction files; intros; simpl; [done|]. by rewrite IHfiles. Qed.

Lemma attachmentsFor_view (view : nat) (url : N) (files : list File) :
  Forall (fun a => Host.view a = view) (attachmentsFor view url files).
Proof. revert url. induction files; intros; simpl; constructor; auto. Qed.

Lemma fileAcceptOutcomes_files (before : list Effect) (files : list File) :
  map fst (fileAcceptOutcomes before files) = files.
Proof. revert before. induction files; intros; simpl; [done|]. by rewrite IHfiles. Qed.

Lemma forEach_dispatchAddAttachment (atts : list AttachmentManager) (h : Host) :
  forEach dispatchAddAttachment atts h = Returned tt (logAll (addAttachmentTrace atts) h).
Proof.
  revert h. induction atts as [|a atts IH]; intros h; simpl.
  - unfold ret. by rewrite logAll_nil.
  - unfold bind, dispatchAddAttachment, modify. rewrite IH.
    by rewrite log_logAll, logAll_logAll.
Qed.

Lemma transformFilesToAttachments_live (h : Host) (e : Editor) (files : list File) :
  editor h = Some e ->
  transformFilesToAttachments (Some files) h =
  match files with
  | [] => Returned None h
  | _ => Returned (Some (attachmentsFor (editorId e) (nextURL h) files))
           (set_nextURL (nextURL h + N.of_nat (length files))%N h)
  end.
Proof.
  intros He. unfold transformFilesToAttachments, bind at 1, get. rewrite He.
  destruct files as [|f fs]; [reflexivity|].
  unfold bind. rewrite mapM_attachments. reflexivity.
Qed.

Lemma insertAttachments_live (h : Host) (e : Editor) (atts : list AttachmentManager) :
  editor h = Some e ->
  insertAttachments atts h =
  Returned tt
    (log (SetAttachment (editorId e) atts)
       (update_editor
          (fun e => mkEditor (editorId e) (options e)
                      (runSetAttachment atts (state e)) (listeners e)) h)).
Proof.
  intros He. unfold insertAttachments, bind, get, modify. by rewrite He.
Qed.

Lemma attachmentsFor_length (view : nat) (url : N) (files : list File) :
  length (attachmentsFor view url files) = length files.
Proof. by rewrite <- (length_map file), attachmentsFor_files. Qed.

Lemma handleFiles_live (h : Host) (e : Editor) (files : list File) :
  editor h = Some e ->
  let events := fileAcceptOutcomes (effects h) files in
  let h1 := logAll (acceptTrace events) h in
  let atts := attachmentsFor (editorId e) (nextURL h) (allowedFiles events) in
  handleFiles (Some files) h =
  match atts with
  | [] => Returned Pending h1
  | _ => Returned Fulfilled
           (afterInsertion e atts
              (set_nextURL (nextURL h + N.of_nat (length atts))%N h1))
  end.
Proof.
  intros He events h1 atts.
  assert (He1 : editor h1 = Some e) by exact He.
  unfold handleFiles, bind at 1, get. rewrite He.
  unfold bind at 1. rewrite mapM_dispatchFileAccept.
  fold events h1 (allowedFiles events).
  unfold bind at 1. rewrite (transformFilesToAttachments_live h1 e _ He1).
  change (nextURL h1) with (nextURL h). subst atts.
  rewrite attachmentsFor_length.
  destruct (allowedFiles events) as [|f fs]; [reflexivity|].
  cbn [attachmentsFor length Nat.leb].
  unfold bind at 1.
  erewrite insertAttachments_live by exact He1.
  unfold bind. rewrite forEach_dispatchAddAttachment. reflexivity.
Qed.

Lemma effects_afterInsertion (e : Editor) (atts : list AttachmentManager) (h : Host) :
  effects (afterInsertion e atts h)
  = effects h ++ SetAttachment (editorId e) atts :: addAttachmentTrace atts.
Proof. unfold afterInsertion; simpl. by rewrite <- app_assoc. Qed.

(** Without an editor [handleFiles] does nothing and its promise is
    fulfilled at once. *)
Lemma handleFiles_no_editor (h : Host) (files : option (list File)) :
  editor h = None -> handleFiles files h = Returned Fulfilled h.
Proof. intros He. unfold handleFiles, bind, get. by rewrite He. Qed.

(** With an editor the promise is settled exactly when an attachment
    was inserted: it stays pending when every file was refused, and
    for a collection with no file. *)
Lemma handleFiles_promise (h : Host) (e : Editor) (files : list File) :
  editor h = Some e ->
  exists h',
    handleFiles (Some files) h
    = Returned (match allowedFiles (fileAcceptOutcomes (effects h) files) with
                | [] => Pending
                | _ => Fulfilled
                end) h'.
Proof.
  intros He. rewrite (handleFiles_live h e files He).
  destruct (allowedFiles _); simpl; eauto.
Qed.

(** The trace of a run of [handleFiles] on a host with an editor. *)
Lemma handleFiles_trace (h : Host) (e : Editor) (files : list File) :
  editor h = Some e ->
  let events := fileAcceptOutcomes (effects h) files in
  let atts := attachmentsFor (editorId e) (nextURL h) (allowedFiles events) in
  exists p h',
    handleFiles (Some files) h = Returned p h' /\
    effects h' = effects h ++ acceptTrace events ++ insertionTrace (editorId e) atts.
Proof.
  intros He events atts. rewrite (handleFiles_live h e files He).
  fold events atts. destruct atts as [|a atts'] eqn:Hatts.
  - do 2 eexists. split; [reflexivity|]. simpl. by rewrite app_nil_r.
  - do 2 eexists. split; [reflexivity|].
    rewrite effects_afterInsertion. simpl. by rewrite <- app_assoc.
Qed.

(** C4, as the code has it. On a host that holds an editor, for every
    collection of files: each file gets one file-accept notification, in
    order; the attachments are those of the files whose notification was
    not canceled, one each and none for a canceled one; they are
    inserted by one command, after which each gets one add-attachment
    notification. *)
Theorem handleFiles_accepts_then_inserts (h : Host) (e : Editor) (files : list File) :
  editor h = Some e ->
  exists (events : list (File * bool)) (atts : list AttachmentManager)
         (p : Promise) (h' : Host),
    handleFiles (Some files) h = Returned p h' /\
    events = fileAcceptOutcomes (effects h) files /\
    map fst events = files /\
    map file atts = map fst (List.filter (fun ev => negb (snd ev)) events) /\
    Forall (fun a => view a = editorId e) atts /\
    effects h' = effects h ++ acceptTrace events ++ insertionTrace (editorId e) atts.
Proof.
  intros He.
  destruct (handleFiles_trace h e files He) as (p & h' & Hrun & Heff).
  exists (fileAcceptOutcomes (effects h) files).
  exists (attachmentsFor (editorId e) (nextURL h)
            (allowedFiles (fileAcceptOutcomes (effects h) files))).
  exists p, h'. repeat split; auto.
  - apply fileAcceptOutcomes_files.
  - apply attachmentsFor_files.
  - apply attachmentsFor_view.
Qed.

(** Without an editor the drop listener leaves the event alone. *)
Lemma handleDropFile_no_editor (h : Host) (event : option DOMEvent) :
  editor h = None ->
  handleDropFile event h = Returned (mkHandled false Fulfilled) h.
Proof. intros He. unfold handleDropFile, bind, get. by rewrite He. Qed.

Lemma handleDropFile_live (h : Host) (e : Editor) (dataTransfer : option (list File)) :
  editor h = Some e ->
  handleDropFile (Some (DragEvent dataTransfer)) h =
  match dataTransfer with
  | None | Some [] => Returned (mkHandled false Fulfilled) h
  | Some files =>
      match handleFiles (Some files) h with
      | Returned p h' => Returned (mkHandled true p) h'
      | Thrown x h' => Thrown x h'
      end
  end.
Proof.
  intros He. unfold handleDropFile, bind, get. rewrite He.
  by destruct dataTransfer as [[|f fs]|].
Qed.

(** C5, as the code has it. On a host that holds an editor, for every
    drop event: with no file the default is not prevented and nothing
    changes; with files the default is prevented, the files go to
    [handleFiles], and one attachment is made and inserted for each
    file that was accepted. *)
Theorem handleDropFile_spec (h : Host) (e : Editor)
    (dataTransfer : option (list File)) :
  editor h = Some e ->
  match dataTransfer with
  | None | Some [] =>
      handleDropFile (Some (DragEvent dataTransfer)) h
      = Returned (mkHandled false Fulfilled) h
  | Some files =>
      exists (p : Promise) (h' : Host) (atts : list AttachmentManager),
        handleFiles (Some files) h = Returned p h' /\
        handleDropFile (Some (DragEvent dataTransfer)) h
        = Returned (mkHandled true p) h' /\
        map file atts = allowedFiles (fileAcceptOutcomes (effects h) files) /\
        effects h'
        = effects h ++ acceptTrace (fileAcceptOutcomes (effects h) files)
            ++ insertionTrace (editorId e) atts
  end.
Proof.
  intros He. rewrite (handleDropFile_live h e dataTransfer He).
  destruct dataTransfer as [[|f fs]|]; try reflexivity.
  destruct (handleFiles_trace h e (f :: fs) He) as (p & h' & Hrun & Heff).
  exists p, h'. eexists. rewrite Hrun.
  repeat split; [apply attachmentsFor_files | exact Heff].
Qed.

(** *** The serializer, compared *)

Lemma defaultOptions_returns (h : Host) (element : nat) :
  __defaultOptions element h =
  if negb (isEmpty (storedValue h)) && String.eqb (toLowerCase (serializer h)) "json"
  then match JSON.parse (storedValue h) with
       | Some doc => Returned (defaultsWith h element (JSONContent doc)) h
       | None => Thrown SyntaxError h
       end
  else Returned (defaultsWith h element (HTMLContent (storedValue h))) h.
Proof.
  unfold __defaultOptions, bind, get. fold (storedValue h).
  destruct (negb _ && _); [|reflexivity].
  by destruct (JSON.parse _).
Qed.


Lemma setupEditor_cases (h : Host) (element : nat) :
  __setupEditor element h =
  if isEmpty (serializer h) || String.eqb (serializer h) "html"
  then bind (normalizeDOM (inputElement h) parseFromString)
         (fun _ => construct element) h
  else construct element h.
Proof.
  unfold __setupEditor, bind at 1, get.
  destruct (isEmpty _ || _); reflexivity.
Qed.

Lemma isEmpty_true (s : string) : isEmpty s = true <-> s = EmptyString.
Proof. destruct s; simpl; split; congruence. Qed.


(** *** Rebuilding the editor *)

Lemma set_page_same (h : Host) : set_page (page h) h = h.
Proof. by destruct h. Qed.

(** [normalizeDOM] touches the page and nothing else. *)
Lemma normalizeDOM_frame (ie : option string) (parser : string -> DOM.Document)
    (h : Host) :
  (exists pg, normalizeDOM ie parser h = Returned tt (set_page pg h)) \/
  (exists x, normalizeDOM ie parser h = Thrown x h).
Proof.
  unfold normalizeDOM. destruct ie as [id|].
  - unfold bind, get. destruct (page h !! id) as [value|].
    + unfold ofResult. destruct (Normalize.normalizeValue parser value) as [[html|]|x].
      * left. exists (<[id := html]> (page h)). reflexivity.
      * left. exists (page h). unfold ret. by rewrite set_page_same.
      * right. by exists x.
    + left. exists (page h). unfold ret. by rewrite set_page_same.
  - left. exists (page h). unfold ret. by rewrite set_page_same.
Qed.

Lemma construct_frame (element : nat) (h : Host) :
  (exists e, construct element h = Returned e (afterConstruct element h) /\
             container e = element) \/
  (exists x, construct element h = Thrown x h).
Proof.
  unfold construct, allOptions, bind. rewrite defaultOptions_returns.
  destruct (negb _ && _).
  - destruct (JSON.parse _) as [doc|].
    + left. eexists.
      split; [unfold ret, editorOptions, newEditor, bind, get, modify|]; reflexivity.
    + right. eexists. reflexivity.
  - left. eexists.
    split; [unfold ret, editorOptions, newEditor, bind, get, modify|]; reflexivity.
Qed.

Lemma setupEditor_frame (element : nat) (h : Host) :
  (exists e pg, __setupEditor element h
                = Returned e (afterConstruct element (set_page pg h)) /\
                container e = element) \/
  (exists x pg, __setupEditor element h = Thrown x (set_page pg h)).
Proof.
  rewrite setupEditor_cases. destruct (isEmpty _ || _).
  - unfold bind.
    destruct (normalizeDOM_frame (inputElement h) parseFromString h)
      as [[pg ->]|[x ->]].
    + destruct (construct_frame element (set_page pg h)) as [(e & -> & He)|[x ->]].
      * left. by exists e, pg.
      * right. by exists x, pg.
    + right. exists x, (page h). by rewrite set_page_same.
  - destruct (construct_frame element h) as [(e & -> & He)|[x ->]].
    + left. exists e, (page h). by rewrite set_page_same.
    + right. exists x, (page h). by rewrite set_page_same.
Qed.

Lemma rebuildEditor_unfold (h : Host) :
  rebuildEditor h =
  match __setupEditor (nextNode h) (afterSlot h) with
  | Returned e h2 => Returned tt (finishRebuild (nextNode h) e h2)
  | Thrown x h2 => Thrown x h2
  end.
Proof.
  unfold rebuildEditor. unfold bind at 1. unfold get at 1.
  unfold bind at 1. unfold modify at 1.
  unfold bind at 1. unfold modify at 1.
  unfold bind at 1. cbn [liveId].
  change (set_lightDOM _ (set_nextNode (S (nextNode h)) h)) with (afterSlot h).
  destruct (__setupEditor (nextNode h) (afterSlot h)) as [e h2|x h2]; [|reflexivity].
  unfold bind, modify, get, __bindEditorListeners, requestUpdate, finishRebuild.
  cbn -[findFirstAmong].
  unfold mountedView.
  destruct (findFirstAmong _ _) as [d|]; [|reflexivity].
  destruct (findFirstAmong isProseMirror (liveChildren d)); reflexivity.
Qed.
(** *** The invariant of the light DOM *)

Lemma WellFormed_ext (h1 h2 : Host) :
  lightDOM h2 = lightDOM h1 -> nextNode h2 = nextNode h1 ->
  editor h2 = editor h1 -> retired h2 = retired h1 ->
  WellFormed h1 -> WellFormed h2.
Proof.
  intros Hl Hn He Hr [H1 H2 H3 H4 H5].
  split; unfold instances, slottedEditor in *; rewrite ?Hl, ?Hn, ?He, ?Hr; auto.
Qed.

Lemma lightDOM_afterConstruct (h : Host) (pg : gmap string string) :
  ~ In (nextNode h) (idsOfForest (lightDOM h)) ->
  lightDOM (afterConstruct (nextNode h) (set_page pg (afterSlot h)))
  = withSlot (finalSlot (nextNode h)) (lightDOM h).
Proof.
  intros Hfresh. unfold afterConstruct, afterSlot. cbn [lightDOM set_lightDOM
    set_nextEditor set_nextNode set_page nextNode].
  apply (updateById_withSlot
           (appendLiveChild (viewNode (S (nextNode h)))) (slotDiv (nextNode h) [])).
  exact Hfresh.
Qed.

Lemma ids_decorated (found : option LiveNode) (l : list LiveNode) :
  idsOfForest (decorated found l) = idsOfForest l /\
  option_map liveId (findFirstAmong isEditorSlot (decorated found l))
  = option_map liveId (findFirstAmong isEditorSlot l).
Proof.
  destruct found as [el|]; [|by split].
  apply (proj2 (mapLiveAttrs_both decorateView slot_decorateView (liveId el))).
Qed.

Lemma fresh_nextNode (h : Host) :
  WellFormed h -> ~ In (nextNode h) (idsOfForest (lightDOM h)).
Proof. intros Hwf Hin. apply (wf_bound h Hwf) in Hin. lia. Qed.

(** An old instance is mounted nowhere once the slot is put in. *)
Lemma old_instance_unmounted (h : Host) (new : LiveNode) (old : Editor) :
  WellFormed h ->
  NoDup (idsOf new) ->
  (forall i, In i (idsOf new) -> nextNode h <= i) ->
  In old (instances h) ->
  ~ In (container old) (idsOfForest (withSlot new (lightDOM h))).
Proof.
  intros Hwf Hnd Hge Hold Hin.
  destruct (withSlot_identities (nextNode h) new (lightDOM h)
              (wf_nodup h Hwf) (wf_bound h Hwf) Hnd Hge) as (_ & Hsub & _ & Hfirst).
  pose proof (wf_instances h Hwf old Hold) as Hlt.
  specialize (Hfirst _ Hin Hlt).
  destruct (Hsub _ Hin) as [Hin'|Hin']; [|apply Hge in Hin'; lia].
  unfold instances in Hold. destruct (editor h) as [cur|] eqn:Hcur.
  - destruct Hold as [<-|Hold].
    + apply Hfirst. by apply (wf_current h Hwf cur).
    + by apply (wf_retired h Hwf old).
  - by apply (wf_retired h Hwf old).
Qed.

Lemma finalSlot_ids (d : nat) :
  NoDup (idsOf (finalSlot d)) /\ (forall i, In i (idsOf (finalSlot d)) -> d <= i) /\
  forall i, In i (idsOf (finalSlot d)) -> i < S (S d).
Proof.
  simpl. repeat split.
  - apply NoDup_cons. split; [|apply NoDup_singleton].
    rewrite list_elem_of_In. simpl. lia.
  - intros i [<-|[<-|[]]]; lia.
  - intros i [<-|[<-|[]]]; lia.
Qed.

Lemma emptySlot_ids (d : nat) :
  NoDup (idsOf (slotDiv d [])) /\ (forall i, In i (idsOf (slotDiv d [])) -> d <= i) /\
  forall i, In i (idsOf (slotDiv d [])) -> i < S d.
Proof.
  simpl. repeat split.
  - apply NoDup_singleton.
  - intros i [<-|[]]; lia.
  - intros i [<-|[]]; lia.
Qed.

(** The host after the slot is put in, whatever else changed. *)
Lemma WellFormed_withSlot (h h' : Host) (new : LiveNode) (bound : nat) :
  WellFormed h ->
  NoDup (idsOf new) ->
  (forall i, In i (idsOf new) -> nextNode h <= i) ->
  (forall i, In i (idsOf new) -> i < bound) ->
  nextNode h <= bound ->
  idsOfForest (lightDOM h') = idsOfForest (withSlot new (lightDOM h)) ->
  nextNode h' = bound ->
  (forall e, In e (retired h') -> In e (instances h)) ->
  (forall e, editor h' = Some e ->
             In e (instances h) \/
             (container e < bound /\
              option_map liveId (slottedEditor h') = Some (container e))) ->
  WellFormed h'.
Proof.
  intros Hwf Hnd Hge Hlt Hbound Hids Hnext Hret Hcur.
  destruct (withSlot_identities (nextNode h) new (lightDOM h)
              (wf_nodup h Hwf) (wf_bound h Hwf) Hnd Hge) as (Hnd' & Hsub & _ & _).
  split.
  - by rewrite Hids.
  - rewrite Hids, Hnext. intros i Hin. destruct (Hsub i Hin) as [Hin'|Hin'].
    + apply (wf_bound h Hwf) in Hin'. lia.
    + by apply Hlt.
  - rewrite Hnext. intros e. unfold instances.
    destruct (editor h') as [cur|] eqn:Hed.
    + intros [<-|Hin].
      * destruct (Hcur cur eq_refl) as [Hold|[Hc _]]; [|exact Hc].
        apply (wf_instances h Hwf) in Hold. lia.
      * apply Hret, (wf_instances h Hwf) in Hin. lia.
    + intros Hin. apply Hret, (wf_instances h Hwf) in Hin. lia.
  - intros e Hin. rewrite Hids.
    by apply old_instance_unmounted; [| | |apply Hret].
  - intros e He. rewrite Hids. intros Hin.
    destruct (Hcur e He) as [Hold|[_ Hfirst]]; [|exact Hfirst].
    by destruct (old_instance_unmounted h new e Hwf Hnd Hge Hold).
Qed.

(** What a rebuild that returns leaves behind. *)
Lemma rebuildEditor_returned (h h' : Host) :
  WellFormed h ->
  rebuildEditor h = Returned tt h' ->
  WellFormed h' /\
  exists e,
    editor h' = Some e /\
    container e = nextNode h /\
    retired h' = instances h /\
    In (container e) (idsOfForest (lightDOM h')).
Proof.
  intros Hwf. rewrite rebuildEditor_unfold.
  destruct (setupEditor_frame (nextNode h) (afterSlot h))
    as [(e & pg & -> & He)|(x & pg & ->)]; [|discriminate].
  intros [= <-].
  set (d := nextNode h) in *.
  set (h2 := afterConstruct d (set_page pg (afterSlot h))).
  assert (Hl2 : lightDOM h2 = withSlot (finalSlot d) (lightDOM h))
    by (apply lightDOM_afterConstruct, fresh_nextNode, Hwf).
  set (found := mountedView d (lightDOM (update_editor bindListeners
                                           (set_editor (Some e) h2)))).
  assert (Hl' : lightDOM (finishRebuild d e h2) = decorated found (lightDOM h2))
    by reflexivity.
  destruct (ids_decorated found (lightDOM h2)) as [Hids Hfirst].
  rewrite Hl2 in Hids, Hfirst.
  destruct (finalSlot_ids d) as (Hnd & Hge & Hlt).
  destruct (withSlot_identities d (finalSlot d) (lightDOM h)
              (wf_nodup h Hwf) (wf_bound h Hwf) Hnd Hge) as (_ & _ & Hnew & _).
  assert (Hins : retired (finishRebuild d e h2) = instances h) by reflexivity.
  split.
  - apply (WellFormed_withSlot h _ (finalSlot d) (S (S d)) Hwf Hnd Hge Hlt).
    + subst d. lia.
    + by rewrite Hl', Hl2.
    + reflexivity.
    + intros e'. rewrite Hins. auto.
    + intros e' [= <-]. right.
      change (container (bindListeners e)) with (container e). rewrite He.
      split; [lia|].
      unfold slottedEditor. rewrite Hl', Hl2, Hfirst.
      by rewrite (findFirst_withSlot (finalSlot d)).
  - exists (bindListeners e).
    change (container (bindListeners e)) with (container e). rewrite He.
    repeat split; auto.
    rewrite Hl', Hl2, Hids. apply Hnew. simpl. tauto.
Qed.

Lemma rebuildEditor_thrown (h h' : Host) (x : Exception) :
  WellFormed h ->
  rebuildEditor h = Thrown x h' ->
  WellFormed h' /\ editor h' = editor h /\ retired h' = retired h /\
  lightDOM h' = withSlot (slotDiv (nextNode h) []) (lightDOM h).
Proof.
  intros Hwf. rewrite rebuildEditor_unfold.
  destruct (setupEditor_frame (nextNode h) (afterSlot h))
    as [(e & pg & -> & He)|(x' & pg & ->)]; [discriminate|].
  intros [= <- <-].
  destruct (emptySlot_ids (nextNode h)) as (Hnd & Hge & Hlt).
  split; [|by repeat split].
  apply (WellFormed_withSlot h _ (slotDiv (nextNode h) []) (S (nextNode h))
           Hwf Hnd Hge Hlt); [lia|reflexivity|reflexivity| |].
  - intros e. unfold instances. simpl. destruct (editor h); simpl; tauto.
  - intros e. unfold instances. simpl. intros ->. left. simpl. tauto.
Qed.

Lemma assign_as_rebuild (a : Assignment) (h : Host) :
  exists hs,
    assign a h = rebuildEditor hs /\
    lightDOM hs = lightDOM h /\ nextNode hs = nextNode h /\
    editor hs = editor h /\ retired hs = retired h.
Proof.
  destruct a as [x|o]; simpl.
  - exists (set_extensions__ x h). by repeat split.
  - exists (set_starterKitOptions__ o h). by repeat split.
Qed.

Lemma WellFormed_assign (a : Assignment) (h : Host) :
  WellFormed h -> WellFormed (finalState (assign a h)).
Proof.
  intros Hwf. destruct (assign_as_rebuild a h) as (hs & -> & Hl & Hn & He & Hr).
  assert (Hwfs : WellFormed hs) by (by apply (WellFormed_ext h)).
  destruct (rebuildEditor hs) as [[] h'|x h'] eqn:Hrun; simpl.
  - by apply (rebuildEditor_returned hs h').
  - by apply (rebuildEditor_thrown hs h' x).
Qed.

Lemma WellFormed_assignAll (l : list Assignment) (h : Host) :
  WellFormed h -> WellFormed (assignAll l h).
Proof.
  revert h. induction l as [|a l IH]; intros h Hwf; [exact Hwf|].
  apply IH, WellFormed_assign, Hwf.
Qed.

(** C1, as the code has it. Start from a host whose light DOM is well
    kept and make any assignments to [extensions] and
    [starterKitOptions]. After each assignment that returns, the host
    holds an editor and it is the one instance alive on the host; its
    container was created by this assignment and was no node of the
    light DOM before; every instance the host held before is retired,
    is no longer alive on the host, and is not the editor the host
    holds. *)
Theorem setter_leaves_one_fresh_editor (h0 : Host) (before : list Assignment)
    (a : Assignment) (h' : Host) :
  WellFormed h0 ->
  assign a (assignAll before h0) = Returned tt h' ->
  exists e,
    editor h' = Some e /\
    (forall e', alive h' e' <-> e' = e) /\
    nextNode (assignAll before h0) <= container e /\
    ~ In (container e) (idsOfForest (lightDOM (assignAll before h0))) /\
    (forall old, In old (instances (assignAll before h0)) ->
       container old <> container e /\ In old (retired h') /\
       ~ alive h' old /\ editor h' <> Some old).
Proof.
  intros Hwf0 Hrun. set (h := assignAll before h0) in *.
  assert (Hwf : WellFormed h) by apply WellFormed_assignAll, Hwf0.
  destruct (assign_as_rebuild a h) as (hs & Has & Hl & Hn & He & Hr).
  assert (Hwfs : WellFormed hs) by (by apply (WellFormed_ext h)).
  rewrite Has in Hrun.
  destruct (rebuildEditor_returned hs h' Hwfs Hrun)
    as (Hwf' & e & Hed & Hc & Hret & Hin).
  assert (Hinst : instances hs = instances h)
    by (unfold instances; by rewrite He, Hr).
  rewrite Hinst in Hret. rewrite Hn in Hc.
  assert (Hold : forall old, In old (instances h) -> container old < container e).
  { intros old Hio. rewrite Hc. by apply (wf_instances h Hwf). }
  assert (Hdead : forall old, In old (retired h') -> ~ alive h' old).
  { intros old Hio [_ Hmounted]. by apply (wf_retired h' Hwf' old). }
  exists e. split; [exact Hed|]. split; [|split; [|split]].
  - intros e'. split.
    + intros Halive. pose proof Halive as [Hi _]. unfold instances in Hi.
      rewrite Hed in Hi. destruct Hi as [<-|Hi]; [reflexivity|].
      by destruct (Hdead e' Hi).
    + intros ->. split; [|exact Hin]. unfold instances. rewrite Hed. by left.
  - lia.
  - rewrite Hc. by apply fresh_nextNode.
  - intros old Hio. specialize (Hold old Hio).
    assert (Hio' : In old (retired h')) by (by rewrite Hret).
    repeat split; [lia | exact Hio' | by apply Hdead |].
    intros Heq. rewrite Hed in Heq. injection Heq as <-. lia.
Qed.

End Facts.
End HostFacts.

(* ===================================================================== *)
(** * The claims at work on the small platform *)
(* ===================================================================== *)

Module Examples.
Import JSString DOM Normalize Host Demo LightDOMFacts DOMFacts NormalizeFacts HostFacts.

(** Split the conjunctions of a goal, and nothing else. *)
Ltac conjunctions := repeat match goal with |- _ /\ _ => split end.

(** ** The promise of [handleFiles] *)

(** C3. On a host with an editor, [handleFiles] on a collection with no
    file returns a promise that is never settled, and so it does when the
    only file is refused: the executor returns at line 326 before it calls
    [resolve]. *)
Theorem handleFiles_promise_left_pending :
  @handleFiles engine (Some []) liveHost = Returned Pending liveHost /\
  @handleFiles engine (Some [installer]) liveHost
  = Returned Pending (logAll [Dispatched (FileAcceptEvent installer) true] liveHost).
Proof. conjunctions; vm_compute; reflexivity. Qed.

(** ** The intake *)

(** C4 as stated fails on a host without an editor: the file gets no
    notification. *)
Lemma handleFiles_without_editor_notifies_nobody :
  @handleFiles engine (Some [picture]) freshHost = Returned Fulfilled freshHost /\
  effects freshHost = [].
Proof. conjunctions; vm_compute; reflexivity. Qed.

(** C4 at work: a picture, an installer the page refuses, the picture
    again. *)
Lemma handleFiles_accepts_then_inserts_witness :
  exists (events : list (File * bool)) (atts : list AttachmentManager),
    map fst events = [picture; installer; picture] /\
    map snd events = [false; true; false] /\
    map file atts = [picture; picture] /\
    effects (finalState (@handleFiles engine (Some [picture; installer; picture]) liveHost))
    = effects liveHost ++ acceptTrace events ++ insertionTrace 0 atts.
Proof.
  destruct (@handleFiles_accepts_then_inserts engine liveHost _
              [picture; installer; picture] eq_refl)
    as (events & atts & p & h' & Hrun & Hev & Hfiles & Hatts & Hview & Heff).
  exists events, atts. rewrite Hrun. subst events. repeat split; auto.
Defined.

(** C5 as stated fails on a host without an editor: a drop with a file is
    left to the browser. *)
Lemma drop_without_editor_not_prevented :
  @handleDropFile engine (Some (DragEvent (Some [picture]))) freshHost
  = Returned (mkHandled false Fulfilled) freshHost.
Proof. reflexivity. Qed.

(** C5 at work: a drop with no file, and a drop of a picture and an
    installer. *)
Lemma handleDropFile_spec_witness :
  @handleDropFile engine (Some (DragEvent (Some []))) liveHost
  = Returned (mkHandled false Fulfilled) liveHost /\
  exists (p : Promise) (h' : Host) (atts : list AttachmentManager),
    @handleFiles engine (Some [picture; installer]) liveHost = Returned p h' /\
    @handleDropFile engine (Some (DragEvent (Some [picture; installer]))) liveHost
    = Returned (mkHandled true p) h' /\
    map file atts = [picture] /\
    effects h'
    = effects liveHost
      ++ [Dispatched (FileAcceptEvent picture) false;
          Dispatched (FileAcceptEvent installer) true]
      ++ insertionTrace 0 atts.
Proof.
  split.
  - exact (@handleDropFile_spec engine liveHost _ (Some []) eq_refl).
  - exact (@handleDropFile_spec engine liveHost _ (Some [picture; installer]) eq_refl).
Defined.

(** ** Rebuilding *)

Lemma WellFormed_freshHost : WellFormed freshHost.
Proof.
  split.
  - constructor.
  - intros i [].
  - intros e [].
  - intros e [].
  - intros e [=].
Qed.

(** C1 at work: three assignments on a fresh host. *)
Lemma setter_leaves_one_fresh_editor_witness :
  exists e,
    editor afterThree = Some e /\
    (forall e', alive afterThree e' <-> e' = e) /\
    nextNode afterTwo <= container e /\
    ~ In (container e) (idsOfForest (lightDOM afterTwo)) /\
    (forall old, In old (instances afterTwo) ->
       container old <> container e /\ In old (retired afterThree) /\
       ~ alive afterThree old /\ editor afterThree <> Some old).
Proof.
  assert (Hrun : @assign browser engine (AssignExtensions [])
                   (@assignAll browser engine twoAssignments freshHost)
                 = Returned tt afterThree) by (vm_compute; reflexivity).
  exact (@setter_leaves_one_fresh_editor browser engine freshHost twoAssignments
           (AssignExtensions []) afterThree WellFormed_freshHost Hrun).
Defined.

(** C1 as stated fails when editor construction throws. The host holds an
    editor in the slot of identity 0 and its serializer is set to json
    while the bound input holds HTML: the assignment throws out of
    [JSON.parse], the host still holds the old editor, whose slot has left
    the light DOM for a new, empty one. *)
Lemma failed_rebuild_keeps_detached_editor :
  exists h',
    @assign browser engine (AssignExtensions []) switchedHost = Thrown SyntaxError h' /\
    editor h' = editor switchedHost /\
    option_map container (editor h') = Some 0 /\
    idsOfForest (lightDOM switchedHost) = [0; 1] /\
    idsOfForest (lightDOM h') = [2].
Proof.
  exists (finalState (@assign browser engine (AssignExtensions []) switchedHost)).
  conjunctions; vm_compute; reflexivity.
Qed.

(** ** Normalization *)




(** C9. The test of line 462 is the wrong way round: a name without the
    separator is left without it, and a name that has the separator gets
    a second one. *)
Theorem separator_appended_only_when_present :
  namePass true (documentElement (namedValue "report.pdf" []))
  = documentElement (namedValue "report.pdf" []) /\
  namePass true (documentElement (namedValue ("report.pdf" +:+ separatorGlyph) []))
  = documentElement (namedValue ("report.pdf" +:+ separatorGlyph) [Text separatorGlyph]).
Proof. conjunctions; vm_compute; reflexivity. Qed.

(** ** The serializer *)

(** C10 at work: the stored value of [truncatedHost] parsed as a figure
    with the caption x in its payload.  With the serializer html, setup
    writes the normalized value, caption included, into the bound input;
    with HTML the bound input keeps its value, and the host serializes
    as HTML all the same; with JSON it serializes as JSON. *)
Lemma upper_case_serializer_is_not_normalized :
  let b := browserWith (fun _ => captionedValue) in
  let written := serializeChildren
                   (Element "body" []
                      [Element "figure"
                         [("data-trix-attachment", "{}");
                          ("data-trix-attributes", captionPayload)]
                         [Element "img" [("src", "cat.png")] []; captionElement "x"]]) in
  page (finalState (@__setupEditor b engine 0 truncatedHost)) !! "note" = Some written /\
  page (finalState (@__setupEditor b engine 0 (set_serializer "HTML" truncatedHost))) !! "note"
  = Some "<figure>" /\
  @serialize b engine (set_serializer "HTML" liveHost)
  = Returned "<p>Hi</p>" (set_serializer "HTML" liveHost) /\
  @serialize b engine (set_serializer "JSON" liveHost)
  = Returned "{}" (set_serializer "JSON" liveHost).
Proof. intros b written. conjunctions; vm_compute; reflexivity. Qed.

End Examples.

(* ===================================================================== *)
(** * Facts about the intake: paste, attachments *)
(* ===================================================================== *)

Module IntakeFacts.
Import JSString Host SetupDefs LightDOMFacts HostFacts.

Section Facts.
Context `{B : Browser} `{E : Engine}.

Lemma handlePaste_live (h : Host) (e : Editor)
    (clipboardData : option (list string * list File)) :
  editor h = Some e ->
  handlePaste (Some (ClipboardEvent clipboardData)) h =
  match clipboardData with
  | None | Some (_, []) => Returned (mkHandled false Fulfilled) h
  | Some (items, files) =>
      match handleFiles (Some files) (afterInsertContent e items h) with
      | Returned p h' => Returned (mkHandled true p) h'
      | Thrown x h' => Thrown x h'
      end
  end.
Proof.
  intros He. unfold handlePaste, bind, get. rewrite He.
  by destruct clipboardData as [[items [|f fs]]|].
Qed.

(** X7. [handlePaste] on a host that holds an editor. A clipboard event
    without files is left alone: the default is not prevented and its
    items are not inserted. With files the default is prevented, the
    items are inserted by one [insertContent] command first, then the
    files go through [handleFiles]: their file-accept notifications come
    after the insertion of the items, and the attachments are inserted
    into the document that already holds the items. *)
Theorem handlePaste_inserts_items_then_files (h : Host) (e : Editor)
    (clipboardData : option (list string * list File)) :
  editor h = Some e ->
  match clipboardData with
  | None | Some (_, []) =>
      handlePaste (Some (ClipboardEvent clipboardData)) h
      = Returned (mkHandled false Fulfilled) h
  | Some (items, files) =>
      exists (p : Promise) (h' : Host) (atts : list AttachmentManager),
        handlePaste (Some (ClipboardEvent clipboardData)) h
        = Returned (mkHandled true p) h' /\
        map file atts
        = allowedFiles (fileAcceptOutcomes
                          (effects h ++ [InsertContent (editorId e) items]) files) /\
        effects h'
        = effects h
            ++ InsertContent (editorId e) items
            :: acceptTrace (fileAcceptOutcomes
                              (effects h ++ [InsertContent (editorId e) items]) files)
            ++ insertionTrace (editorId e) atts /\
        option_map state (editor h')
        = Some (match atts with
                | [] => runInsertContent items (state e)
                | _ => runSetAttachment atts (runInsertContent items (state e))
                end)
  end.
Proof.
  intros He. rewrite (handlePaste_live h e clipboardData He).
  destruct clipboardData as [[items [|f fs]]|]; try reflexivity.
  set (h1 := afterInsertContent e items h).
  set (e1 := mkEditor (editorId e) (options e) (runInsertContent items (state e))
               (listeners e)).
  assert (He1 : editor h1 = Some e1) by (unfold h1, afterInsertContent; simpl; by rewrite He).
  rewrite (handleFiles_live h1 e1 (f :: fs) He1).
  change (effects h1) with (effects h ++ [InsertContent (editorId e) items]).
  change (editorId e1) with (editorId e).
  set (events := fileAcceptOutcomes _ (f :: fs)).
  set (atts := attachmentsFor (editorId e) (nextURL h1) (allowedFiles events)).
  assert (Hfiles : map file atts = allowedFiles events) by apply attachmentsFor_files.
  cbv zeta. destruct atts as [|a atts'] eqn:Hatts.
  - eexists _, _, []. split; [reflexivity|]. split; [exact Hfiles|]. split.
    + simpl. by rewrite app_nil_r, <- app_assoc.
    + simpl. by rewrite He.
  - eexists _, _, (a :: atts'). split; [reflexivity|]. split; [exact Hfiles|]. split.
    + rewrite effects_afterInsertion. simpl. by rewrite <- !app_assoc.
    + simpl. by rewrite He.
Qed.

(** X8. [transformFilesToAttachments] gives nothing (undefined, not an
    empty array) without an editor, for no collection and for an empty
    one, and leaves the host as it is. Otherwise it gives one attachment
    per file, in the order of the files, each bound to the view of the
    editor the host holds; it takes object URLs and touches nothing else
    of the host: no notification, no command, the editor as it was. *)
Theorem transformFilesToAttachments_one_per_file (h : Host) (files : option (list File)) :
  (editor h = None \/ files = None \/ files = Some [] ->
   transformFilesToAttachments files h = Returned None h) /\
  (forall e f fs,
      editor h = Some e -> files = Some (f :: fs) ->
      exists atts h',
        transformFilesToAttachments files h = Returned (Some atts) h' /\
        map file atts = f :: fs /\
        Forall (fun a => view a = editorId e) atts /\
        h' = set_nextURL (nextURL h + N.of_nat (length (f :: fs)))%N h).
Proof.
  split.
  - intros Hcase. unfold transformFilesToAttachments, bind, get.
    destruct (editor h) as [e|]; [|reflexivity].
    destruct Hcase as [Hn|[-> | ->]]; [discriminate|reflexivity|reflexivity].
  - intros e f fs He ->. rewrite (transformFilesToAttachments_live h e (f :: fs) He).
    do 2 eexists. split; [reflexivity|].
    split; [apply attachmentsFor_files|]. split; [apply attachmentsFor_view|reflexivity].
Qed.

End Facts.
End IntakeFacts.

(* ===================================================================== *)
(** * Facts about editor setup and rebuilding *)
(* ===================================================================== *)

Module SetupFacts.
Import JSString Host LightDOMFacts HostFacts SetupDefs.

Section Facts.
Context `{B : Browser} `{E : Engine}.

Lemma inputElement_page (h : Host) (id : string) :
  inputElement h = Some id -> exists v, page h !! id = Some v /\ storedValue h = v.
Proof.
  unfold storedValue, inputElement. destruct (input h) as [i|]; [|discriminate].
  destruct (page h !! i) as [v|] eqn:Hv; [|discriminate].
  intros [= <-]. exists v. by rewrite Hv.
Qed.

(** The outcome of [__setupEditor], case by case. *)
Lemma setupEditor_outcome (element : nat) (h : Host) :
  __setupEditor element h =
  if htmlMode h then
    match inputElement h with
    | Some id =>
        match Normalize.normalizeValue parseFromString (storedValue h) with
        | Ok (Some html) => construct element (set_page (<[id := html]> (page h)) h)
        | Ok None => construct element h
        | Throw x => Thrown x h
        end
    | None => construct element h
    end
  else construct element h.
Proof.
  rewrite setupEditor_cases. fold (htmlMode h). destruct (htmlMode h); [|reflexivity].
  unfold normalizeDOM. destruct (inputElement h) as [id|] eqn:Hin; [|reflexivity].
  destruct (inputElement_page h id Hin) as (v & Hv & ->).
  unfold bind, get. rewrite Hv. unfold ofResult.
  by destruct (Normalize.normalizeValue parseFromString v) as [[html|]|x].
Qed.


(** The outcome of line 566, case by case. *)
Lemma construct_outcome (element : nat) (h : Host) :
  construct element h =
  if negb (isEmpty (storedValue h)) && jsonMode h
  then match JSON.parse (storedValue h) with
       | Some doc =>
           Returned (mkEditor (nextEditor h)
                       (defaultsWith h element (JSONContent doc))
                       (createState (defaultsWith h element (JSONContent doc))) [])
                    (afterConstruct element h)
       | None => Thrown SyntaxError h
       end
  else Returned (mkEditor (nextEditor h)
                   (defaultsWith h element (HTMLContent (storedValue h)))
                   (createState (defaultsWith h element (HTMLContent (storedValue h)))) [])
                (afterConstruct element h).
Proof.
  unfold construct, allOptions, bind. rewrite defaultOptions_returns. fold (jsonMode h).
  destruct (negb _ && _); [destruct (JSON.parse _)|]; reflexivity.
Qed.



(** The page as setup leaves it when it returns. *)
Lemma setupEditor_returned (element : nat) (h h2 : Host) (e : Editor) :
  __setupEditor element h = Returned e h2 ->
  exists pg,
    h2 = afterConstruct element (set_page pg h) /\
    construct element (set_page pg h) = Returned e h2 /\
    (htmlMode h = false -> pg = page h) /\
    (forall id, input h <> Some id -> pg !! id = page h !! id) /\
    (forall id, inputElement h = Some id -> is_Some (pg !! id)).
Proof.
  rewrite setupEditor_outcome. intros Hrun.
  assert (Hsame : construct element h = Returned e h2 ->
    exists pg,
      h2 = afterConstruct element (set_page pg h) /\
      construct element (set_page pg h) = Returned e h2 /\
      (htmlMode h = false -> pg = page h) /\
      (forall id, input h <> Some id -> pg !! id = page h !! id) /\
      (forall id, inputElement h = Some id -> is_Some (pg !! id))).
  { intros Hc. exists (page h). rewrite set_page_same.
    destruct (construct_frame element h) as [(e' & He' & _)|[x Hx]]; [|congruence].
    rewrite He' in Hc. injection Hc as <- <-.
    repeat split; auto.
    intros id Hin. destruct (inputElement_page h id Hin) as (v & Hv & _). by exists v. }
  destruct (htmlMode h) eqn:Hhtml; [|by apply Hsame].
  destruct (inputElement h) as [id|] eqn:Hin; [|by apply Hsame].
  destruct (Normalize.normalizeValue parseFromString (storedValue h)) as [[html|]|x];
    [|by apply Hsame|discriminate].
  exists (<[id := html]> (page h)).
  destruct (construct_frame element (set_page (<[id := html]> (page h)) h))
    as [(e' & He' & _)|[x Hx]]; [|congruence].
  rewrite He' in Hrun. injection Hrun as <- <-.
  split; [reflexivity|]. split; [exact He'|]. split; [discriminate|].
  assert (Hid : input h = Some id).
  { unfold inputElement in Hin. destruct (input h) as [i|]; [|discriminate].
    destruct (page h !! i); [|discriminate]. by injection Hin as <-. }
  split.
  - intros id' Hne. apply lookup_insert_ne. congruence.
  - intros id' [= <-]. rewrite lookup_insert_eq. by eexists.
Qed.

(** X2. What a rebuild that returns builds the editor from. The editor is
    a new one, installed onto the new slot, editable unless the host is
    readonly, with the two starter kits configured with the host's
    starter-kit options followed by the host's extensions, and it has the
    six listeners bound once each. Its content is the value of the bound
    input as setup leaves it, that is after normalization in html mode:
    as HTML, or, when the serializer lowercases to json and the value is
    not empty, as the value it parses to. *)
Theorem rebuildEditor_builds_from_stored_value (h h' : Host) :
  rebuildEditor h = Returned tt h' ->
  exists e,
    editor h' = Some e /\
    editorId e = nextEditor h /\
    o_element (options e) = nextNode h /\
    o_editable (options e) = negb (readonly h) /\
    o_extensions (options e)
    = [StarterKit_configure (starterKitOptions__ h);
       RhinoStarterKit_configure (starterKitOptions__ h)] ++ extensions__ h /\
    o_injectCSS (options e) = false /\ o_autofocus (options e) = false /\
    state e = createState (options e) /\
    listeners e = boundEvents /\
    (jsonMode h = false \/ storedValue h' = EmptyString ->
     o_content (options e) = HTMLContent (storedValue h')) /\
    (jsonMode h = true -> storedValue h' <> EmptyString ->
     exists doc, JSON.parse (storedValue h') = Some doc /\
                 o_content (options e) = JSONContent doc).
Proof.
  rewrite rebuildEditor_unfold.
  destruct (__setupEditor (nextNode h) (afterSlot h)) as [e h2|x h2] eqn:Hsetup;
    [|discriminate].
  intros [= <-].
  destruct (setupEditor_returned _ _ _ _ Hsetup) as (pg & -> & Hc & _ & _ & _).
  set (h1 := set_page pg (afterSlot h)) in *.
  assert (Hstored : storedValue (finishRebuild (nextNode h) e
                                   (afterConstruct (nextNode h) h1)) = storedValue h1)
    by reflexivity.
  rewrite Hstored. rewrite construct_outcome in Hc.
  change (jsonMode h1) with (jsonMode h) in Hc.
  exists (bindListeners e). split; [reflexivity|].
  destruct (isEmpty (storedValue h1)) eqn:Hemp; simpl in Hc.
  - apply isEmpty_true in Hemp. injection Hc as <-. simpl.
    repeat split; auto. intros _ Hne. congruence.
  - assert (Hne : storedValue h1 <> EmptyString)
      by (intros Heq; rewrite Heq in Hemp; discriminate).
    destruct (jsonMode h) eqn:Hjson.
    + destruct (JSON.parse (storedValue h1)) as [doc|] eqn:Hparse; [|discriminate].
      injection Hc as <-. simpl. repeat split; auto.
      * intros [?|?]; congruence.
      * intros _ _. by exists doc.
    + injection Hc as <-. simpl. repeat split; auto. discriminate.
Qed.



(** *** The slot in the light DOM *)

Lemma updateInside_replaceFirst_both (pred : LiveNode -> bool) (target : nat)
    (f : LiveNode -> LiveNode) (new : LiveNode) :
  (forall n, ~ In target (idsOf n) ->
     replaceFirst pred (updateById target f new) n
     = option_map (updateById target f) (replaceFirst pred new n)) /\
  (forall l, ~ In target (idsOfForest l) ->
     replaceFirstAmong pred (updateById target f new) l
     = option_map (map (updateById target f)) (replaceFirstAmong pred new l)).
Proof.
  apply LiveNode_forest_ind.
  - intros i t a ks IH Hnot. rewrite !replaceFirst_unfold.
    destruct (pred _); [reflexivity|].
    rewrite idsOf_node in Hnot. simpl in Hnot.
    rewrite IH by tauto.
    destruct (replaceFirstAmong pred new ks) as [ks'|]; [|reflexivity].
    simpl. destruct (Nat.eqb_spec i target); [tauto|reflexivity].
  - reflexivity.
  - intros k l Hk Hl. rewrite idsOfForest_cons, in_app_iff. intros Hnot.
    cbn [replaceFirstAmong]. rewrite Hk, Hl by tauto.
    destruct (replaceFirst pred new k) as [k'|]; simpl.
    + by rewrite (proj2 (updateById_absent_both _ f) l) by tauto.
    + destruct (replaceFirstAmong pred new l) as [l'|]; [|reflexivity].
      simpl. by rewrite (proj1 (updateById_absent_both _ f) k) by tauto.
Qed.

Lemma updateInside_withSlot (target : nat) (f : LiveNode -> LiveNode) (new : LiveNode)
    (l : list LiveNode) :
  ~ In target (idsOfForest l) ->
  map (updateById target f) (withSlot new l) = withSlot (updateById target f new) l.
Proof.
  intros Hnot. unfold withSlot.
  destruct (findFirstAmong isEditorSlot l) as [r|] eqn:Hf.
  - rewrite (proj2 (updateInside_replaceFirst_both isEditorSlot target f new) l Hnot).
    destruct (replaceFirstAmong_found isEditorSlot new r l Hf) as [l' ->]. reflexivity.
  - rewrite map_app. simpl.
    by rewrite (proj2 (updateById_absent_both _ f) l Hnot).
Qed.

Lemma findById_absent_both (target : nat) :
  (forall n, ~ In target (idsOf n) ->
     findFirst (fun m => Nat.eqb (liveId m) target) n = None) /\
  (forall l, ~ In target (idsOfForest l) ->
     findFirstAmong (fun m => Nat.eqb (liveId m) target) l = None).
Proof.
  apply LiveNode_forest_ind.
  - intros i t a ks IH Hnot. rewrite findFirst_unfold. rewrite idsOf_node in Hnot.
    simpl in *. destruct (Nat.eqb_spec i target); [tauto|]. apply IH. tauto.
  - reflexivity.
  - intros k l Hk Hl. rewrite idsOfForest_cons, in_app_iff. intros Hnot.
    cbn [findFirstAmong]. rewrite Hk by tauto. apply Hl. tauto.
Qed.

Lemma findById_replaceFirst_both (pred : LiveNode -> bool) (new : LiveNode) :
  (forall n n', ~ In (liveId new) (idsOf n) ->
     replaceFirst pred new n = Some n' ->
     findFirst (fun m => Nat.eqb (liveId m) (liveId new)) n' = Some new) /\
  (forall l l', ~ In (liveId new) (idsOfForest l) ->
     replaceFirstAmong pred new l = Some l' ->
     findFirstAmong (fun m => Nat.eqb (liveId m) (liveId new)) l' = Some new).
Proof.
  apply LiveNode_forest_ind.
  - intros i t a ks IH n' Hnot. rewrite replaceFirst_unfold.
    destruct (pred _).
    + intros [= <-]. rewrite findFirst_unfold. by rewrite Nat.eqb_refl.
    + destruct (replaceFirstAmong pred new ks) as [ks'|] eqn:Hks; [|discriminate].
      intros [= <-]. rewrite findFirst_unfold. rewrite idsOf_node in Hnot.
      simpl in *. destruct (Nat.eqb_spec i (liveId new)); [tauto|].
      apply (IH ks'); tauto.
  - discriminate.
  - intros k l Hk Hl l' Hnot. rewrite idsOfForest_cons, in_app_iff in Hnot.
    cbn [replaceFirstAmong].
    destruct (replaceFirst pred new k) as [k'|] eqn:Hrk.
    + intros [= <-]. cbn [findFirstAmong]. rewrite (Hk k') by tauto. reflexivity.
    + destruct (replaceFirstAmong pred new l) as [l''|] eqn:Hrl; [|discriminate].
      intros [= <-]. cbn [findFirstAmong].
      rewrite (proj1 (findById_absent_both (liveId new)) k) by tauto.
      apply (Hl l''); tauto.
Qed.

Lemma findById_withSlot (new : LiveNode) (l : list LiveNode) :
  ~ In (liveId new) (idsOfForest l) ->
  findFirstAmong (fun m => Nat.eqb (liveId m) (liveId new)) (withSlot new l) = Some new.
Proof.
  intros Hnot. unfold withSlot.
  destruct (findFirstAmong isEditorSlot l) as [r|] eqn:Hf.
  - destruct (replaceFirstAmong_found isEditorSlot new r l Hf) as [l' Hl'].
    rewrite Hl'. simpl. by apply (proj2 (findById_replaceFirst_both isEditorSlot new) l l').
  - rewrite findFirstAmong_app_none by (by apply findById_absent_both).
    cbn [findFirstAmong]. rewrite findFirst_unfold. by rewrite Nat.eqb_refl.
Qed.

(** The light DOM after a rebuild that returns. *)
Lemma rebuildEditor_lightDOM (h h' : Host) :
  WellFormed h ->
  rebuildEditor h = Returned tt h' ->
  lightDOM h' = withSlot (decoratedSlot (nextNode h)) (lightDOM h) /\
  editorElement h' = Some (S (nextNode h)).
Proof.
  intros Hwf. rewrite rebuildEditor_unfold.
  destruct (setupEditor_frame (nextNode h) (afterSlot h))
    as [(e & pg & -> & He)|(x & pg & ->)]; [|discriminate].
  intros [= <-].
  set (d := nextNode h) in *.
  set (h2 := afterConstruct d (set_page pg (afterSlot h))).
  assert (Hfresh : ~ In d (idsOfForest (lightDOM h))) by apply fresh_nextNode, Hwf.
  assert (Hfresh' : ~ In (S d) (idsOfForest (lightDOM h))).
  { intros Hin. apply (wf_bound h Hwf) in Hin. subst d. lia. }
  assert (Hl2 : lightDOM h2 = withSlot (finalSlot d) (lightDOM h))
    by (by apply lightDOM_afterConstruct).
  assert (Hfound : mountedView d (lightDOM h2) = Some (viewNode (S d))).
  { unfold mountedView. rewrite Hl2.
    pose proof (findById_withSlot (finalSlot d) (lightDOM h) Hfresh) as Hf.
    cbn [liveId finalSlot slotDiv] in Hf. by rewrite Hf. }
  split.
  - change (lightDOM (finishRebuild d e h2))
      with (decorated (mountedView d (lightDOM h2)) (lightDOM h2)).
    rewrite Hfound. unfold decorated. rewrite Hl2. cbn [liveId viewNode].
    rewrite (updateInside_withSlot (S d) _ (finalSlot d) (lightDOM h) Hfresh').
    f_equal. unfold finalSlot, slotDiv, decoratedSlot. rewrite updateById_unfold.
    cbn [liveId]. destruct (Nat.eqb_spec d (S d)); [lia|].
    cbn [map]. rewrite updateById_unfold. cbn [liveId viewNode].
    by rewrite Nat.eqb_refl.
  - change (editorElement (finishRebuild d e h2))
      with (option_map liveId (mountedView d (lightDOM h2))).
    by rewrite Hfound.
Qed.

(** X4. Where a rebuild that returns leaves the slot. The new slot, a div
    with the view of the editor in it, takes the place of the first
    element with slot editor (which leaves the light DOM with all that is
    below it), or comes last when there was none; every other node of the
    light DOM stays where it was. The view is the host's [editorElement]
    and carries the classes ProseMirror and trix-content, tabindex 0 and
    role textbox; the new slot is the one [slottedEditor] finds next. *)
Theorem rebuildEditor_puts_slot_in_place (h h' : Host) :
  WellFormed h ->
  rebuildEditor h = Returned tt h' ->
  lightDOM h' = withSlot (decoratedSlot (nextNode h)) (lightDOM h) /\
  slottedEditor h' = Some (decoratedSlot (nextNode h)) /\
  editorElement h' = Some (S (nextNode h)) /\
  match slottedEditor h with
  | Some old =>
      spliced (idsOfForest (lightDOM h)) (idsOfForest (lightDOM h')) old
        (decoratedSlot (nextNode h))
  | None => lightDOM h' = lightDOM h ++ [decoratedSlot (nextNode h)]
  end.
Proof.
  intros Hwf Hrun. destruct (rebuildEditor_lightDOM h h' Hwf Hrun) as [Hl' Hel].
  split; [exact Hl'|]. split; [|split; [exact Hel|]].
  - unfold slottedEditor. rewrite Hl'. by apply findFirst_withSlot.
  - rewrite Hl'. unfold slottedEditor.
    destruct (idsOf_withSlot (decoratedSlot (nextNode h)) (lightDOM h))
      as [(r & -> & Hs)|[Hnone _]].
    + exact Hs.
    + rewrite Hnone. unfold withSlot. by rewrite Hnone.
Qed.

(** Putting a slot in after another was put in is putting it in alone. *)
Lemma replaceFirst_twice_both (new1 new2 : LiveNode) :
  isEditorSlot new1 = true ->
  (forall n n1, replaceFirst isEditorSlot new1 n = Some n1 ->
                replaceFirst isEditorSlot new2 n1 = replaceFirst isEditorSlot new2 n) /\
  (forall l l1, replaceFirstAmong isEditorSlot new1 l = Some l1 ->
                replaceFirstAmong isEditorSlot new2 l1
                = replaceFirstAmong isEditorSlot new2 l).
Proof.
  intros Hslot. apply LiveNode_forest_ind.
  - intros i t a ks IH n1. rewrite !(replaceFirst_unfold _ _ (LiveElement i t a ks)).
    destruct (isEditorSlot (LiveElement i t a ks)) eqn:Hs.
    + intros [= <-]. rewrite replaceFirst_unfold. by rewrite Hslot.
    + destruct (replaceFirstAmong isEditorSlot new1 ks) as [ks1|] eqn:Hks; [|discriminate].
      intros [= <-]. rewrite replaceFirst_unfold.
      change (isEditorSlot (LiveElement i t a ks1)) with (isEditorSlot (LiveElement i t a ks)).
      rewrite Hs. by rewrite (IH ks1).
  - discriminate.
  - intros k l Hk Hl l1. cbn [replaceFirstAmong].
    destruct (replaceFirst isEditorSlot new1 k) as [k1|] eqn:Hrk.
    + intros [= <-]. cbn [replaceFirstAmong]. rewrite (Hk k1 eq_refl).
      destruct (replaceFirst isEditorSlot new2 k) as [k2|] eqn:Hk2; [reflexivity|].
      apply (proj1 (replaceFirst_none_both _ _)) in Hk2.
      destruct (proj1 (replaceFirst_splice_both isEditorSlot new1) k k1 Hrk) as (r & Hr & _).
      congruence.
    + destruct (replaceFirstAmong isEditorSlot new1 l) as [l'|] eqn:Hrl; [|discriminate].
      intros [= <-]. cbn [replaceFirstAmong].
      assert (Hnone : replaceFirst isEditorSlot new2 k = None).
      { destruct (replaceFirst isEditorSlot new2 k) as [k2|] eqn:Hk2; [|reflexivity].
        destruct (proj1 (replaceFirst_splice_both isEditorSlot new2) k k2 Hk2) as (r & Hr & _).
        apply (proj1 (replaceFirst_none_both _ _)) in Hrk. congruence. }
      rewrite Hnone. by rewrite (Hl l').
Qed.

Lemma withSlot_withSlot (new1 new2 : LiveNode) (l : list LiveNode) :
  isEditorSlot new1 = true ->
  withSlot new2 (withSlot new1 l) = withSlot new2 l.
Proof.
  intros Hslot. unfold withSlot at 1.
  rewrite (findFirst_withSlot new1 l Hslot). unfold withSlot.
  destruct (findFirstAmong isEditorSlot l) as [r|] eqn:Hf.
  - destruct (replaceFirstAmong_found isEditorSlot new1 r l Hf) as [l1 Hl1].
    rewrite Hl1. cbn [default]. unfold id.
    rewrite (proj2 (replaceFirst_twice_both new1 new2 Hslot) l l1 Hl1).
    by destruct (replaceFirstAmong_found isEditorSlot new2 r l Hf) as [l2 ->].
  - assert (Hr : forall new (l0 l' : list LiveNode),
               findFirstAmong isEditorSlot l0 = None ->
               replaceFirstAmong isEditorSlot new (l0 ++ l')
               = option_map (app l0) (replaceFirstAmong isEditorSlot new l')).
    { intros new l0 l' Hnone. induction l0 as [|k l0 IH]; simpl.
      - by destruct (replaceFirstAmong isEditorSlot new l').
      - cbn [findFirstAmong] in Hnone.
        destruct (findFirst isEditorSlot k) eqn:Hk; [discriminate|].
        destruct (replaceFirst isEditorSlot new k) as [k'|] eqn:Hrk.
        + destruct (proj1 (replaceFirst_splice_both isEditorSlot new) k k' Hrk)
            as (r & Hr & _). congruence.
        + rewrite (IH Hnone). by destruct (replaceFirstAmong isEditorSlot new l'). }
    rewrite (Hr new2 l [new1] Hf). cbn [replaceFirstAmong].
    rewrite replaceFirst_unfold, Hslot. reflexivity.
Qed.

Lemma assign_lightDOM (a : Assignment) (h : Host) :
  WellFormed h ->
  lightDOM (finalState (assign a h)) = withSlot (slotLeft a h) (lightDOM h) /\
  isEditorSlot (slotLeft a h) = true.
Proof.
  intros Hwf. unfold slotLeft.
  destruct (assign_as_rebuild a h) as (hs & -> & Hl & Hn & He & Hr).
  assert (Hwfs : WellFormed hs) by (by apply (WellFormed_ext h)).
  destruct (rebuildEditor hs) as [[] h'|x h'] eqn:Hrun; cbn [finalState].
  - destruct (rebuildEditor_lightDOM hs h' Hwfs Hrun) as [-> _].
    by rewrite Hl, Hn.
  - destruct (rebuildEditor_thrown hs h' x Hwfs Hrun) as (_ & _ & _ & ->).
    by rewrite Hl, Hn.
Qed.

(** X5. Rebuilds do not pile up in the light DOM. After any assignments
    to the two setters, one more assignment leaves the light DOM the
    host started with, with one slot put in: the slot of this last
    assignment (with the view in it when it returned, empty when it
    threw) in the place of the first element with slot editor the host
    started with, or last. Nothing of the earlier rebuilds is left. *)
Theorem rebuilds_do_not_pile_up (h : Host) (before : list Assignment) (a : Assignment) :
  WellFormed h ->
  lightDOM (finalState (assign a (assignAll before h)))
  = withSlot (slotLeft a (assignAll before h)) (lightDOM h).
Proof.
  intros Hwf.
  assert (Hinv : lightDOM (assignAll before h) = lightDOM h \/
                 exists new, isEditorSlot new = true /\
                             lightDOM (assignAll before h) = withSlot new (lightDOM h)).
  { induction before as [|b before IH] using rev_ind; [by left|].
    unfold assignAll in *. rewrite fold_left_app. cbn [fold_left].
    fold (assignAll before h) in *.
    destruct (assign_lightDOM b (assignAll before h)) as [Hl Hs];
      [by apply WellFormed_assignAll|].
    right. destruct IH as [IH|(new & Hnew & IH)].
    - exists (slotLeft b (assignAll before h)). split; [exact Hs|]. by rewrite Hl, IH.
    - exists (slotLeft b (assignAll before h)). split; [exact Hs|].
      by rewrite Hl, IH, withSlot_withSlot. }
  destruct (assign_lightDOM a (assignAll before h)) as [Hl _];
    [by apply WellFormed_assignAll|].
  rewrite Hl. destruct Hinv as [->|(new & Hnew & ->)]; [reflexivity|].
  by apply withSlot_withSlot.
Qed.

Lemma updateInputElementValue_returns (h : Host) :
  updateInputElementValue h =
  Returned tt
    (match inputElement h, editor h, readonly h with
     | Some id, Some _, false => set_page (<[id := serialized h]> (page h)) h
     | _, _, _ => h
     end).
Proof.
  unfold updateInputElementValue, bind, get.
  destruct (inputElement h) as [id|]; [|reflexivity].
  destruct (editor h) as [e|] eqn:He; [|reflexivity].
  destruct (readonly h); [reflexivity|].
  rewrite serialize_returns. unfold serialized. by rewrite He.
Qed.

(** X6. [updateInputElementValue] is idempotent, and [serialize] gives
    the same string after it as before it: writing the bound input does
    not change what the editor serializes to, and a second write in a row
    changes nothing. *)
Theorem updateInputElementValue_idempotent (h : Host) :
  finalState (updateInputElementValue (finalState (updateInputElementValue h)))
  = finalState (updateInputElementValue h) /\
  exists value,
    serialize h = Returned value h /\
    serialize (finalState (updateInputElementValue h))
    = Returned value (finalState (updateInputElementValue h)).
Proof.
  rewrite (updateInputElementValue_returns h). cbn [finalState].
  destruct (inputElement h) as [id|] eqn:Hin.
  2: { split; [by rewrite updateInputElementValue_returns, Hin|].
       rewrite serialize_returns. by eexists. }
  destruct (editor h) as [e|] eqn:He.
  2: { split; [by rewrite updateInputElementValue_returns, Hin, He|].
       rewrite serialize_returns. by eexists. }
  destruct (readonly h) eqn:Hro.
  { split; [by rewrite updateInputElementValue_returns, Hin, He, Hro|].
    rewrite serialize_returns. by eexists. }
  set (h1 := set_page _ h).
  assert (Hin1 : inputElement h1 = Some id).
  { unfold inputElement in *. subst h1. simpl. destruct (input h) as [i|]; [|discriminate].
    destruct (page h !! i); [|discriminate]. injection Hin as ->.
    by rewrite lookup_insert_eq. }
  split.
  - rewrite updateInputElementValue_returns, Hin1.
    change (editor h1) with (editor h). change (readonly h1) with (readonly h).
    rewrite He, Hro. change (serialized h1) with (serialized h).
    unfold h1, set_page. simpl. by rewrite insert_insert_eq.
  - rewrite !serialize_returns. eexists. split; reflexivity.
Qed.

End Facts.
End SetupFacts.

(* ===================================================================== *)
(** * Facts about selectors *)
(* ===================================================================== *)

Module SelectorFacts.
Import JSString DOM DOMContext DOMFacts.

Lemma querySiblings_In (sel : Selector) (parents : list Node) (here : Path) (q : Path) :
  forall l seen i,
    In q (querySiblings sel parents here seen i l) <->
    exists j k, l !! j = Some k /\
                In q (querySelectorAllFrom sel parents (seen ++ take j l)
                        (here ++ [i + j]) k).
Proof.
  induction l as [|k0 l IH]; intros seen i.
  - simpl. split; [tauto|]. by intros (j & k & Hj & _).
  - cbn [querySiblings]. rewrite in_app_iff, IH. split.
    + intros [H|(j & k & Hj & H)].
      * exists 0, k0. split; [reflexivity|]. simpl.
        by rewrite app_nil_r, Nat.add_0_r.
      * exists (S j), k. split; [exact Hj|]. cbn [take].
        replace (i + S j) with (S i + j) by lia.
        replace (seen ++ k0 :: take j l) with ((seen ++ [k0]) ++ take j l)
          by (by rewrite <- app_assoc).
        exact H.
    + intros (j & k & Hj & H). destruct j as [|j].
      * left. simpl in *. injection Hj as ->.
        by rewrite app_nil_r, Nat.add_0_r in H.
      * right. exists j, k. split; [exact Hj|]. cbn [take] in H.
        replace (i + S j) with (S i + j) in H by lia.
        replace (seen ++ k0 :: take j l) with ((seen ++ [k0]) ++ take j l) in H
          by (by rewrite <- app_assoc).
        exact H.
Qed.

(** What [querySelectorAll] finds: the elements the selector accepts,
    each with its real ancestors and earlier siblings. *)
Lemma querySelectorAllFrom_In (sel : Selector) (n : Node) :
  forall anc before here q,
    In q (querySelectorAllFrom sel anc before here n) <->
    exists r anc' before' m,
      q = here ++ r /\ contextFrom anc before r n = Some (anc', before', m) /\
      isElement m = true /\ sel anc' before' m = true.
Proof.
  induction n as [d|d|t a ks IH] using Node_ind'; intros anc before here q.
  - rewrite querySelectorAllFrom_unfold. simpl. split; [tauto|].
    intros (r & anc' & before' & m & _ & Hc & Hm & _).
    destruct r as [|i r]; cbn [contextFrom childNodes] in Hc;
      [|by rewrite lookup_nil in Hc].
    by injection Hc as _ _ <-.
  - rewrite querySelectorAllFrom_unfold. simpl. split; [tauto|].
    intros (r & anc' & before' & m & _ & Hc & Hm & _).
    destruct r as [|i r]; cbn [contextFrom childNodes] in Hc;
      [|by rewrite lookup_nil in Hc].
    by injection Hc as _ _ <-.
  - rewrite querySelectorAllFrom_unfold, in_app_iff, querySiblings_In. split.
    + intros [Hhead|(j & k & Hj & Hin)].
      * destruct (isElement _ && sel anc before _) eqn:Hsel; [|destruct Hhead].
        destruct Hhead as [<-|[]]. apply andb_true_iff in Hsel as [He Hs].
        exists [], anc, before, (Element t a ks). by rewrite app_nil_r.
      * rewrite Forall_forall in IH.
        assert (Hk : k ∈ ks) by (by apply list_elem_of_lookup_2 with j).
        apply (IH k Hk) in Hin as (r & anc' & before' & m & -> & Hc & Hm & Hs).
        exists (j :: r), anc', before', m. simpl. rewrite Hj.
        by rewrite <- app_assoc.
    + intros (r & anc' & before' & m & -> & Hc & Hm & Hs). destruct r as [|j r].
      * left. simpl in Hc. injection Hc as <- <- <-. rewrite Hm, Hs. simpl.
        left. by rewrite app_nil_r.
      * right. simpl in Hc. destruct (ks !! j) as [k|] eqn:Hj; [|discriminate].
        exists j, k. split; [exact Hj|]. rewrite Forall_forall in IH.
        assert (Hk : k ∈ ks) by (by apply list_elem_of_lookup_2 with j).
        apply (IH k Hk). exists r, anc', before', m. simpl.
        by rewrite <- app_assoc.
Qed.

Lemma querySelectorAll_In (sel : Selector) (root : Node) (q : Path) :
  In q (querySelectorAll sel root) <->
  exists anc before m,
    contextAt q root = Some (anc, before, m) /\
    isElement m = true /\ sel anc before m = true.
Proof.
  unfold querySelectorAll, contextAt. rewrite querySelectorAllFrom_In. split.
  - intros (r & anc & before & m & -> & H). by exists anc, before, m.
  - intros (anc & before & m & H). by exists q, anc, before, m.
Qed.

(** The context of a node holds the node of that path, and its ancestors
    are nodes of the tree (or ancestors of the root of the walk). *)
Lemma contextFrom_nodeAt (p : Path) :
  forall anc before n anc' before' m,
    contextFrom anc before p n = Some (anc', before', m) ->
    nodeAt p n = Some m /\
    (forall x, In x anc' -> In x anc \/ exists r, nodeAt r n = Some x) /\
    length anc' = length anc + length p.
Proof.
  induction p as [|i p IH]; intros anc before n anc' before' m Hc;
    cbn [contextFrom nodeAt] in *.
  - injection Hc as <- <- <-. repeat split; auto.
  - destruct (childNodes n !! i) as [k|] eqn:Hk; [|discriminate].
    apply IH in Hc as (Hm & Hanc & Hne). split; [exact Hm|]. split.
    + intros x Hx. destruct (Hanc x Hx) as [[<-|Hin]|[r Hr]].
      * right. by exists [].
      * by left.
      * right. exists (i :: r). simpl. by rewrite Hk.
    + rewrite Hne. simpl. lia.
Qed.

End SelectorFacts.

(* ===================================================================== *)
(** * More facts about [normalizeDOM] *)
(* ===================================================================== *)

Module NormalizeMoreFacts.
Import JSString DOM Normalize DOMContext DOMFacts NormalizeFacts SelectorFacts.

Lemma contextFrom_of_nodeAt (p : Path) :
  forall anc before n m,
    nodeAt p n = Some m ->
    exists anc' before', contextFrom anc before p n = Some (anc', before', m).
Proof.
  induction p as [|i p IH]; intros anc before n m Hm; cbn [contextFrom nodeAt] in *.
  - injection Hm as <-. by exists anc, before.
  - destruct (childNodes n !! i) as [k|]; [|discriminate]. by apply IH.
Qed.

(** An element with a figcaption below it is not among the figures
    [normalizeDOM] gives a caption to. *)
Lemma lacksFigcaption_false (root : Node) (p : Path) (n : Node) :
  nodeAt p root = Some n -> hasFigcaptionBelow n -> lacksFigcaption root p = false.
Proof.
  intros Hn (r & m & Hr & Hm & Htag). unfold lacksFigcaption. rewrite Hn.
  unfold querySelectorWithin.
  destruct (contextFrom_of_nodeAt r [] [] n m Hm) as (anc & before & Hc).
  pose proof (contextFrom_nodeAt r _ _ _ _ _ _ Hc) as (_ & _ & Hlen).
  match goal with |- context [querySelectorAll ?s n] => set (sel := s) end.
  assert (Hin : In r (querySelectorAll sel n)).
  { apply querySelectorAll_In. exists anc, before, m. split; [exact Hc|].
    assert (Hel : isElement m = true) by (by destruct m).
    split; [exact Hel|]. unfold sel. destruct anc as [|x anc].
    - simpl in Hlen. destruct r; [congruence|discriminate].
    - exact Htag. }
  by destruct (querySelectorAll sel n).
Qed.

(** The figures [normalizeDOM] reads the payload of. *)
Lemma filters_In (root : Node) (p : Path) :
  In p (filtersWithoutChildren root) ->
  exists a ks,
    nodeAt p root = Some (Element "figure" a ks) /\
    is_Some (getAttribute "data-trix-attachment" a) /\
    lacksFigcaption root p = true.
Proof.
  unfold filtersWithoutChildren. rewrite filter_In. intros [Hq Hl].
  apply querySelectorAll_sound in Hq as (m & anc & before & Hm & _ & Hsel).
  unfold attachmentFigure in Hsel. apply andb_true_iff in Hsel as [Htag Hattr].
  destruct m as [d|d|t a ks]; try discriminate. simpl in Htag, Hattr.
  apply String.eqb_eq in Htag as ->. exists a, ks. split; [exact Hm|].
  split; [|exact Hl]. by destruct (getAttribute _ a); [eexists|].
Qed.

Section WithBrowser.
Context `{B : Browser}.

Lemma nothingAdded_captionPass_skipped (root : Node) (p : Path) (n0 : nat)
    (l : list Path) (cur cur' : Node) :
  extends root cur ->
  Forall (fun q => is_Some (nodeAt q root)) l ->
  (In p l -> captionOf (payloadAt p root) = Ok None) ->
  nothingAdded p n0 cur ->
  captionPass l cur = Ok cur' ->
  nothingAdded p n0 cur'.
Proof.
  intros Hext Hvalid. revert cur Hext.
  induction Hvalid as [|q l Hq _ IH]; intros cur Hext Hnone Hcur.
  - by intros [= <-].
  - rewrite captionPass_cons, captionStep_captionOf,
      (payloadAt_extends root cur q Hext Hq).
    destruct (captionOf (payloadAt q root)) as [[text|]|x] eqn:Hc; simpl;
      [| |discriminate].
    + apply IH.
      * eapply extends_trans; [exact Hext|].
        apply extends_updateAt, Grows_insertAdjacentHTML.
      * intros Hin. apply Hnone. by right.
      * apply nothingAdded_updateAt;
          [apply Grows_insertAdjacentHTML| |exact Hcur].
        intros ->. rewrite Hnone in Hc by (by left). discriminate.
    + apply IH; [exact Hext| |exact Hcur]. intros Hin. apply Hnone. by right.
Qed.

(** X9. [normalizeDOM] only adds to the document it parsed. When it
    returns, every node of the parsed document is still there at the same
    path: a text or a comment as it was, an element with its tag, with
    every attribute other than class as it was, and with at least the
    children it had, in their places. Nothing is removed, moved or
    renamed. *)
Theorem normalizeDocument_only_grows (doc : Document) (root' : Node) :
  normalizeDocument doc = Ok root' ->
  forall p n,
    nodeAt p (documentElement doc) = Some n ->
    exists n', nodeAt p root' = Some n' /\ grew n n'.
Proof.
  unfold normalizeDocument. set (root := documentElement doc).
  pose proof (captionPass_outcome root (filtersWithoutChildren root) (galleryPass root)
                (extends_galleryPass root) (filters_valid root)) as Hout.
  destruct (captionPass _ _) as [root2|x]; [|discriminate]. simpl.
  intros [= <-]. destruct Hout as [Hext _].
  apply (extends_trans root root2); [exact Hext|].
  apply extends_fold_left, extends_nameStep.
Qed.

(** X10. Which elements can get a new element child. When [normalizeDOM]
    returns, an element that is not a figure, or has no
    data-trix-attachment attribute, or has a figcaption anywhere below
    it, keeps its children and gets no element after them (at most text),
    whatever its data-trix-attributes payload holds: a caption is never
    added to a figure that has one, and its payload is not read. *)
Theorem only_captionless_attachments_get_elements (doc : Document) (root' : Node)
    (p : Path) (t : string) (a : list (string * string)) (ks : list Node) :
  normalizeDocument doc = Ok root' ->
  nodeAt p (documentElement doc) = Some (Element t a ks) ->
  t <> "figure" \/ getAttribute "data-trix-attachment" a = None \/
  hasFigcaptionBelow (Element t a ks) ->
  nothingAdded p (length ks) root'.
Proof.
  unfold normalizeDocument. set (root := documentElement doc).
  intros Hrun Hn Hcase.
  assert (Hnot : ~ In p (filtersWithoutChildren root)).
  { intros Hin. apply filters_In in Hin as (a' & ks' & Hn' & [v Hv] & Hl).
    rewrite Hn in Hn'. injection Hn' as -> <- <-.
    destruct Hcase as [Ht|[Ha|Hcap]]; [congruence|congruence|].
    rewrite (lacksFigcaption_false root p _ Hn Hcap) in Hl. discriminate. }
  destruct (captionPass _ _) as [root2|x] eqn:Hpass; [|discriminate].
  simpl in Hrun. injection Hrun as <-.
  unfold namePass. apply nothingAdded_fold_nameStep.
  apply (nothingAdded_captionPass_skipped root p (length ks)
           (filtersWithoutChildren root) (galleryPass root) root2);
    [apply extends_galleryPass | apply filters_valid | tauto | | exact Hpass].
  apply nothingAdded_galleryPass. exists (Element t a ks).
  split; [exact Hn|]. exists t, a, ks, []. by rewrite app_nil_r.
Qed.



Lemma hasTag_false (name : string) (p : Path) :
  forall n m, hasTag name n = false -> nodeAt p n = Some m -> isTag name m = false.
Proof.
  induction p as [|i p IH]; intros n m Hn Hm; cbn [nodeAt] in Hm.
  - injection Hm as <-. destruct n as [d|d|t a ks]; try reflexivity.
    simpl in *. by apply orb_false_iff in Hn as [Hn _].
  - destruct (childNodes n !! i) as [k|] eqn:Hk; [|discriminate].
    apply (IH k m); [|exact Hm].
    destruct n as [d|d|t a ks];
      try (cbn [childNodes] in Hk; rewrite lookup_nil in Hk; discriminate).
    simpl in *. apply orb_false_iff in Hn as [_ Hn].
    destruct (hasTag name k) eqn:Hhas; [|reflexivity].
    assert (Hex : existsb (hasTag name) ks = true); [|congruence].
    apply existsb_exists. exists k. split; [|exact Hhas].
    apply list_elem_of_In. by apply list_elem_of_lookup_2 with i.
Qed.

(** X12. A stored value without figure elements goes through unchanged:
    none of the three passes finds anything, [normalizeDOM] does not
    throw, and what it writes back is the body of the document as the
    parser built it. *)
Theorem without_figures_nothing_changes (parser : string -> Document) (value : string) :
  hasTag "figure" (documentElement (parser value)) = false ->
  normalizeDocument (parser value) = Ok (documentElement (parser value)) /\
  normalizeValue parser value = Ok (bodyHTML (documentElement (parser value))).
Proof.
  intros Hfigure. set (doc := parser value) in *. set (root := documentElement doc) in *.
  assert (Hnone : forall p n, nodeAt p root = Some n -> isTag "figure" n = false)
    by (intros p n; by apply hasTag_false).
  assert (Hempty : forall l : list Path, (forall q, ~ In q l) -> l = []).
  { intros [|q l] Hl; [reflexivity|]. destruct (Hl q). by left. }
  assert (Hfig : forall sel : Selector,
             (forall anc before m, sel anc before m = true ->
                isTag "figure" m = true \/ existsb (isTag "figure") anc = true) ->
             querySelectorAll sel root = []).
  { intros sel Hsel. apply Hempty. intros q Hq.
    apply querySelectorAll_In in Hq as (anc & before & m & Hc & _ & Hs).
    apply contextFrom_nodeAt in Hc as (Hm & Hanc & _).
    destruct (Hsel _ _ _ Hs) as [Ht|Ht].
    - by rewrite (Hnone q m Hm) in Ht.
    - apply existsb_exists in Ht as (x & Hx & Ht).
      destruct (Hanc x Hx) as [[]|[r Hr]]. by rewrite (Hnone r x Hr) in Ht. }
  assert (Hdoc : normalizeDocument doc = Ok root).
  { unfold normalizeDocument, filtersWithoutChildren, galleryPass, namePass. fold root.
    rewrite (Hfig attachmentFigure), (Hfig galleryFigure).
    - simpl. by rewrite (Hfig (attachmentName (quirksMode doc))) by
        (intros anc before m Hs; right; unfold attachmentName in Hs;
         by apply andb_true_iff in Hs as [_ Hs]).
    - intros anc before m Hs. left. unfold galleryFigure in Hs.
      by apply andb_true_iff in Hs as [Hs _]; apply andb_true_iff in Hs as [Hs _].
    - intros anc before m Hs. left. unfold attachmentFigure in Hs.
      by apply andb_true_iff in Hs as [Hs _]. }
  split; [exact Hdoc|]. unfold normalizeValue. fold doc. by rewrite Hdoc.
Qed.

End WithBrowser.
End NormalizeMoreFacts.

(* ===================================================================== *)
(** * Facts about class tokens *)
(* ===================================================================== *)

Module TokenFacts.
Import JSString DOM TokenDefs.

Lemma append_cons (c : ascii) (s t : string) : String c s +:+ t = String c (s +:+ t).
Proof. reflexivity. Qed.

Lemma append_nil_l (s : string) : EmptyString +:+ s = s.
Proof. reflexivity. Qed.

Lemma append_nil_r (s : string) : s +:+ EmptyString = s.
Proof. induction s as [|c s IH]; [reflexivity|]. by rewrite append_cons, IH. Qed.

Lemma append_assoc (s t u : string) : (s +:+ t) +:+ u = s +:+ (t +:+ u).
Proof. induction s as [|c s IH]; [reflexivity|]. by rewrite !append_cons, IH. Qed.

Lemma wsfree_append (s t : string) :
  wsfree (s +:+ t) = wsfree s && wsfree t.
Proof.
  induction s as [|c s IH]; [reflexivity|].
  rewrite append_cons. simpl. rewrite IH. by rewrite andb_assoc.
Qed.

Lemma splitWhitespaceAux_token (t : string) :
  forall cur rest,
    wsfree t = true ->
    splitWhitespaceAux cur (t +:+ rest) = splitWhitespaceAux (cur +:+ t) rest.
Proof.
  induction t as [|c t IH]; intros cur rest Hfree.
  - by rewrite append_nil_l, append_nil_r.
  - simpl in Hfree. apply andb_true_iff in Hfree as [Hc Ht].
    rewrite append_cons. cbn [splitWhitespaceAux].
    apply negb_true_iff in Hc. rewrite Hc, (IH _ _ Ht), append_assoc.
    reflexivity.
Qed.

Lemma isEmpty_false (s : string) : s <> EmptyString -> isEmpty s = false.
Proof. by destruct s. Qed.

(** Splitting what was joined gives the tokens back. *)
Lemma splitWhitespace_join (tokens : list string) :
  Forall isToken tokens -> splitWhitespace (join " " tokens) = tokens.
Proof.
  unfold splitWhitespace. induction 1 as [|t ts [Hne Hfree] Hts IH]; [reflexivity|].
  cbn [join]. destruct ts as [|u ts].
  - pose proof (splitWhitespaceAux_token t EmptyString EmptyString Hfree) as Hsplit.
    rewrite append_nil_r, append_nil_l in Hsplit. rewrite Hsplit.
    simpl. by rewrite (isEmpty_false t Hne).
  - rewrite (splitWhitespaceAux_token t _ _ Hfree), append_nil_l.
    change (" " +:+ join " " (u :: ts)) with (String " " (join " " (u :: ts))).
    cbn [splitWhitespaceAux]. 
    replace (is_ascii_whitespace " ") with true by reflexivity.
    rewrite (isEmpty_false t Hne). by rewrite IH.
Qed.

Lemma splitWhitespaceAux_tokens (s : string) :
  forall cur, wsfree cur = true -> Forall isToken (splitWhitespaceAux cur s).
Proof.
  induction s as [|c s IH]; intros cur Hcur; cbn [splitWhitespaceAux].
  - destruct cur as [|a cur]; [constructor|]. repeat constructor; [discriminate|exact Hcur].
  - destruct (is_ascii_whitespace c) eqn:Hc.
    + destruct cur as [|a cur]; simpl; [by apply IH|].
      constructor; [split; [discriminate|exact Hcur]|by apply IH].
    + apply IH. rewrite wsfree_append, Hcur. simpl. by rewrite Hc.
Qed.

Lemma dedup_spec (l : list string) :
  forall seen,
    NoDup (dedup seen l) /\
    (forall x, In x (dedup seen l) <-> In x l /\ ~ In x seen).
Proof.
  induction l as [|x l IH]; intros seen; simpl.
  - split; [constructor|]. tauto.
  - destruct (existsb (String.eqb x) seen) eqn:Hex.
    + apply existsb_exists in Hex as (y & Hy & Hxy). apply String.eqb_eq in Hxy as <-.
      destruct (IH seen) as [Hnd Hin]. split; [exact Hnd|].
      intros z. rewrite Hin. split; [tauto|]. intros [[<-|Hz] Hs]; tauto.
    + assert (Hnot : ~ In x seen).
      { intros Hx. assert (existsb (String.eqb x) seen = true); [|congruence].
        apply existsb_exists. exists x. by rewrite String.eqb_refl. }
      destruct (IH (x :: seen)) as [Hnd Hin]. split.
      * apply NoDup_cons. split; [|exact Hnd]. rewrite list_elem_of_In, Hin. simpl. tauto.
      * intros z. simpl. rewrite Hin. simpl. split.
        -- intros [<-|[Hz Hs]]; tauto.
        -- intros [[<-|Hz] Hs]; [tauto|].
           destruct (String.eqb_spec x z) as [->|Hne]; [tauto|]. right. tauto.
Qed.

Lemma dedup_NoDup (l : list string) :
  forall seen, NoDup l -> (forall x, In x l -> ~ In x seen) -> dedup seen l = l.
Proof.
  induction l as [|x l IH]; intros seen Hnd Hdisj; [reflexivity|]. simpl.
  apply NoDup_cons in Hnd as [Hx Hnd]. rewrite list_elem_of_In in Hx.
  destruct (existsb (String.eqb x) seen) eqn:Hex.
  - apply existsb_exists in Hex as (y & Hy & Hxy). apply String.eqb_eq in Hxy as <-.
    destruct (Hdisj x); simpl; tauto.
  - f_equal. apply IH; [exact Hnd|]. intros z Hz [<-|Hs]; [tauto|].
    apply (Hdisj z); simpl; tauto.
Qed.

Lemma classTokens_valid (attrs : list (string * string)) :
  NoDup (classTokens attrs) /\ Forall isToken (classTokens attrs).
Proof.
  unfold classTokens. destruct (getAttribute "class" attrs) as [v|];
    [|split; constructor].
  destruct (dedup_spec (splitWhitespace v) []) as [Hnd Hin]. split; [exact Hnd|].
  apply Forall_forall. intros x Hx. apply list_elem_of_In, Hin in Hx as [Hx _].
  pose proof (splitWhitespaceAux_tokens v EmptyString eq_refl) as Htok.
  rewrite Forall_forall in Htok. by apply Htok, list_elem_of_In.
Qed.

Lemma getAttribute_setAttribute (name value : string) (attrs : list (string * string)) :
  getAttribute name (setAttribute name value attrs) = Some value.
Proof.
  induction attrs as [|[k v] attrs IH]; simpl.
  - by rewrite String.eqb_refl.
  - destruct (String.eqb_spec k name) as [->|Hne]; simpl.
    + by rewrite String.eqb_refl.
    + destruct (String.eqb_spec k name); [contradiction|exact IH].
Qed.

Lemma existsb_eqb_In (x : string) (l : list string) :
  existsb (String.eqb x) l = true <-> In x l.
Proof.
  rewrite existsb_exists. split.
  - intros (y & Hy & Hxy). by apply String.eqb_eq in Hxy as <-.
  - intros Hx. exists x. by rewrite String.eqb_refl.
Qed.

(** [classList.add] on the tokens of an element: the token joins the
    set, last, when it is not in it; the other tokens stay, in order. *)
Lemma classTokens_addClassToken (token : string) (attrs : list (string * string)) :
  isToken token ->
  classTokens (addClassToken token attrs) = withToken token (classTokens attrs).
Proof.
  intros Htok. unfold addClassToken, withToken.
  destruct (classTokens_valid attrs) as [Hnd Hval].
  set (tokens := classTokens attrs) in *.
  set (tokens' := if existsb (String.eqb token) tokens then tokens else tokens ++ [token]).
  assert (Hnd' : NoDup tokens' /\ Forall isToken tokens').
  { unfold tokens'. destruct (existsb (String.eqb token) tokens) eqn:Hex; [by split|].
    split.
    - apply NoDup_app. split; [exact Hnd|]. split; [|apply NoDup_singleton].
      intros x Hx Hx'. apply list_elem_of_In in Hx, Hx'. destruct Hx' as [<-|[]].
      apply existsb_eqb_In in Hx. congruence.
    - apply Forall_app. split; [exact Hval|]. by apply Forall_singleton. }
  destruct Hnd' as [Hnd' Hval'].
  unfold classTokens at 1. rewrite getAttribute_setAttribute.
  rewrite (splitWhitespace_join tokens' Hval'). apply dedup_NoDup; [exact Hnd'|]. 
  by intros x _ [].
Qed.

Lemma withToken_idempotent (token : string) (tokens : list string) :
  withToken token (withToken token tokens) = withToken token tokens.
Proof.
  unfold withToken. destruct (existsb (String.eqb token) tokens) eqn:Hex.
  - by rewrite Hex.
  - assert (H : existsb (String.eqb token) (tokens ++ [token]) = true).
    { apply existsb_eqb_In, in_app_iff. right. by left. }
    by rewrite H.
Qed.

Lemma withToken_In (token : string) (tokens : list string) :
  In token (withToken token tokens) /\
  (forall x, In x tokens -> In x (withToken token tokens)).
Proof.
  unfold withToken. destruct (existsb (String.eqb token) tokens) eqn:Hex.
  - split; [by apply existsb_eqb_In|auto].
  - split; [apply in_app_iff; right; by left|].
    intros x Hx. apply in_app_iff. by left.
Qed.

End TokenFacts.

(* ===================================================================== *)
(** * Facts about the gallery pass *)
(* ===================================================================== *)

Module GalleryFacts.
Import JSString DOM Normalize DOMContext TokenDefs GalleryDefs.
Import DOMFacts NormalizeFacts SelectorFacts TokenFacts NormalizeMoreFacts.

Lemma contextFrom_snoc (q : Path) (i : nat) :
  forall anc before n,
    contextFrom anc before (q ++ [i]) n =
    match contextFrom anc before q n with
    | Some (anc', _, x) =>
        match childNodes x !! i with
        | Some k => Some (x :: anc', take i (childNodes x), k)
        | None => None
        end
    | None => None
    end.
Proof.
  induction q as [|j q IH]; intros anc before n; cbn [app contextFrom].
  - by destruct (childNodes n !! i).
  - destruct (childNodes n !! j) as [k|]; [apply IH|reflexivity].
Qed.

Lemma contextFrom_node (p : Path) :
  forall anc before n,
    option_map snd (contextFrom anc before p n) = nodeAt p n.
Proof.
  induction p as [|i p IH]; intros anc before n; cbn [contextFrom nodeAt]; [reflexivity|].
  destruct (childNodes n !! i) as [k|]; [apply IH|reflexivity].
Qed.

Lemma find_first (ks : list Node) (c : Node) :
  List.find isElement ks = Some c <->
  exists i, ks !! i = Some c /\ isElement c = true /\
            forallb (fun s => negb (isElement s)) (take i ks) = true.
Proof.
  induction ks as [|k ks IH]; simpl.
  - split; [discriminate|]. by intros (i & Hi & _).
  - destruct (isElement k) eqn:Hk.
    + split.
      * intros [= <-]. by exists 0.
      * intros ([|i] & Hi & Hc & Hb); simpl in *; [congruence|].
        rewrite Hk in Hb. discriminate.
    + rewrite IH. split.
      * intros (i & Hi & Hc & Hb). exists (S i). simpl. by rewrite Hk.
      * intros ([|i] & Hi & Hc & Hb); simpl in *; [congruence|].
        rewrite Hk in Hb. by exists i.
Qed.

Lemma parentElement_snoc (q : Path) (i : nat) : parentElement (q ++ [i]) = Some q.
Proof.
  unfold parentElement. destruct (q ++ [i]) eqn:Hqi; [by destruct q|].
  by rewrite <- Hqi, removelast_last.
Qed.

(** The parents of the figures that [div > figure:first-child] finds. *)
Lemma galleryFigure_parent (root : Node) (q : Path) :
  (exists p, In p (querySelectorAll galleryFigure root) /\ parentElement p = Some q) <->
  exists parent, nodeAt q root = Some parent /\ isGalleryParent parent = true.
Proof.
  split.
  - intros (p & Hp & Hq). apply querySelectorAll_In in Hp as (anc & before & m & Hc & _ & Hs).
    destruct p as [|j p'] using rev_ind; [discriminate|]. clear IHp'.
    rewrite parentElement_snoc in Hq. injection Hq as ->.
    unfold contextAt in Hc. rewrite contextFrom_snoc in Hc.
    destruct (contextFrom [] [] q root) as [[[anc' before'] x]|] eqn:Hx; [|discriminate].
    destruct (childNodes x !! j) as [k|] eqn:Hk; [|discriminate].
    injection Hc as <- <- <-.
    exists x. split.
    + by rewrite <- (contextFrom_node q [] []), Hx.
    + unfold galleryFigure in Hs.
      apply andb_true_iff in Hs as [Hs Hb]. apply andb_true_iff in Hs as [Hfig Hdiv].
      unfold isGalleryParent, firstElementChild. rewrite Hdiv. simpl.
      assert (Hfind : List.find isElement (childNodes x) = Some k).
      { apply find_first. exists j. split; [exact Hk|]. split; [by destruct k|exact Hb]. }
      by rewrite Hfind.
  - intros (parent & Hn & Hg). unfold isGalleryParent, firstElementChild in Hg.
    apply andb_true_iff in Hg as [Hdiv Hfig].
    destruct (List.find isElement (childNodes parent)) as [c|] eqn:Hfind; [|discriminate].
    apply find_first in Hfind as (i & Hi & Hel & Hb).
    exists (q ++ [i]). split.
    + apply querySelectorAll_In. unfold contextAt. rewrite contextFrom_snoc.
      destruct (contextFrom_of_nodeAt q [] [] root parent Hn) as (anc & before & Hc).
      rewrite Hc, Hi. eexists _, _, c. split; [reflexivity|]. split; [exact Hel|].
      unfold galleryFigure. by rewrite Hfig, Hdiv, Hb.
    + apply parentElement_snoc.
Qed.

Lemma Appends_Grows (f : Node -> Node) : Appends f -> Grows f.
Proof.
  intros Hf n. destruct (Hf n) as [extra Hn]. rewrite Hn.
  apply Grows_appendNodes.
Qed.

(** A change somewhere else leaves the tag and the attributes of an
    element as they are. *)
Lemma shell_updateAt_other (q q' : Path) (f : Node -> Node) (d : Node)
    (t : string) (a : list (string * string)) (ks : list Node) :
  Grows f -> q <> q' ->
  nodeAt q d = Some (Element t a ks) ->
  exists ks', nodeAt q (updateAt q' f d) = Some (Element t a ks').
Proof.
  intros Hf Hne Hn. destruct (decide (q `prefix_of` q')) as [[r ->]|Hapart].
  - rewrite nodeAt_updateAt_below, Hn. destruct r as [|i r].
    + by rewrite app_nil_r in Hne.
    + simpl. by eexists.
  - exists ks. by apply nodeAt_updateAt_apart.
Qed.

Lemma shell_updateAt_appends (q q' : Path) (f : Node -> Node) (d : Node)
    (t : string) (a : list (string * string)) (ks : list Node) :
  Appends f ->
  nodeAt q d = Some (Element t a ks) ->
  exists ks', nodeAt q (updateAt q' f d) = Some (Element t a ks').
Proof.
  intros Hf Hn. destruct (decide (q = q')) as [<-|Hne].
  - rewrite nodeAt_updateAt_here, Hn. cbn [option_map].
    destruct (Hf (Element t a ks)) as [extra ->]. simpl. by eexists.
  - by apply (shell_updateAt_other q q' f d t a ks); [apply Appends_Grows|..].
Qed.

Lemma getAttribute_addClassToken (token name : string) (attrs : list (string * string)) :
  name <> "class" ->
  getAttribute name (addClassToken token attrs) = getAttribute name attrs.
Proof.
  intros Hne. unfold addClassToken.
  by apply LightDOMFacts.getAttribute_setAttribute_ne.
Qed.

Lemma galleryToken : isToken "attachment-gallery".
Proof. split; [discriminate|reflexivity]. Qed.

(** The class of an element after the gallery pass over the matches [l]. *)
Lemma gallery_fold (q : Path) (t : string) (l : list Path) :
  forall d a ks,
    nodeAt q d = Some (Element t a ks) ->
    exists a' ks',
      nodeAt q (fold_left galleryStep l d) = Some (Element t a' ks') /\
      if decide (Exists (fun p => parentElement p = Some q) l)
      then classTokens a' = withToken "attachment-gallery" (classTokens a) /\
           forall name, name <> "class" -> getAttribute name a' = getAttribute name a
      else a' = a.
Proof.
  induction l as [|p l IH]; intros d a ks Hn.
  - exists a, ks. split; [exact Hn|]. destruct (decide _) as [Hex|_]; [|reflexivity].
    by apply Exists_nil in Hex.
  - cbn [fold_left]. unfold galleryStep at 2.
    destruct (parentElement p) as [q'|] eqn:Hp.
    + destruct (decide (q' = q)) as [->|Hne].
      * assert (Hn1 : nodeAt q (updateAt q (classListAdd "attachment-gallery") d)
                      = Some (Element t (addClassToken "attachment-gallery" a) ks))
          by (by rewrite nodeAt_updateAt_here, Hn).
        destruct (IH _ _ _ Hn1) as (a' & ks' & Hn' & Hcase).
        exists a', ks'. split; [exact Hn'|].
        rewrite decide_True by (by apply Exists_cons_hd).
        destruct (decide _) as [_|_].
        -- destruct Hcase as [Htok Hother].
           rewrite Htok, (classTokens_addClassToken _ _ galleryToken), withToken_idempotent.
           split; [reflexivity|]. intros name Hname.
           by rewrite Hother, getAttribute_addClassToken.
        -- subst a'. split; [by apply classTokens_addClassToken, galleryToken|].
           intros name Hname. by apply getAttribute_addClassToken.
      * destruct (shell_updateAt_other q q' (classListAdd "attachment-gallery") d t a ks)
          as [ks1 Hn1]; [apply Grows_classListAdd|congruence|exact Hn|].
        destruct (IH _ _ _ Hn1) as (a' & ks' & Hn' & Hcase).
        exists a', ks'. split; [exact Hn'|].
        destruct (decide (Exists _ l)) as [Hex|Hex].
        -- by rewrite decide_True by (by apply Exists_cons_tl).
        -- rewrite decide_False; [exact Hcase|].
           intros Hex'. apply Exists_cons in Hex' as [Heq|Hex']; congruence.
    + destruct (IH _ _ _ Hn) as (a' & ks' & Hn' & Hcase).
      exists a', ks'. split; [exact Hn'|].
      destruct (decide (Exists _ l)) as [Hex|Hex].
      * by rewrite decide_True by (by apply Exists_cons_tl).
      * rewrite decide_False; [exact Hcase|].
        intros Hex'. apply Exists_cons in Hex' as [Heq|Hex']; congruence.
Qed.

Lemma fold_nameStep_shell (q : Path) (t : string) (a : list (string * string))
    (l : list Path) :
  forall d ks,
    nodeAt q d = Some (Element t a ks) ->
    exists ks', nodeAt q (fold_left nameStep l d) = Some (Element t a ks').
Proof.
  induction l as [|p l IH]; intros d ks Hn; [by exists ks|].
  cbn [fold_left]. unfold nameStep at 2.
  destruct (nodeAt p d); [|by apply (IH d ks)].
  destruct (negb _); [by apply (IH d ks)|].
  destruct (shell_updateAt_appends q p (appendNodes [Text separatorGlyph]) d t a ks)
    as [ks1 Hn1]; [intros x0; by eexists|exact Hn|].
  by apply (IH _ ks1).
Qed.

Section WithBrowser.
Context `{B : Browser}.

Lemma captionPass_shell (q : Path) (t : string) (a : list (string * string))
    (l : list Path) :
  forall d d' ks,
    nodeAt q d = Some (Element t a ks) ->
    captionPass l d = Ok d' ->
    exists ks', nodeAt q d' = Some (Element t a ks').
Proof.
  induction l as [|p l IH]; intros d d' ks Hn Hrun.
  - injection Hrun as <-. by exists ks.
  - rewrite captionPass_cons, captionStep_captionOf in Hrun.
    destruct (captionOf (payloadAt p d)) as [[text|]|x]; simpl in Hrun; [| |discriminate].
    + destruct (shell_updateAt_appends q p
                  (insertAdjacentHTML_beforeend (captionHTML text)) d t a ks)
        as [ks1 Hn1]; [intros x0; by eexists|exact Hn|].
      by apply (IH _ d' ks1 Hn1).
    + by apply (IH d d' ks).
Qed.

(** X13. The gallery class, and the attributes [normalizeDOM] leaves
    alone. When it returns, every element of the parsed document is still
    at its path with its tag. A div whose first element child is a figure
    has the class attachment-gallery: its class tokens are those it had,
    in order, with attachment-gallery after them if it was not among
    them, and its other attributes are as they were; this also for a div
    with a single figure. Every other element has all its attributes
    exactly as they were. *)
Theorem gallery_class_and_attributes (doc : Document) (root' : Node)
    (q : Path) (t : string) (a : list (string * string)) (ks : list Node) :
  normalizeDocument doc = Ok root' ->
  nodeAt q (documentElement doc) = Some (Element t a ks) ->
  exists a' ks',
    nodeAt q root' = Some (Element t a' ks') /\
    if isGalleryParent (Element t a ks)
    then In "attachment-gallery" (classTokens a') /\
         classTokens a' = withToken "attachment-gallery" (classTokens a) /\
         forall name, name <> "class" -> getAttribute name a' = getAttribute name a
    else a' = a.
Proof.
  unfold normalizeDocument. set (root := documentElement doc). intros Hrun Hn.
  destruct (captionPass _ _) as [root2|x] eqn:Hpass; [|discriminate].
  simpl in Hrun. injection Hrun as <-.
  destruct (gallery_fold q t (querySelectorAll galleryFigure root) root a ks Hn)
    as (a' & ks1 & Hn1 & Hcase).
  fold (galleryPass root) in Hn1.
  destruct (captionPass_shell q t a' _ _ _ ks1 Hn1 Hpass) as [ks2 Hn2].
  destruct (fold_nameStep_shell q t a'
              (querySelectorAll (attachmentName (quirksMode doc)) root2) root2 ks2 Hn2)
    as [ks3 Hn3].
  exists a', ks3. split; [exact Hn3|].
  destruct (isGalleryParent (Element t a ks)) eqn:Hg.
  - rewrite decide_True in Hcase.
    + destruct Hcase as [Htok Hother]. split; [|by split].
      rewrite Htok. apply (proj1 (withToken_In _ _)).
    + apply Exists_exists.
      destruct (proj2 (galleryFigure_parent root q)) as (p & Hp & Hq).
      { by exists (Element t a ks). }
      exists p. split; [by apply list_elem_of_In|exact Hq].
  - rewrite decide_False in Hcase; [exact Hcase|].
    intros Hex. apply Exists_exists in Hex as (p & Hp & Hq).
    destruct (proj1 (galleryFigure_parent root q)) as (parent & Hparent & Hg').
    { exists p. split; [by apply list_elem_of_In|exact Hq]. }
    rewrite Hn in Hparent. injection Hparent as <-. congruence.
Qed.

End WithBrowser.
End GalleryFacts.

(* ===================================================================== *)
(** * Facts about the life cycle *)
(* ===================================================================== *)

Module LifecycleFacts.
Import JSString Host Lifecycle LightDOMFacts HostFacts SetupDefs SetupFacts IntakeFacts.

Section Facts.
Context `{B : Browser} `{E : Engine}.

(** *** The editor callbacks *)

Lemma requestUpdate_returns (h : Host) :
  finalState (requestUpdate h) = log RequestedUpdate h.
Proof. reflexivity. Qed.

Lemma synced_final (h : Host) : finalState (updateInputElementValue h) = synced h.
Proof. by rewrite updateInputElementValue_returns. Qed.

(** X14. The six editor callbacks. [update] and [blur] first write
    [serialize()] into the bound input (unless the host is readonly, or
    holds no editor, or the input does not resolve), then ask for a
    render, then dispatch change, respectively blur: the listeners of
    the notification find the bound input already written. The other
    four never write the page: [create] and [transaction] only ask for a
    render, [selectionUpdate] asks for a render and then dispatches
    selection-change with the transaction it was given, [focus]
    dispatches focus before it asks for a render. Each callback asks for
    exactly one render and leaves the editor as it is. *)
Theorem callbacks_write_then_notify (s : Component) :
  (forall ev n,
      (ev = OnUpdate /\ n = RhinoChangeEvent) \/ (ev = OnBlur /\ n = RhinoBlurEvent) ->
      host (handler ev s) = log RequestedUpdate (synced (host s)) /\
      dispatched (handler ev s)
      = dispatched s ++ [(n, log RequestedUpdate (synced (host s)))] /\
      (forall id e,
          inputElement (host s) = Some id -> editor (host s) = Some e ->
          readonly (host s) = false ->
          page (host (handler ev s)) !! id = Some (serialized (host s))) /\
      (readonly (host s) = true \/ editor (host s) = None \/
       inputElement (host s) = None ->
       page (host (handler ev s)) = page (host s))) /\
  (forall ev,
      ev = OnCreate \/ ev = OnTransaction ->
      host (handler ev s) = log RequestedUpdate (host s) /\
      dispatched (handler ev s) = dispatched s) /\
  (forall transaction,
      host (handler (OnSelectionUpdate transaction) s) = log RequestedUpdate (host s) /\
      dispatched (handler (OnSelectionUpdate transaction) s)
      = dispatched s ++ [(SelectionChangeEvent transaction, log RequestedUpdate (host s))]) /\
  (host (handler OnFocus s) = log RequestedUpdate (host s) /\
   dispatched (handler OnFocus s) = dispatched s ++ [(RhinoFocusEvent, host s)]) /\
  (forall ev,
      editor (host (handler ev s)) = editor (host s) /\
      effects (host (handler ev s)) = effects (host s) ++ [RequestedUpdate] /\
      timers (handler ev s) = timers s).
Proof.
  assert (Hsync : editor (synced (host s)) = editor (host s) /\
                  effects (synced (host s)) = effects (host s)).
  { unfold synced.
    destruct (inputElement (host s)), (editor (host s)) eqn:He, (readonly (host s));
      simpl; rewrite ?He; by split. }
  split; [|split; [|split; [|split]]].
  - intros ev n Hev.
    assert (Hhost : host (handler ev s) = log RequestedUpdate (synced (host s)) /\
                    dispatched (handler ev s)
                    = dispatched s ++ [(n, log RequestedUpdate (synced (host s)))]).
    { destruct Hev as [[-> ->]|[-> ->]]; simpl; by rewrite synced_final. }
    destruct Hhost as [Hhost Hd]. rewrite Hhost. split; [reflexivity|].
    split; [exact Hd|]. split.
    + intros id e Hin He Hro. unfold synced. rewrite Hin, He, Hro. simpl.
      by rewrite lookup_insert_eq.
    + intros Hcase. unfold synced.
      destruct (inputElement (host s)), (editor (host s)), (readonly (host s));
        try reflexivity.
      destruct Hcase as [?|[?|?]]; discriminate.
  - by intros ev [-> | ->].
  - by intros transaction.
  - by split.
  - intros ev. destruct Hsync as [Hed Heff].
    destruct ev; simpl; rewrite ?synced_final; simpl; rewrite ?Hed, ?Heff; by repeat split.
Qed.

(** *** Attaching and detaching *)

Lemma off_boundEvents (l : list string) :
  forall name, In name boundEvents ->
               ~ In name (fold_left (fun l event => off event l) boundEvents l).
Proof.
  assert (Hoff : forall events l name,
             In name (fold_left (fun l event => off event l) events l) ->
             In name l /\ ~ In name events).
  { induction events as [|ev events IH]; intros l0 name Hin; simpl in *; [tauto|].
    apply IH in Hin as [Hin Hnot]. unfold off in Hin. apply filter_In in Hin as [Hin Hne].
    split; [exact Hin|]. intros [<-|Hev]; [|tauto].
    by rewrite String.eqb_refl in Hne. }
  intros name Hname Hin. by apply Hoff in Hin as [_ Hnot].
Qed.

Lemma bound_0 (ev : EditorEvent) (e : Editor) :
  ~ In (eventName ev) (listeners e) -> bound ev e = 0.
Proof.
  unfold bound. intros Hnot.
  destruct (List.filter _ _) as [|x l] eqn:Hf; [reflexivity|].
  assert (Hx : In x (List.filter (String.eqb (eventName ev)) (listeners e)))
    by (rewrite Hf; by left).
  apply filter_In in Hx as [Hx Heq]. apply String.eqb_eq in Heq as <-. tauto.
Qed.

Lemma eventName_bound (ev : EditorEvent) : In (eventName ev) boundEvents.
Proof. destruct ev; simpl; tauto. Qed.

Lemma connectedCallback_unfold (s : Component) :
  connectedCallback s =
  setTimeout RebuildTask
    (set_hostAttrs (DOM.addClassToken "rhino-editor" (hostAttrs s))
       (dispatchEvent BeforeInitializeEvent (set_host (unbound (host s)) s))).
Proof.
  unfold connectedCallback. destruct (editor (host s)) eqn:He; [reflexivity|].
  assert (Hs : set_host (unbound (host s)) s = s).
  { unfold unbound, __unBindEditorListeners, modify, update_editor. cbn [finalState].
    rewrite He. destruct s as [h a t d x ev u un]. unfold set_host. simpl in *. f_equal.
    destruct h. simpl in *. by subst. }
  by rewrite Hs.
Qed.

(** X15. [connectedCallback] defers the rebuild. When it returns, the host
    holds the editor it held (none on first attach) whose listeners are
    all unbound, its light DOM, page and fields are as they were, the
    before-initialize notification has been dispatched on that host, the
    host element has the class rhino-editor, and one task is queued after
    those already waiting. When that task runs, [rebuildEditor] runs;
    initialize is dispatched after it, on the rebuilt host, exactly when
    it returns; when it throws the exception is left uncaught and
    initialize is never dispatched. *)
Theorem connectedCallback_defers_rebuild (s : Component) :
  let s' := connectedCallback s in
  host s' = unbound (host s) /\
  lightDOM (host s') = lightDOM (host s) /\
  page (host s') = page (host s) /\
  option_map editorId (editor (host s')) = option_map editorId (editor (host s)) /\
  (forall e ev, editor (host s') = Some e -> bound ev e = 0) /\
  (forall ev, emit ev s' = s') /\
  timers s' = timers s ++ [RebuildTask] /\
  dispatched s' = dispatched s ++ [(BeforeInitializeEvent, host s')] /\
  In "rhino-editor" (DOM.classTokens (hostAttrs s')) /\
  (timers s = [] ->
   match rebuildEditor (host s') with
   | Returned _ h' =>
       host (tick s') = h' /\
       dispatched (tick s') = dispatched s' ++ [(InitializeEvent, h')] /\
       uncaught (tick s') = uncaught s
   | Thrown x h' =>
       host (tick s') = h' /\
       dispatched (tick s') = dispatched s' /\
       uncaught (tick s') = uncaught s ++ [x]
   end).
Proof.
  cbv zeta. rewrite connectedCallback_unfold. cbn -[unbound DOM.addClassToken rebuildEditor].
  split; [reflexivity|].
  assert (Hun : lightDOM (unbound (host s)) = lightDOM (host s) /\
                page (unbound (host s)) = page (host s) /\
                option_map editorId (editor (unbound (host s)))
                = option_map editorId (editor (host s))).
  { unfold unbound, __unBindEditorListeners, modify, update_editor. simpl.
    by destruct (editor (host s)). }
  destruct Hun as (Hl & Hp & He). split; [exact Hl|]. split; [exact Hp|].
  split; [exact He|].
  assert (Hbound : forall e ev, editor (unbound (host s)) = Some e -> bound ev e = 0).
  { intros e ev Hed. apply bound_0. intros Hin.
    unfold unbound, __unBindEditorListeners, modify, update_editor in Hed. simpl in Hed.
    destruct (editor (host s)) as [e0|]; [|discriminate]. simpl in Hed.
    injection Hed as <-. cbn [listeners] in Hin.
    by apply (off_boundEvents (listeners e0) (eventName ev) (eventName_bound ev)). }
  split; [exact Hbound|]. split.
  { intros ev. unfold emit. cbn -[unbound DOM.addClassToken bound].
    destruct (editor (unbound (host s))) as [e|] eqn:Hed; [|reflexivity].
    by rewrite (Hbound e ev eq_refl). }
  split; [reflexivity|]. split; [reflexivity|]. split.
  { rewrite (TokenFacts.classTokens_addClassToken "rhino-editor");
      [apply (proj1 (TokenFacts.withToken_In _ _)) | split; [discriminate|reflexivity]]. }
  intros Ht. unfold tick. cbn -[unbound DOM.addClassToken rebuildEditor].
  rewrite Ht. cbn -[unbound DOM.addClassToken rebuildEditor].
  destruct (rebuildEditor (unbound (host s))) as [[] h'|x h']; by repeat split.
Qed.


(** The editor a rebuild that returns leaves on the host. *)
Lemma rebuildEditor_new_editor (h h' : Host) :
  rebuildEditor h = Returned tt h' ->
  exists e,
    editor h' = Some e /\ editorId e = nextEditor h /\ listeners e = boundEvents /\
    container e = nextNode h.
Proof.
  rewrite rebuildEditor_unfold.
  destruct (__setupEditor (nextNode h) (afterSlot h)) as [e h2|x h2] eqn:Hsetup;
    [|discriminate].
  intros [= <-].
  destruct (setupEditor_returned _ _ _ _ Hsetup) as (pg & -> & Hc & _).
  rewrite construct_outcome in Hc. exists (bindListeners e). split; [reflexivity|].
  destruct (negb _ && _); [destruct (JSON.parse _); [|discriminate]|];
    injection Hc as <-; by repeat split.
Qed.

(** X16. [disconnectedCallback] destroys the editor the host holds and
    does nothing else: the host keeps its reference to the destroyed
    editor, and the tasks already queued stay queued. So a host attached
    and detached again before its deferred rebuild has run is rebuilt all
    the same: the task builds a new editor on the detached host, and
    [destroy] is never called on that one. *)
Theorem disconnectedCallback_cancels_nothing (s : Component) :
  host (disconnectedCallback s) = host s /\
  timers (disconnectedCallback s) = timers s /\
  dispatched (disconnectedCallback s) = dispatched s /\
  destroyed (disconnectedCallback s)
  = destroyed s ++ match editor (host s) with Some e => [editorId e] | None => [] end /\
  (timers s = [] ->
   forall h', rebuildEditor (unbound (host s)) = Returned tt h' ->
     host (tick (disconnectedCallback (connectedCallback s))) = h' /\
     (exists e, editor h' = Some e /\ editorId e = nextEditor (host s)) /\
     destroyed (tick (disconnectedCallback (connectedCallback s)))
     = destroyed s ++ match editor (host s) with Some e => [editorId e] | None => [] end /\
     dispatched (tick (disconnectedCallback (connectedCallback s)))
     = dispatched s ++ [(BeforeInitializeEvent, unbound (host s)); (InitializeEvent, h')]).
Proof.
  assert (Hd : forall s0,
             disconnectedCallback s0
             = set_destroyed
                 (destroyed s0 ++ match editor (host s0) with
                                  | Some e => [editorId e]
                                  | None => []
                                  end) s0).
  { intros s0. unfold disconnectedCallback. destruct (editor (host s0)); [reflexivity|].
    rewrite app_nil_r. by destruct s0. }
  rewrite !Hd. split; [reflexivity|]. split; [reflexivity|]. split; [reflexivity|].
  split; [reflexivity|]. intros Ht h' Hrun.
  rewrite connectedCallback_unfold. unfold tick.
  cbn -[unbound DOM.addClassToken rebuildEditor]. rewrite Ht.
  cbn -[unbound DOM.addClassToken rebuildEditor]. rewrite Hrun.
  cbn -[unbound DOM.addClassToken rebuildEditor].
  assert (Hid : editor (unbound (host s)) = None /\ editor (host s) = None \/
                exists e e', editor (unbound (host s)) = Some e' /\
                             editor (host s) = Some e /\ editorId e' = editorId e).
  { unfold unbound, __unBindEditorListeners, modify, update_editor. simpl.
    destruct (editor (host s)) as [e|]; [right|left; by split].
    by eexists _, _. }
  destruct (rebuildEditor_new_editor _ _ Hrun) as (e & He & Hid' & _).
  split; [reflexivity|]. split; [by exists e|]. split.
  - destruct Hid as [[-> ->]|(e0 & e1 & -> & -> & ->)]; reflexivity.
  - by rewrite <- app_assoc.
Qed.

(** *** Uploads *)

Lemma startUpload_uploads (ev : AttachmentEvent) (s : Component) :
  startUpload ev s = set_uploads (uploads s ++ option_list (uploadFor ev)) s.
Proof.
  unfold startUpload, uploadFor.
  assert (Hs : set_uploads (uploads s ++ []) s = s)
    by (rewrite app_nil_r; by destruct s).
  destruct (ev_defaultPrevented ev); [symmetry; exact Hs|].
  destruct (ev_attachment ev); [|symmetry; exact Hs].
  destruct (ev_targetIsHTMLElement ev); [reflexivity|symmetry; exact Hs].
Qed.

(** X17. The upload is decided when the deferred task runs, not when the
    add-attachment notification reaches the host's listener.
    [handleAttachment] itself only queues a task. When the task runs, an
    upload is started exactly when the event is not canceled by then,
    its target is an HTML element and its attachment has a file. A
    listener that cancels the event after the host's listener has run,
    and before the task runs, suppresses the upload. *)
Theorem upload_decided_when_task_runs (s : Component) (event : nat) (ev : AttachmentEvent) :
  timers s = [] ->
  attachmentEvents s !! event = Some ev ->
  uploads (handleAttachment event s) = uploads s /\
  timers (handleAttachment event s) = [UploadTask event] /\
  uploads (tick (handleAttachment event s))
  = uploads s ++ match ev_attachment ev with
                 | WithFile a =>
                     if negb (ev_defaultPrevented ev) && ev_targetIsHTMLElement ev
                     then [a] else []
                 | WithoutFile _ => []
                 end /\
  uploads (tick (preventDefault event (handleAttachment event s))) = uploads s /\
  timers (tick (handleAttachment event s)) = [].
Proof.
  intros Ht Hev. unfold handleAttachment, setTimeout, tick, preventDefault. simpl.
  rewrite Ht. simpl. rewrite Hev, list_lookup_alter_eq, Hev. simpl.
  rewrite !startUpload_uploads. unfold uploadFor. simpl.
  repeat split; try (by rewrite app_nil_r).
  destruct (ev_defaultPrevented ev), (ev_attachment ev), (ev_targetIsHTMLElement ev);
    reflexivity.
Qed.


(** *** From the files to the uploads *)

Lemma attachmentsNotified_app (l1 l2 : list Effect) :
  attachmentsNotified (l1 ++ l2) = attachmentsNotified l1 ++ attachmentsNotified l2.
Proof. apply omap_app. Qed.

Lemma attachmentsNotified_accept (events : list (File * bool)) :
  attachmentsNotified (acceptTrace events) = [].
Proof. induction events as [|[f b] events IH]; [reflexivity|exact IH]. Qed.

Lemma attachmentsNotified_add (atts : list AttachmentManager) :
  attachmentsNotified (addAttachmentTrace atts) = atts.
Proof.
  induction atts as [|a atts IH]; [reflexivity|].
  change (attachmentsNotified (addAttachmentTrace (a :: atts)))
    with (a :: attachmentsNotified (addAttachmentTrace atts)).
  by rewrite IH.
Qed.

Lemma attachmentsNotified_insertion (view : nat) (atts : list AttachmentManager) :
  attachmentsNotified (insertionTrace view atts) = atts.
Proof.
  destruct atts as [|a atts]; [reflexivity|].
  unfold insertionTrace. 
  change (attachmentsNotified (SetAttachment view (a :: atts) :: addAttachmentTrace (a :: atts)))
    with (attachmentsNotified (addAttachmentTrace (a :: atts))).
  apply attachmentsNotified_add.
Qed.

Lemma list_omap_ext_in {A C} (f g : A -> option C) (l : list A) :
  (forall x, In x l -> f x = g x) -> omap f l = omap g l.
Proof.
  induction l as [|x l IH]; intros Hfg; [reflexivity|]. cbn [omap list_omap].
  rewrite (Hfg x) by (by left). rewrite IH; [reflexivity|].
  intros y Hy. apply Hfg. by right.
Qed.

Lemma listen_all (atts : list AttachmentManager) :
  forall s,
    let s' := fold_left (fun s a => listenAddAttachment a s) atts s in
    host s' = host s /\ uploads s' = uploads s /\ dispatched s' = dispatched s /\
    attachmentEvents s' = attachmentEvents s ++ map eventFor atts /\
    timers s'
    = timers s ++ map UploadTask (seq (length (attachmentEvents s)) (length atts)).
Proof.
  induction atts as [|a atts IH]; intros s; cbn [fold_left].
  - simpl. by rewrite !app_nil_r.
  - destruct (IH (listenAddAttachment a s)) as (Hh & Hu & Hd & Hev & Ht).
    cbv zeta. rewrite Hh, Hu, Hd, Hev, Ht.
    unfold listenAddAttachment, handleAttachment, setTimeout. simpl.
    rewrite length_app. simpl. rewrite Nat.add_1_r, <- !app_assoc. by repeat split.
Qed.

Lemma ticks_uploads (idxs : list nat) :
  forall s,
    timers s = map UploadTask idxs ->
    uploads (ticks (length idxs) s)
    = uploads s ++ omap (fun i => attachmentEvents s !! i ≫= uploadFor) idxs /\
    timers (ticks (length idxs) s) = [] /\
    host (ticks (length idxs) s) = host s.
Proof.
  induction idxs as [|i idxs IH]; intros s Ht; cbn [ticks length omap].
  - by rewrite app_nil_r.
  - unfold tick. rewrite Ht. cbn [map runTask].
    set (s1 := match attachmentEvents (set_timers (map UploadTask idxs) s) !! i with
               | Some ev => startUpload ev (set_timers (map UploadTask idxs) s)
               | None => set_timers (map UploadTask idxs) s
               end).
    assert (Hs1 : timers s1 = map UploadTask idxs /\
                  attachmentEvents s1 = attachmentEvents s /\
                  host s1 = host s /\
                  uploads s1 = uploads s
                               ++ option_list (attachmentEvents s !! i ≫= uploadFor)).
    { unfold s1. cbn [attachmentEvents set_timers].
      destruct (attachmentEvents s !! i) as [ev|]; simpl.
      - rewrite startUpload_uploads. by repeat split.
      - by rewrite app_nil_r. }
    destruct Hs1 as (Ht1 & Hev1 & Hh1 & Hu1).
    destruct (IH s1 Ht1) as (Hu & Ht' & Hh). rewrite Hu, Ht', Hh, Hu1, Hev1, Hh1.
    split; [|by split]. rewrite <- app_assoc. f_equal.
    cbn [omap list_omap]. by destruct (attachmentEvents s !! i ≫= uploadFor).
Qed.

Lemma uploads_of_new_events (atts : list AttachmentManager) :
  forall (l0 : list AttachmentEvent),
    omap (fun i => (l0 ++ map eventFor atts) !! i ≫= uploadFor)
         (seq (length l0) (length atts)) = atts.
Proof.
  induction atts as [|a atts IH]; intros l0; [reflexivity|].
  cbn [length seq omap list_omap map].
  rewrite lookup_app_r by lia. rewrite Nat.sub_diag. cbn [lookup list_lookup mbind option_bind].
  change (uploadFor (eventFor a)) with (Some a). f_equal.
  specialize (IH (l0 ++ [eventFor a])).
  rewrite length_app, Nat.add_1_r, <- app_assoc in IH. exact IH.
Qed.

Lemma uploads_after_cancel (atts : list AttachmentManager) :
  forall (l0 : list AttachmentEvent) (k : nat),
    omap (fun i =>
            alter (fun ev => mkAttachmentEvent (ev_attachment ev)
                               (ev_targetIsHTMLElement ev) true)
                  (length l0 + k) (l0 ++ map eventFor atts) !! i ≫= uploadFor)
         (seq (length l0) (length atts)) = delete k atts.
Proof.
  induction atts as [|a atts IH]; intros l0 k; [reflexivity|].
  cbn [length seq omap list_omap map].
  destruct k as [|k].
  - rewrite Nat.add_0_r, list_lookup_alter_eq, lookup_app_r by lia.
    rewrite Nat.sub_diag. cbn [lookup list_lookup fmap option_fmap option_map mbind option_bind].
    change (delete 0 (a :: atts)) with atts.
    change (uploadFor _) with (@None AttachmentManager). cbv iota.
    pose proof (uploads_of_new_events atts (l0 ++ [eventFor a])) as Hrest.
    rewrite length_app, Nat.add_1_r, <- app_assoc in Hrest.
    rewrite <- Hrest at 2. apply list_omap_ext_in.
    intros i Hi. apply in_seq in Hi. rewrite list_lookup_alter_ne by lia. reflexivity.
  - rewrite list_lookup_alter_ne by lia. rewrite lookup_app_r by lia.
    rewrite Nat.sub_diag. cbn [lookup list_lookup mbind option_bind].
    change (uploadFor (eventFor a)) with (Some a).
    change (delete (S k) (a :: atts)) with (a :: delete k atts). f_equal.
    specialize (IH (l0 ++ [eventFor a]) k).
    rewrite length_app, Nat.add_1_r, <- app_assoc in IH.
    replace (length l0 + S k) with (S (length l0) + k) by lia. exact IH.
Qed.

(** X18. From the files to the uploads. On a host that holds an editor,
    with no task waiting: [handleFiles] reaches the host's own
    add-attachment listener once for each attachment it inserted, which
    queues one task each and starts no upload yet; once these tasks have
    run, an upload has been started for each inserted attachment, in
    their order, and for no other file. If a listener cancels the
    notification of one attachment before its task runs, that attachment
    alone gets no upload. *)
Theorem accepted_files_are_uploaded (s : Component) (e : Editor) (files : list File) :
  timers s = [] ->
  editor (host s) = Some e ->
  exists atts,
    map file atts = allowedFiles (fileAcceptOutcomes (effects (host s)) files) /\
    host (step s (Files (Some files))) = finalState (handleFiles (Some files) (host s)) /\
    uploads (step s (Files (Some files))) = uploads s /\
    length (timers (step s (Files (Some files)))) = length atts /\
    uploads (ticks (length atts) (step s (Files (Some files)))) = uploads s ++ atts /\
    forall k,
      uploads (ticks (length atts)
                 (step (step s (Files (Some files)))
                       (Cancel (length (attachmentEvents s) + k))))
      = uploads s ++ delete k atts.
Proof.
  intros Ht He. cbn [step]. unfold withListeners.
  destruct (handleFiles_trace (host s) e files He) as (p & h' & Hrun & Heff).
  cbv zeta in Heff. rewrite Hrun. cbn [finalState]. rewrite Heff, drop_app_length.
  rewrite attachmentsNotified_app, attachmentsNotified_accept, attachmentsNotified_insertion.
  cbn [app].
  set (atts := attachmentsFor (editorId e) (nextURL (host s))
                 (allowedFiles (fileAcceptOutcomes (effects (host s)) files))).
  exists atts. split; [apply attachmentsFor_files|].
  destruct (listen_all atts (set_host h' s)) as (Hh & Hu & _ & Hev & Htm).
  cbv zeta in *. set (s1 := fold_left _ atts (set_host h' s)) in *.
  cbn [timers attachmentEvents uploads host set_host] in Hh, Hu, Hev, Htm.
  rewrite Ht in Htm. cbn [app] in Htm.
  split; [exact Hh|]. split; [exact Hu|].
  split; [by rewrite Htm, length_map, length_seq|]. split.
  - destruct (ticks_uploads (seq (length (attachmentEvents s)) (length atts)) s1 Htm)
      as (Hup & _ & _).
    rewrite length_seq in Hup. rewrite Hup, Hu, Hev. f_equal.
    apply uploads_of_new_events.
  - intros k. set (s2 := preventDefault _ s1).
    assert (Htm2 : timers s2 = map UploadTask (seq (length (attachmentEvents s)) (length atts)))
      by exact Htm.
    destruct (ticks_uploads _ s2 Htm2) as (Hup & _ & _).
    rewrite length_seq in Hup. rewrite Hup.
    change (uploads s2) with (uploads s1). rewrite Hu. f_equal.
    unfold s2, preventDefault. cbn [attachmentEvents set_attachmentEvents].
    rewrite Hev. apply uploads_after_cancel.
Qed.


(** *** What holds whatever happens, in whatever order *)

Lemma sameMount_refl (h : Host) : sameMount h h.
Proof. by repeat split. Qed.

Lemma sameMount_trans (h1 h2 h3 : Host) :
  sameMount h1 h2 -> sameMount h2 h3 -> sameMount h1 h3.
Proof.
  intros (H1 & H2 & H3 & H4 & H5) (K1 & K2 & K3 & K4 & K5).
  repeat split; congruence.
Qed.

Lemma WellFormed_sameContainers (h h' : Host) :
  lightDOM h' = lightDOM h -> nextNode h' = nextNode h -> retired h' = retired h ->
  option_map container (editor h') = option_map container (editor h) ->
  WellFormed h -> WellFormed h'.
Proof.
  intros Hl Hn Hr Hc [H1 H2 H3 H4 H5].
  split; unfold instances, slottedEditor in *; rewrite ?Hl, ?Hn, ?Hr; auto.
  - intros e He. destruct (editor h') as [e'|] eqn:He'.
    + destruct He as [<-|He]; [|destruct (editor h); apply H3; simpl; auto].
      destruct (editor h) as [e0|]; [|discriminate]. injection Hc as Hc. rewrite Hc.
      apply H3. by left.
    + destruct (editor h); apply H3; simpl; auto.
  - intros e He Hin. destruct (editor h) as [e0|]; [|by rewrite He in Hc].
    rewrite He in Hc. injection Hc as Hc. rewrite Hc in *. by apply H5.
Qed.

Lemma sameMount_synced (h : Host) : sameMount h (synced h).
Proof.
  unfold synced. destruct (inputElement h), (editor h) eqn:He, (readonly h);
    try apply sameMount_refl.
  repeat split; simpl; by rewrite He.
Qed.

Lemma sameMount_handleFiles (files : option (list File)) (h : Host) :
  sameMount h (finalState (handleFiles files h)).
Proof.
  destruct (editor h) as [e|] eqn:He.
  - destruct files as [fs|].
    + rewrite (handleFiles_live h e fs He). cbv zeta.
      destruct (attachmentsFor _ _ _); repeat split; simpl; by rewrite He.
    + unfold handleFiles, bind, get. rewrite He. apply sameMount_refl.
  - rewrite handleFiles_no_editor by exact He. apply sameMount_refl.
Qed.

Lemma sameMount_handleDropFile (event : option DOMEvent) (h : Host) :
  sameMount h (finalState (handleDropFile event h)).
Proof.
  destruct (editor h) as [e|] eqn:He.
  - destruct event as [[dt|cd|]|];
      try (unfold handleDropFile, bind, get; rewrite He; apply sameMount_refl).
    rewrite (handleDropFile_live h e dt He).
    destruct dt as [[|f fs]|]; try apply sameMount_refl.
    pose proof (sameMount_handleFiles (Some (f :: fs)) h) as Hs.
    by destruct (handleFiles (Some (f :: fs)) h).
  - rewrite handleDropFile_no_editor by exact He. apply sameMount_refl.
Qed.

Lemma sameMount_handlePaste (event : option DOMEvent) (h : Host) :
  sameMount h (finalState (handlePaste event h)).
Proof.
  destruct (editor h) as [e|] eqn:He.
  - destruct event as [[dt|cd|]|];
      try (unfold handlePaste, bind, get; rewrite He; apply sameMount_refl).
    rewrite (handlePaste_live h e cd He).
    destruct cd as [[items [|f fs]]|]; try apply sameMount_refl.
    pose proof (sameMount_handleFiles (Some (f :: fs)) (afterInsertContent e items h)) as Hs.
    assert (Hi : sameMount h (afterInsertContent e items h))
      by (repeat split; simpl; by rewrite He).
    destruct (handleFiles (Some (f :: fs)) (afterInsertContent e items h));
      by apply (sameMount_trans _ _ _ Hi).
  - unfold handlePaste, bind, get. rewrite He. apply sameMount_refl.
Qed.

Lemma host_withListeners {A} (c : M A) (s : Component) :
  host (withListeners c s) = finalState (c (host s)).
Proof.
  unfold withListeners.
  by destruct (listen_all (attachmentsNotified
                             (drop (length (effects (host s)))
                                (effects (finalState (c (host s))))))
                 (set_host (finalState (c (host s))) s)) as (-> & _).
Qed.

Lemma sameMount_handler (ev : EditorEvent) (s : Component) :
  sameMount (host s) (host (handler ev s)).
Proof.
  assert (Hlog : forall h, sameMount h (log RequestedUpdate h)) by (by repeat split).
  destruct ev; simpl; rewrite ?synced_final;
    try apply Hlog;
    (eapply sameMount_trans; [apply sameMount_synced|apply Hlog]).
Qed.

Lemma sameMount_times (n : nat) (ev : EditorEvent) :
  forall s, sameMount (host s) (host (times n (handler ev) s)).
Proof.
  induction n as [|n IH]; intros s; [apply sameMount_refl|].
  simpl. eapply sameMount_trans; [apply sameMount_handler|apply IH].
Qed.

(** How a step changes the host: it keeps the mount, or unbinds the
    listeners, or is a rebuild. *)
Lemma step_host (s : Component) (op : Op) :
  sameMount (host s) (host (step s op)) \/
  host (step s op) = unbound (host s) \/
  exists h0, sameMount (host s) h0 /\ host (step s op) = finalState (rebuildEditor h0).
Proof.
  destruct op as [| | |a|ev|files|event|event|event]; cbn [step].
  - right. left. by rewrite connectedCallback_unfold.
  - left. unfold disconnectedCallback. destruct (editor (host s)); apply sameMount_refl.
  - unfold tick. destruct (timers s) as [|[|i] rest]; [left; apply sameMount_refl| |].
    + right. right. exists (host s). split; [apply sameMount_refl|].
      cbn [runTask host set_timers]. by destruct (rebuildEditor (host s)) as [[] h'|x h'].
    + left. cbn [runTask set_timers attachmentEvents].
      destruct (attachmentEvents s !! i) as [ev|]; [|apply sameMount_refl].
      rewrite startUpload_uploads. apply sameMount_refl.
  - right. right. destruct (assign_as_rebuild a (host s)) as (hs & Has & Hl & Hn & He & Hr).
    exists hs. split; [|by (unfold onHost; simpl; rewrite Has)].
    repeat split; congruence.
  - left. unfold emit. destruct (editor (host s)); [apply sameMount_times|apply sameMount_refl].
  - left. rewrite host_withListeners. apply sameMount_handleFiles.
  - left. rewrite host_withListeners. apply sameMount_handleDropFile.
  - left. rewrite host_withListeners. apply sameMount_handlePaste.
  - left. apply sameMount_refl.
Qed.

Lemma WellFormed_rebuildEditor (h : Host) :
  WellFormed h -> WellFormed (finalState (rebuildEditor h)).
Proof.
  intros Hwf. destruct (rebuildEditor h) as [[] h'|x h'] eqn:Hrun; simpl.
  - by apply (rebuildEditor_returned h h').
  - by apply (rebuildEditor_thrown h h' x).
Qed.

Lemma WellFormed_step (s : Component) (op : Op) :
  WellFormed (host s) -> WellFormed (host (step s op)).
Proof.
  intros Hwf. destruct (step_host s op) as [Hs|[Hs|(h0 & Hs & Hh)]].
  - destruct Hs as (H1 & H2 & H3 & H4 & _).
    by apply (WellFormed_sameContainers (host s)).
  - rewrite Hs. apply (WellFormed_sameContainers (host s)); try reflexivity; [|exact Hwf].
    unfold unbound, __unBindEditorListeners, modify, update_editor. simpl.
    by destruct (editor (host s)).
  - rewrite Hh. apply WellFormed_rebuildEditor.
    destruct Hs as (H1 & H2 & H3 & H4 & _).
    by apply (WellFormed_sameContainers (host s)).
Qed.

Lemma WellFormed_run (ops : list Op) :
  forall s, WellFormed (host s) -> WellFormed (host (run ops s)).
Proof.
  induction ops as [|op ops IH]; intros s Hwf; [exact Hwf|].
  apply IH, WellFormed_step, Hwf.
Qed.

(** X19. At most one editor is alive on the host at any time. From a
    host whose light DOM is well kept, whatever happens in whatever
    order (attaching, detaching, a task running, an assignment to a
    setter, an event of the editor, files handed over, dropped or pasted,
    a notification canceled), an editor instance whose container is in
    the light DOM of the host is the editor the host holds, so there is
    never more than one; and an editor the host has let go is mounted
    nowhere in it. *)
Theorem at_most_one_editor_alive (s : Component) (ops : list Op) :
  WellFormed (host s) ->
  (forall e1 e2,
      alive (host (run ops s)) e1 -> alive (host (run ops s)) e2 ->
      e1 = e2 /\ editor (host (run ops s)) = Some e1) /\
  (forall old, In old (retired (host (run ops s))) -> ~ alive (host (run ops s)) old).
Proof.
  intros Hwf0. pose proof (WellFormed_run ops s Hwf0) as Hwf.
  set (h := host (run ops s)) in *.
  assert (Hcur : forall e, alive h e -> editor h = Some e).
  { intros e [Hin Hmounted]. unfold instances in Hin.
    destruct (editor h) as [cur|] eqn:Hcur.
    - destruct Hin as [->|Hin]; [reflexivity|].
      by destruct (wf_retired h Hwf e Hin).
    - by destruct (wf_retired h Hwf e Hin). }
  split.
  - intros e1 e2 H1 H2. apply Hcur in H1 as H1'. apply Hcur in H2.
    split; [congruence|exact H1'].
  - intros old Hold [_ Hmounted]. by apply (wf_retired h Hwf old).
Qed.

Lemma boundOnce_step (s : Component) (op : Op) :
  boundOnce (host s) -> boundOnce (host (step s op)).
Proof.
  intros Hb. destruct (step_host s op) as [Hs|[Hs|(h0 & Hs & Hh)]].
  - destruct Hs as (_ & _ & _ & _ & Hl). intros e He. rewrite He in Hl.
    destruct (editor (host s)) as [e0|] eqn:He0; [|discriminate]. injection Hl as Hl.
    rewrite Hl. by apply Hb.
  - rewrite Hs. intros e He.
    unfold unbound, __unBindEditorListeners, modify, update_editor in He. simpl in He.
    destruct (editor (host s)) as [e0|] eqn:He0; [|discriminate].
    injection He as <-. left. simpl. by destruct (Hb e0 He0) as [-> | ->].
  - rewrite Hh. intros e He.
    destruct (rebuildEditor h0) as [[] h'|x h'] eqn:Hrun; simpl in He.
    + destruct (rebuildEditor_new_editor h0 h' Hrun) as (e' & He' & _ & Hl & _).
      right. congruence.
    + assert (Hx : editor h' = editor h0).
      { rewrite rebuildEditor_unfold in Hrun.
        destruct (setupEditor_frame (nextNode h0) (afterSlot h0))
          as [(e1 & pg & Heq & _)|(x' & pg & Heq)]; rewrite Heq in Hrun; [discriminate|].
        by injection Hrun as _ <-. }
      rewrite Hx in He. destruct Hs as (_ & _ & _ & _ & Hl). rewrite He in Hl.
      destruct (editor (host s)) as [e0|] eqn:He0; [|discriminate]. injection Hl as Hl.
      rewrite Hl. by apply Hb.
Qed.

(** X20. No callback is ever bound twice. From a host whose editor, if
    it holds one, has its six listeners bound once or not at all,
    whatever happens in whatever order, each event of the editor the
    host holds runs the host's callback at most once: rebuilding binds
    the listeners on a new editor, attaching unbinds those of the editor
    held, and nothing else touches them. *)
Theorem callbacks_bound_at_most_once (s : Component) (ops : list Op) :
  boundOnce (host s) ->
  forall e ev, editor (host (run ops s)) = Some e ->
    bound ev e <= 1 /\ (listeners e = [] \/ listeners e = boundEvents).
Proof.
  intros Hb0.
  assert (Hb : boundOnce (host (run ops s))).
  { revert s Hb0. induction ops as [|op ops IH]; intros s Hb0; [exact Hb0|].
    apply IH, boundOnce_step, Hb0. }
  intros e ev He. split; [|by apply Hb].
  unfold bound. destruct (Hb e He) as [-> | ->]; [simpl; lia|].
  destruct ev; simpl; lia.
Qed.

End Facts.
End LifecycleFacts.

(* ===================================================================== *)
(** * More of the code at work on the small platform *)
(* ===================================================================== *)

Module MoreExamples.
Import JSString DOM Normalize Host Lifecycle Demo Fixtures.
Import DOMContext TokenDefs GalleryDefs SetupDefs.
Import HostFacts IntakeFacts SetupFacts NormalizeMoreFacts GalleryFacts LifecycleFacts Examples.

(** A paste of a text and a picture on the live host. *)
Lemma handlePaste_inserts_items_then_files_witness :
  exists (p : Promise) (h' : Host) (atts : list AttachmentManager),
    @handlePaste engine (Some (ClipboardEvent (Some (["Hi"], [picture])))) liveHost
    = Returned (mkHandled true p) h' /\
    map file atts = [picture] /\
    effects h'
    = effects liveHost
        ++ [InsertContent 0 ["Hi"]; Dispatched (FileAcceptEvent picture) false]
        ++ insertionTrace 0 atts.
Proof.
  destruct (@handlePaste_inserts_items_then_files engine liveHost _
              (Some (["Hi"], [picture])) eq_refl)
    as (p & h' & atts & Hrun & Hfiles & Heff & _).
  exists p, h', atts. split; [exact Hrun|]. split; [exact Hfiles|exact Heff].
Defined.

(** The first rebuild of the fresh host. *)
Lemma rebuildEditor_builds_from_stored_value_witness :
  exists e,
    editor liveHost = Some e /\ editorId e = 0 /\ o_element (options e) = 0 /\
    o_editable (options e) = true /\
    o_extensions (options e)
    = [StarterKit_configure strikeOff; RhinoStarterKit_configure strikeOff] /\
    listeners e = boundEvents /\
    o_content (options e) = HTMLContent (storedValue liveHost).
Proof.
  assert (Hrun : @rebuildEditor browser engine freshHost = Returned tt liveHost)
    by (vm_compute; reflexivity).
  destruct (@rebuildEditor_builds_from_stored_value browser engine freshHost liveHost Hrun)
    as (e & He & Hid & Hel & Hed & Hext & _ & _ & _ & Hl & Hhtml & _).
  exists e. repeat split; auto.
Defined.

Lemma rebuildEditor_puts_slot_in_place_witness :
  lightDOM liveHost = [decoratedSlot 0] /\
  slottedEditor liveHost = Some (decoratedSlot 0) /\
  editorElement liveHost = Some 1.
Proof.
  assert (Hrun : @rebuildEditor browser engine freshHost = Returned tt liveHost)
    by (vm_compute; reflexivity).
  destruct (@rebuildEditor_puts_slot_in_place browser engine freshHost liveHost
              WellFormed_freshHost Hrun) as (Hl & Hs & He & _).
  by repeat split.
Defined.

Lemma rebuilds_do_not_pile_up_witness :
  lightDOM afterThree = [decoratedSlot 4].
Proof.
  exact (@rebuilds_do_not_pile_up browser engine freshHost twoAssignments
           (AssignExtensions []) WellFormed_freshHost).
Defined.

(** The stored value with the caption x in the payload of its figure:
    the image of the figure is where it was. *)
Lemma normalizeDocument_only_grows_witness :
  exists n',
    nodeAt [1; 0; 0] (normalized captionedValue) = Some n' /\
    grew (Element "img" [("src", "cat.png")] []) n'.
Proof.
  assert (Hrun : @normalizeDocument (browserWith (fun _ => captionedValue)) captionedValue
                 = Ok (normalized captionedValue)) by (vm_compute; reflexivity).
  exact (@normalizeDocument_only_grows (browserWith (fun _ => captionedValue))
           captionedValue (normalized captionedValue) Hrun [1; 0; 0]
           (Element "img" [("src", "cat.png")] []) eq_refl).
Defined.

(** The figure that has a caption with the name of the attachment in it:
    it keeps its one child. *)
Lemma only_captionless_attachments_get_elements_witness :
  nothingAdded [1; 0] 1 (normalized (namedValue "report.pdf" [])).
Proof.
  assert (Hrun : @normalizeDocument (browserWith (fun _ => namedValue "report.pdf" []))
                   (namedValue "report.pdf" [])
                 = Ok (normalized (namedValue "report.pdf" []))) by (vm_compute; reflexivity).
  refine (@only_captionless_attachments_get_elements
            (browserWith (fun _ => namedValue "report.pdf" []))
            (namedValue "report.pdf" []) (normalized (namedValue "report.pdf" []))
            [1; 0] "figure" _ _ Hrun eq_refl _).
  right. right. exists [0], (Element "figcaption" [("class", "attachment__caption")]
                              [Element "span" [("class", "attachment__name")]
                                 [Text "report.pdf"]]).
  split; [discriminate|]. split; reflexivity.
Defined.


(** The greeting has no figure. *)
Lemma without_figures_nothing_changes_witness :
  @normalizeValue (browserWith (fun _ => greeting)) (fun _ => greeting) "<p>Hi</p>"
  = Ok (Some "<p>Hi</p>").
Proof.
  destruct (@without_figures_nothing_changes (browserWith (fun _ => greeting))
              (fun _ => greeting) "<p>Hi</p>" eq_refl) as [_ Hvalue].
  rewrite Hvalue. reflexivity.
Defined.

(** The div of the two figures gets the class after the one it had. *)
Lemma gallery_class_and_attributes_witness :
  exists a' ks',
    nodeAt [1; 0] (normalized galleryValue) = Some (Element "div" a' ks') /\
    classTokens a' = ["attachments"; "attachment-gallery"].
Proof.
  assert (Hrun : @normalizeDocument (browserWith (fun _ => galleryValue)) galleryValue
                 = Ok (normalized galleryValue)) by (vm_compute; reflexivity).
  destruct (@gallery_class_and_attributes (browserWith (fun _ => galleryValue))
              galleryValue (normalized galleryValue) [1; 0] "div" _ _ Hrun eq_refl)
    as (a' & ks' & Hn & _ & Htok & _).
  by exists a', ks'.
Defined.

(** The task of a notification not canceled starts the upload; canceled
    in between, it does not. *)
Lemma upload_decided_when_task_runs_witness :
  uploads (@tick browser engine (handleAttachment 0 notifiedElement))
  = [mkAttachment "blob:0" picture 0] /\
  uploads (@tick browser engine (preventDefault 0 (handleAttachment 0 notifiedElement)))
  = [].
Proof.
  destruct (@upload_decided_when_task_runs browser engine notifiedElement 0 _
              eq_refl eq_refl)
    as (_ & _ & Hrun & Hcancel & _).
  by split.
Defined.

(** A picture and an installer handed to the live host: one upload, for
    the picture. *)
Lemma accepted_files_are_uploaded_witness :
  exists atts,
    map file atts = [picture] /\
    uploads (@ticks browser engine (length atts)
               (@step browser engine liveElement (Files (Some [picture; installer]))))
    = atts.
Proof.
  destruct (@accepted_files_are_uploaded browser engine liveElement _ [picture; installer]
              eq_refl eq_refl) as (atts & Hfiles & _ & _ & _ & Hup & _).
  by exists atts.
Defined.

(** A life of the host, from the fresh host. *)
Lemma at_most_one_editor_alive_witness :
  (forall e1 e2,
      alive (host (@run browser engine life (created freshHost))) e1 ->
      alive (host (@run browser engine life (created freshHost))) e2 ->
      e1 = e2 /\ editor (host (@run browser engine life (created freshHost))) = Some e1) /\
  (forall old,
      In old (retired (host (@run browser engine life (created freshHost)))) ->
      ~ alive (host (@run browser engine life (created freshHost))) old).
Proof.
  exact (@at_most_one_editor_alive browser engine (created freshHost) life
           WellFormed_freshHost).
Defined.

Lemma callbacks_bound_at_most_once_witness :
  exists e,
    editor (host (@run browser engine life (created freshHost))) = Some e /\
    (forall ev, bound ev e <= 1) /\ listeners e = boundEvents.
Proof.
  assert (Hfresh : @boundOnce engine freshHost) by (intros e [=]).
  eexists. split; [vm_compute; reflexivity|]. split.
  - intros ev.
    refine (proj1 (@callbacks_bound_at_most_once browser engine (created freshHost) life
                     Hfresh _ ev _)).
    vm_compute; reflexivity.
  - reflexivity.
Defined.

End MoreExamples.
